(** * extglob: parser engines and renderer engine

    A shallow embedding of
      - [src/lib/extglob/parser.js], first file: the extglob [Parser]
        (fixed table of handlers registered with [capture]/[pair]),
        module [Extglob];
      - [src/lib/extglob/parser.js], second file: the snapdragon [Parser]
        (middleware registered with [use]), module [Snapdragon];
      - [src/snapdragon/lib/renderer.js]: the [Renderer], module [Renderer].

    JavaScript objects that are shared and mutated (AST nodes, which sit in
    their parent's [nodes] array and on the nesting stacks at the same time)
    live in a store and are referred to by handle; arrays are lists in array
    order ([push] appends at the end, [pop] removes the last element);
    objects used as dictionaries are [gmap]s of their own properties,
    keyed by strings, and a key that was not assigned is read through
    [Js.read], which finds what the object inherits from
    [Object.prototype]; no entry is assigned under the name [__proto__],
    which would replace that prototype; exceptions are an explicit outcome
    carrying the state at the point of the throw. *)

From Stdlib Require Import ZArith Lia Ascii.
From stdpp Require Import gmap strings list sorting pretty.

(** ** JavaScript string and array primitives used by the sources *)

Module Js.

(** [s.substr(start)] and [s.slice(start)] for [0 <= start]. *)
Fixpoint substr (s : string) (start : nat) : string :=
  match start, s with
  | O, _ => s
  | S n, String _ s' => substr s' n
  | S _, EmptyString => EmptyString
  end.

(** [s.charAt(0)]. *)
Definition charAt0 (s : string) : string :=
  match s with
  | String c _ => String c EmptyString
  | EmptyString => EmptyString
  end.

(** Truthiness of a string: non-empty. *)
Definition truthy (s : string) : bool :=
  match s with
  | EmptyString => false
  | String _ _ => true
  end.

(** A string between double quotes. *)
Definition quoted (s : string) : string :=
  String "034"%char s +:+ String "034"%char EmptyString.

(** String concatenation with a possibly [undefined] operand. *)
Definition show (o : option string) : string := default "undefined" o.

(** [a.pop()] on an array: the removed element (or [undefined]) and the
    array that is left. *)
Definition array_pop {A} (a : list A) : option A * list A :=
  (last a, removelast a).

(** [str.match(/\n/g)]: the number of matches, [None] for [null]. *)
Fixpoint count_newlines (s : string) : nat :=
  match s with
  | EmptyString => 0
  | String c s' =>
      (if Ascii.eqb c "010"%char then 1 else 0) + count_newlines s'
  end.

(** [str.lastIndexOf('\n')], [-1] when there is none. *)
Fixpoint lastIndexOf_newline_from (s : string) (i : Z) (found : Z) : Z :=
  match s with
  | EmptyString => found
  | String c s' =>
      lastIndexOf_newline_from s' (i + 1)
        (if Ascii.eqb c "010"%char then i else found)
  end.

Definition lastIndexOf_newline (s : string) : Z :=
  lastIndexOf_newline_from s 0 (-1).

(** A regular expression without the [g] and [y] flags, seen through
    [regex.exec(input)]: [None] for [null], otherwise the whole match
    [m[0]] and the first capture group [m[1]] ([None] for [undefined]). *)
Record RegExpMatch := { m0 : string; m1 : option string }.
Definition RegExp := string → option RegExpMatch.

(** The values that a render function, or a function found in its place,
    hands back to [visit]: a string, [undefined], a boolean, or an object
    that has no [toString] and no [valueOf] of its own. *)
Inductive jsv :=
| VStr (s : string)
| VUndef
| VBool (b : bool)
| VObj.

(** The string that [buf += v] appends. *)
Definition to_str (v : jsv) : string :=
  match v with
  | VStr s => s
  | VUndef => "undefined"
  | VBool true => "true"
  | VBool false => "false"
  | VObj => "[object Object]"
  end.

(** [node.val] as a value. *)
Definition of_val (o : option string) : jsv := from_option VStr VUndef o.

(** What a call of a built-in function ends in: a value, or a
    [TypeError]. *)
Inductive native :=
| Returns (v : jsv)
| Raises.

(** A member that an object literal inherits from [Object.prototype]: a
    function, with its [length] and with what [fn.call(this, node, nodes,
    i)] ends in when [this] is an instance of one of the classes of these
    sources, [node] a node object and [nodes] an array ([fn.call(this)]
    returns or throws in the same cases); or the accessor [__proto__],
    which gives the prototype, an object. *)
Inductive inherited :=
| InheritedFunction (len : nat) (call : native)
| InheritedObject.

(** The members of [Object.prototype].  [Object(node)] is [node];
    [hasOwnProperty], [isPrototypeOf] and [propertyIsEnumerable] are asked
    about a node and answer [false]; [toString] and [toLocaleString] give
    ["[object Object]"]; [valueOf] gives [this]; [__defineGetter__] and
    [__defineSetter__] reject the array they get in place of a function;
    [__lookupGetter__] and [__lookupSetter__] find nothing. *)
Definition object_prototype_members : list (string * inherited) :=
  [("constructor", InheritedFunction 1 (Returns VObj));
   ("hasOwnProperty", InheritedFunction 1 (Returns (VBool false)));
   ("isPrototypeOf", InheritedFunction 1 (Returns (VBool false)));
   ("propertyIsEnumerable", InheritedFunction 1 (Returns (VBool false)));
   ("toLocaleString", InheritedFunction 0 (Returns (VStr "[object Object]")));
   ("toString", InheritedFunction 0 (Returns (VStr "[object Object]")));
   ("valueOf", InheritedFunction 0 (Returns VObj));
   ("__defineGetter__", InheritedFunction 2 Raises);
   ("__defineSetter__", InheritedFunction 2 Raises);
   ("__lookupGetter__", InheritedFunction 1 (Returns VUndef));
   ("__lookupSetter__", InheritedFunction 1 (Returns VUndef));
   ("__proto__", InheritedObject)].

(** The member of [Object.prototype] named [key], if any. *)
Definition object_prototype (key : string) : option inherited :=
  (list_to_map object_prototype_members : gmap string inherited) !! key.

(** [obj[key]] for an object literal with the own properties [obj]: the
    own property, or else the member of [Object.prototype] of that name,
    or else [undefined]. *)
Inductive property (A : Type) :=
| Own (a : A)
| FromPrototype (m : inherited)
| Missing.
Arguments Own {A} a.
Arguments FromPrototype {A} m.
Arguments Missing {A}.

Definition read {A} (obj : gmap string A) (key : string) : property A :=
  match obj !! key with
  | Some a => Own a
  | None =>
      match object_prototype key with
      | Some m => FromPrototype m
      | None => Missing
      end
  end.


End Js.

Import Js.

(** ** The extglob parser: [function Parser(options)] and its prototype *)

Module Extglob.

(** A handle on a node object in the store. *)
Abbreviation id := nat (only parsing).

(** Modelled from the spec: the [Position] class of [./position], which is
    not among the sources.  [new Position(start, parser)] keeps the [start]
    snapshot and takes [end] from the parser's cursor at the time the node
    is created; this parser's cursor is a column only. *)
Record Position := { start_column : Z; end_column : Z }.

(** An AST node: the union of the properties the parser gives to its
    object literals; an absent property is [None]. *)
Record Node := mkNode {
  n_type : string;
  n_val : option string;
  n_prefix : option string;
  n_suffix : option string;
  n_parsed : option string;
  n_rest : option string;
  n_nodes : option (list id);
  n_parent : option id;
  n_position : option Position;
  n_source : option string
}.

(** [{type: t}], every other property absent. *)
Definition blank (t : string) : Node :=
  mkNode t None None None None None None None None None.

Definition with_val (v : string) (n : Node) : Node :=
  mkNode (n_type n) (Some v) (n_prefix n) (n_suffix n) (n_parsed n)
    (n_rest n) (n_nodes n) (n_parent n) (n_position n) (n_source n).
Definition with_prefix (v : option string) (n : Node) : Node :=
  mkNode (n_type n) (n_val n) v (n_suffix n) (n_parsed n)
    (n_rest n) (n_nodes n) (n_parent n) (n_position n) (n_source n).
Definition with_suffix (v : option string) (n : Node) : Node :=
  mkNode (n_type n) (n_val n) (n_prefix n) v (n_parsed n)
    (n_rest n) (n_nodes n) (n_parent n) (n_position n) (n_source n).
Definition with_parsed (v : string) (n : Node) : Node :=
  mkNode (n_type n) (n_val n) (n_prefix n) (n_suffix n) (Some v)
    (n_rest n) (n_nodes n) (n_parent n) (n_position n) (n_source n).
Definition with_rest (v : string) (n : Node) : Node :=
  mkNode (n_type n) (n_val n) (n_prefix n) (n_suffix n) (n_parsed n)
    (Some v) (n_nodes n) (n_parent n) (n_position n) (n_source n).
Definition with_nodes (v : list id) (n : Node) : Node :=
  mkNode (n_type n) (n_val n) (n_prefix n) (n_suffix n) (n_parsed n)
    (n_rest n) (Some v) (n_parent n) (n_position n) (n_source n).
Definition with_parent (v : option id) (n : Node) : Node :=
  mkNode (n_type n) (n_val n) (n_prefix n) (n_suffix n) (n_parsed n)
    (n_rest n) (n_nodes n) v (n_position n) (n_source n).
Definition with_position (v : Position) (src : option string) (n : Node) : Node :=
  mkNode (n_type n) (n_val n) (n_prefix n) (n_suffix n) (n_parsed n)
    (n_rest n) (n_nodes n) (n_parent n) (Some v) src.

(** The options object after [utils.extend({source: 'extglob'}, options)];
    [utils.extend] is the usual property merge. *)
Record Options := { source : string; silent : bool; strict : bool }.

Record UserOptions := {
  u_source : option string;
  u_silent : bool;
  u_strict : bool
}.

Definition extend_defaults (o : UserOptions) : Options :=
  {| source := default "extglob" (u_source o);
     silent := u_silent o;
     strict := u_strict o |}.

(** The [Error] objects made by [error] and by the bare [new Error(..)]. *)
Record ErrorObj := {
  message : string;
  reason : option string;
  err_column : option Z;
  err_source : option string
}.

Definition new_Error (msg : string) : ErrorObj :=
  {| message := msg; reason := None; err_column := None; err_source := None |}.

(** What a [throw] carries. *)
Inductive exn :=
| Error (e : ErrorObj)
| RuntimeTypeError
| Undefined.

(** The closures that [capture] and [pair] hand to [set]; each keeps the
    [type] and the regular expression it was created with. *)
Inductive handler :=
| CaptureFn (type : string) (regex : RegExp)
| PairOpenFn (type : string) (openRegex : RegExp)
| PairCloseFn (type : string) (closeRegex : RegExp).

(** The parser instance.  [store] holds the node objects; [ast], [bos] and
    the entries of [nodes], [stack] and [sets] are handles into it.  The
    [errors] array is also what [ast.errors] refers to once [parse] has
    run.  [orig] and [append] are [undefined] until assigned. *)
Record Parser := mkParser {
  options : Options;
  input : string;
  parsed : string;
  column : Z;
  errors : list ErrorObj;
  parsers : gmap string handler;
  fns : list handler;
  bos : id;
  ast : id;
  nodes : list id;
  types : list string;
  stack : list id;
  count : Z;
  sets : gmap string (list id);
  orig : option string;
  specialChars : bool;
  append : option string;
  store : list Node
}.

Definition set_input (v : string) (p : Parser) : Parser :=
  mkParser (options p) v (parsed p) (column p) (errors p) (parsers p) (fns p)
    (bos p) (ast p) (nodes p) (types p) (stack p) (count p) (sets p) (orig p)
    (specialChars p) (append p) (store p).
Definition set_parsed (v : string) (p : Parser) : Parser :=
  mkParser (options p) (input p) v (column p) (errors p) (parsers p) (fns p)
    (bos p) (ast p) (nodes p) (types p) (stack p) (count p) (sets p) (orig p)
    (specialChars p) (append p) (store p).
Definition set_column (v : Z) (p : Parser) : Parser :=
  mkParser (options p) (input p) (parsed p) v (errors p) (parsers p) (fns p)
    (bos p) (ast p) (nodes p) (types p) (stack p) (count p) (sets p) (orig p)
    (specialChars p) (append p) (store p).
Definition set_errors (v : list ErrorObj) (p : Parser) : Parser :=
  mkParser (options p) (input p) (parsed p) (column p) v (parsers p) (fns p)
    (bos p) (ast p) (nodes p) (types p) (stack p) (count p) (sets p) (orig p)
    (specialChars p) (append p) (store p).
Definition set_parsers (v : gmap string handler) (p : Parser) : Parser :=
  mkParser (options p) (input p) (parsed p) (column p) (errors p) v (fns p)
    (bos p) (ast p) (nodes p) (types p) (stack p) (count p) (sets p) (orig p)
    (specialChars p) (append p) (store p).
Definition set_fns (v : list handler) (p : Parser) : Parser :=
  mkParser (options p) (input p) (parsed p) (column p) (errors p) (parsers p) v
    (bos p) (ast p) (nodes p) (types p) (stack p) (count p) (sets p) (orig p)
    (specialChars p) (append p) (store p).
Definition set_types (v : list string) (p : Parser) : Parser :=
  mkParser (options p) (input p) (parsed p) (column p) (errors p) (parsers p)
    (fns p) (bos p) (ast p) (nodes p) v (stack p) (count p) (sets p) (orig p)
    (specialChars p) (append p) (store p).
Definition set_stack (v : list id) (p : Parser) : Parser :=
  mkParser (options p) (input p) (parsed p) (column p) (errors p) (parsers p)
    (fns p) (bos p) (ast p) (nodes p) (types p) v (count p) (sets p) (orig p)
    (specialChars p) (append p) (store p).
Definition set_count (v : Z) (p : Parser) : Parser :=
  mkParser (options p) (input p) (parsed p) (column p) (errors p) (parsers p)
    (fns p) (bos p) (ast p) (nodes p) (types p) (stack p) v (sets p) (orig p)
    (specialChars p) (append p) (store p).
Definition set_sets (v : gmap string (list id)) (p : Parser) : Parser :=
  mkParser (options p) (input p) (parsed p) (column p) (errors p) (parsers p)
    (fns p) (bos p) (ast p) (nodes p) (types p) (stack p) (count p) v (orig p)
    (specialChars p) (append p) (store p).
Definition set_orig (v : option string) (p : Parser) : Parser :=
  mkParser (options p) (input p) (parsed p) (column p) (errors p) (parsers p)
    (fns p) (bos p) (ast p) (nodes p) (types p) (stack p) (count p) (sets p) v
    (specialChars p) (append p) (store p).
Definition set_specialChars (v : bool) (p : Parser) : Parser :=
  mkParser (options p) (input p) (parsed p) (column p) (errors p) (parsers p)
    (fns p) (bos p) (ast p) (nodes p) (types p) (stack p) (count p) (sets p)
    (orig p) v (append p) (store p).
Definition set_store (v : list Node) (p : Parser) : Parser :=
  mkParser (options p) (input p) (parsed p) (column p) (errors p) (parsers p)
    (fns p) (bos p) (ast p) (nodes p) (types p) (stack p) (count p) (sets p)
    (orig p) (specialChars p) (append p) v.

(** *** Calls that return or throw, threading the parser instance *)

Inductive outcome (A : Type) :=
| Normal (a : A) (p : Parser)
| Thrown (e : exn) (p : Parser).
Arguments Normal {A} a p.
Arguments Thrown {A} e p.

Definition M (A : Type) := Parser → outcome A.

Definition ret {A} (a : A) : M A := λ p, Normal a p.
Definition throw {A} (e : exn) : M A := λ p, Thrown e p.
Definition bind {A B} (c : M A) (k : A → M B) : M B :=
  λ p, match c p with
       | Normal a p' => k a p'
       | Thrown e p' => Thrown e p'
       end.
Definition gets {A} (f : Parser → A) : M A := λ p, Normal (f p) p.
Definition modify (f : Parser → Parser) : M unit := λ p, Normal tt (f p).

Notation "'let*' x ':=' c 'in' k" := (bind c (λ x, k))
  (at level 10, x name, c at level 100, k at level 200, only parsing).

Definition state_of {A} (r : outcome A) : Parser :=
  match r with Normal _ p => p | Thrown _ p => p end.

(** *** Node objects in the store *)

(** A new object: it gets the next free handle. *)
Definition alloc (n : Node) : M id :=
  λ p, Normal (length (store p)) (set_store (store p ++ [n]) p).

(** [utils.define(node, 'parent', parent)]; [utils.define] is
    [Object.defineProperty] with a plain value. *)
Definition define_parent (node : id) (parent : option id) : M unit :=
  λ p, match store p !! node with
       | Some n => Normal tt (set_store (<[node := with_parent parent n]> (store p)) p)
       | None => Thrown RuntimeTypeError p
       end.

(** [target.nodes.push(child)]; reading [nodes] of [undefined], or calling
    [push] on an absent [nodes], is a runtime [TypeError]. *)
Definition nodes_push (target : option id) (child : id) : M unit :=
  λ p, match target with
       | None => Thrown RuntimeTypeError p
       | Some t =>
           match store p !! t with
           | None => Thrown RuntimeTypeError p
           | Some n =>
               match n_nodes n with
               | None => Thrown RuntimeTypeError p
               | Some l =>
                   Normal tt (set_store (<[t := with_nodes (l ++ [child]) n]> (store p)) p)
               end
           end
       end.

(** *** Prototype methods, in the order of the source *)

(** The [err] object that [error(msg)] makes. *)
Definition error_object (msg : string) (p : Parser) : ErrorObj :=
  {| message := source (options p) +:+ " column:" +:+ pretty (column p)
                  +:+ ": " +:+ msg;
     reason := Some msg;
     err_column := Some (column p);
     err_source := Some (source (options p)) |}.

(** [error(msg)]: collects the error when [options.silent] is set and
    returns [undefined], throws it otherwise. *)
Definition error (msg : string) : M unit :=
  λ p, let err := error_object msg p in
       if silent (options p)
       then Normal tt (set_errors (errors p ++ [err]) p)
       else Thrown (Error err) p.

(** [position()]: the [start] snapshot kept by the returned closure. *)
Definition position (p : Parser) : Z := column p.

(** The closure returned by [position()], applied to a fresh object
    literal: patches [position] and [source]. *)
Definition pos (start : Z) (n : Node) : M Node :=
  λ p, Normal (with_position {| start_column := start; end_column := column p |}
                 (orig p) n) p.

Definition use (fn : handler) (p : Parser) : Parser :=
  set_fns (fns p ++ [fn]) p.

Definition set (type : string) (fn : handler) (p : Parser) : Parser :=
  set_parsers (<[type := fn]> (parsers p)) (set_types (types p ++ [type]) p).

Definition get (name : string) (p : Parser) : property handler :=
  read (parsers p) name.

(** [push(type, token)]; returns the new length of the [type] stack.  For
    a [type] without a stack, [sets[type]] is [undefined] or an inherited
    member, which has no [push]: a [TypeError], here and in [pop]. *)
Definition push (type : string) (token : id) : M nat :=
  let* _ := modify (λ p, set_count (count p + 1) p) in
  let* _ := modify (λ p, set_stack (stack p ++ [token]) p) in
  λ p, match sets p !! type with
       | None => Thrown RuntimeTypeError p
       | Some l => Normal (length l + 1)%nat (set_sets (<[type := l ++ [token]]> (sets p)) p)
       end.

(** [pop(type)]; returns the token taken off the [type] stack. *)
Definition pop (type : string) : M (option id) :=
  let* _ := modify (λ p, set_count (count p - 1) p) in
  let* _ := modify (λ p, set_stack (array_pop (stack p)).2 p) in
  λ p, match sets p !! type with
       | None => Thrown RuntimeTypeError p
       | Some l =>
           Normal (array_pop l).1 (set_sets (<[type := (array_pop l).2]> (sets p)) p)
       end.

(** [isInside(type)]: [this.sets[type].length > 0].  For a [type] without
    a stack of its own, [sets[type]] is what the object literal inherits
    under that name: a function has a [length], the prototype has none,
    and [undefined > 0] is [false]; reading [length] of [undefined] is a
    [TypeError]. *)
Definition isInside (type : string) : M bool :=
  λ p, match read (sets p) type with
       | Own l => Normal (bool_decide (l ≠ [])) p
       | FromPrototype (InheritedFunction len _) => Normal (bool_decide (len ≠ 0%nat)) p
       | FromPrototype InheritedObject => Normal false p
       | Missing => Thrown RuntimeTypeError p
       end.

(** The values [isType] is called with. *)
Inductive jsval :=
| JUndefined
| JString (s : string)
| JNode (i : id).

Definition strict_equal (a b : jsval) : bool :=
  match a, b with
  | JUndefined, JUndefined => true
  | JString s, JString t => bool_decide (s = t)
  | JNode i, JNode j => bool_decide (i = j)
  | _, _ => false
  end.

(** [v.type]: a node's [type]; a string has no such property. *)
Definition type_property (st : list Node) (v : jsval) : jsval :=
  match v with
  | JNode i => from_option (λ n, JString (n_type n)) JUndefined (st !! i)
  | _ => JUndefined
  end.

Definition js_truthy (v : jsval) : bool :=
  match v with
  | JUndefined => false
  | JString s => truthy s
  | JNode _ => true
  end.

(** [isType: function(type, node) { return node && node.type === type; }],
    as the condition of an [if]. *)
Definition isType (st : list Node) (type node : jsval) : bool :=
  js_truthy node && strict_equal (type_property st node) type.

(** [prev()]: the top of [stack] when it is not empty, the last of [nodes]
    (the root) otherwise. *)
Definition prev (p : Parser) : option id :=
  if bool_decide (stack p ≠ []) then last (stack p) else last (nodes p).

Definition consume (len : nat) : M unit :=
  modify (λ p, set_input (substr (input p) len) p).

Definition updatePosition (str : string) (len : nat) : M unit :=
  let* _ := modify (λ p, set_column (column p + Z.of_nat len) p) in
  let* _ := modify (λ p, set_parsed (parsed p +:+ str) p) in
  consume len.

Definition match_ (regex : RegExp) : M (option RegExpMatch) :=
  let* inp := gets input in
  match regex inp with
  | Some m =>
      let* _ := updatePosition (m0 m) (String.length (m0 m)) in
      ret (Some m)
  | None => ret None
  end.

(** The function that [capture(type, regex)] registers. *)
Definition capture_fn (type : string) (regex : RegExp) : M (option id) :=
  let* parsed0 := gets parsed in
  let* start := gets position in
  let* m := match_ regex in
  match m with
  | None => ret None
  | Some m =>
      if negb (truthy (m0 m)) then ret None else
      let* prev := gets prev in
      let* rest := gets input in
      let* lit := pos start (with_val (m0 m) (with_rest rest (with_parsed parsed0 (blank type)))) in
      let* node := alloc lit in
      let* _ := define_parent node prev in
      let* _ := nodes_push prev node in
      ret (Some node)
  end.

(** The function that [pair(type, openRegex, closeRegex)] registers as
    [type + '.open']. *)
Definition pair_open_fn (type : string) (openRegex : RegExp) : M (option id) :=
  let* parsed0 := gets parsed in
  let* start := gets position in
  let* m := match_ openRegex in
  match m with
  | None => ret None
  | Some m =>
      if negb (truthy (m0 m)) then ret None else
      let val := m0 m in
      let* prev := gets prev in
      let* _ := modify (set_specialChars true) in
      let* open_lit := pos start (with_val val (blank (type +:+ ".open"))) in
      let* open := alloc open_lit in
      let* rest := gets input in
      let* lit := pos start (with_nodes [open] (with_rest rest
                    (with_parsed parsed0 (with_prefix (m1 m) (blank type))))) in
      let* node := alloc lit in
      let* _ := define_parent node prev in
      let* _ := define_parent open (Some node) in
      let* _ := push type node in
      let* _ := nodes_push prev node in
      ret (Some node)
  end.

(** The function that [pair] registers as [type + '.close'].  The test is
    the source's call [this.isType(open, type)]: the popped token is passed
    in [isType]'s [type] position and the kind string in its [node]
    position. *)
Definition pair_close_fn (type : string) (closeRegex : RegExp) : M (option id) :=
  let* start := gets position in
  let* m := match_ closeRegex in
  match m with
  | None => ret None
  | Some m =>
      let* open := pop type in
      let* st := gets store in
      if isType st (from_option JNode JUndefined open) (JString type)
      then throw (Error (new_Error ("missing opening " +:+ quoted type)))
      else
        let* rest := gets input in
        let* lit := pos start (with_val (m0 m) (with_suffix (m1 m)
                      (with_rest rest (blank (type +:+ ".close"))))) in
        let* node := alloc lit in
        let* _ := define_parent node open in
        let* _ := nodes_push open node in
        ret (Some node)
  end.

Definition call (fn : handler) : M (option id) :=
  match fn with
  | CaptureFn type regex => capture_fn type regex
  | PairOpenFn type openRegex => pair_open_fn type openRegex
  | PairCloseFn type closeRegex => pair_close_fn type closeRegex
  end.

Definition capture (type : string) (regex : RegExp) (p : Parser) : Parser :=
  set type (CaptureFn type regex) p.

Definition pair (type : string) (openRegex closeRegex : RegExp) (p : Parser) : Parser :=
  set (type +:+ ".close") (PairCloseFn type closeRegex)
    (set (type +:+ ".open") (PairOpenFn type openRegex) p).

(** The value of [this.append || '']. *)
Definition append_or_empty (p : Parser) : string :=
  match append p with
  | Some a => if truthy a then a else ""
  | None => ""
  end.

(** [eos()]. *)
Definition eos : M (option id) :=
  let* start := gets position in
  let* inp := gets input in
  if truthy inp then ret None else
  let* prev := gets prev in
  let* val := gets append_or_empty in
  let* lit := pos start (with_val val (blank "eos")) in
  let* node := alloc lit in
  let* _ := nodes_push prev node in
  ret (Some node).

(** [next()]: one pass over [types], calling [parsers[types[idx]]] for
    every index.  For a type without an entry, what [parsers] inherits
    under that name is called, with no effect on the instance when it
    returns; a call on [undefined], or on an object that has no [call], is
    a [TypeError]. *)
Fixpoint next_from (ts : list string) : M unit :=
  match ts with
  | [] => ret tt
  | t :: ts' =>
      let* fn := gets (get t) in
      match fn with
      | Own fn => let* _ := call fn in next_from ts'
      | FromPrototype (InheritedFunction _ (Returns _)) => next_from ts'
      | _ => throw RuntimeTypeError
      end
  end.

Definition next : M unit :=
  let* ts := gets types in next_from ts.

(** The [while (this.input)] loop of [parse].  [fuel] bounds the number of
    passes; [None] means the bound was reached with the loop still
    running. *)
Fixpoint parse_loop (fuel : nat) (p : Parser) : option (outcome unit) :=
  if negb (truthy (input p)) then Some (Normal tt p) else
  match fuel with
  | O => None
  | S fuel' =>
      let prev_input := input p in
      match next p with
      | Thrown e p' => Some (Thrown e p')
      | Normal _ p' =>
          if truthy (input p') && bool_decide (prev_input = input p')
          then Some (Thrown (Error (new_Error
                 ("no parsers registered for: " +:+ quoted (charAt0 (input p'))))) p')
          else parse_loop fuel' p'
      end
  end.

(** What [parse] does once the loop has ended. *)
Definition parse_end : M id :=
  let* stk := gets stack in
  let* opts := gets options in
  let* _ :=
    (if bool_decide (stk ≠ []) && strict opts then
       let* _ := modify (set_stack (array_pop stk).2) in
       let* st := gets store in
       let* o := gets orig in
       match (array_pop stk).1 ≫= (λ i, st !! i) with
       | None => throw RuntimeTypeError
       | Some node =>
           let* _ := error ("missing opening " +:+ n_type node +:+ ": "
                              +:+ quoted (show o)) in
           throw Undefined
       end
     else ret tt) in
  let* _ := eos in
  gets ast.

(** [parse(input)]. *)
Definition parse (fuel : nat) (str : string) (p : Parser) : option (outcome id) :=
  let p1 := set_input str (set_orig (Some str) p) in
  match parse_loop fuel p1 with
  | None => None
  | Some (Thrown e p2) => Some (Thrown e p2)
  | Some (Normal _ p2) => Some (parse_end p2)
  end.

(** [new Parser(options)]: [bos] is created first, then the root. *)
Definition new_Parser (o : UserOptions) : Parser :=
  let bos_node :=
    with_position {| start_column := 1; end_column := 1 |} None
      (with_val "" (blank "bos")) in
  let root := with_nodes [0%nat] (blank "root") in
  {| options := extend_defaults o;
     input := ""; parsed := ""; column := 1; errors := [];
     parsers := ∅; fns := [];
     bos := 0%nat; ast := 1%nat; nodes := [1%nat];
     types := []; stack := []; count := 0;
     sets := {[ "single" := []; "double" := []; "bracket" := [];
                "brace" := []; "paren" := [] ]};
     orig := None; specialChars := false; append := None;
     store := [bos_node; root] |}.

(** *** Predicates on parser instances used in the statements below *)

(** The positions of the nodes in the store, in order of creation. *)
Definition spans (p : Parser) : list (option Position) := n_position <$> store p.

(** The properties that no handler assigns. *)
Record frame (p p' : Parser) : Prop := {
  frame_options : options p' = options p;
  frame_errors : errors p' = errors p;
  frame_parsers : parsers p' = parsers p;
  frame_fns : fns p' = fns p;
  frame_bos : bos p' = bos p;
  frame_ast : ast p' = ast p;
  frame_nodes : nodes p' = nodes p;
  frame_types : types p' = types p;
  frame_orig : orig p' = orig p;
  frame_append : append p' = append p
}.

(** A relation that holds between the instance before and after every
    call of [c] that returns. *)
Definition rel (R : Parser → Parser → Prop) {A} (c : M A) : Prop :=
  ∀ p a p', c p = Normal a p' → R p p'.

(** The part of a handler that comes after the match: it builds nodes
    with the span from [start] to the cursor, and leaves the cursor. *)
Record built (start : Z) (p p' : Parser) : Prop := {
  built_frame : frame p p';
  built_input : input p' = input p;
  built_parsed : parsed p' = parsed p;
  built_column : column p' = column p;
  built_spans : ∃ k, spans p' = spans p ++
      replicate k (Some {| start_column := start; end_column := column p |})
}.

(** The effect of one call of a handler that returns. *)
Record effect (p p' : Parser) : Prop := {
  effect_frame : frame p p';
  effect_input : ∃ n, input p' = substr (input p) n;
  effect_parsed : ∃ str, parsed p' = parsed p +:+ str;
  effect_column : (column p ≤ column p')%Z;
  effect_spans : ∃ k, spans p' = spans p ++
      replicate k (Some {| start_column := column p; end_column := column p' |})
}.

(** A span is well formed and lies before the cursor [col]. *)
Definition span_ok (col : Z) (o : option Position) : Prop :=
  ∀ x, o = Some x → (start_column x ≤ end_column x ≤ col)%Z.

(** Of two nodes, the one created later starts where the earlier one ends
    or further on, unless both have the same span. *)
Definition ordered (l : list (option Position)) : Prop :=
  ∀ (i j : nat) x y, (i < j)%nat →
    l !! i = Some (Some x) → l !! j = Some (Some y) →
    (end_column x ≤ start_column y)%Z ∨ x = y.

Definition PosInv (p : Parser) : Prop :=
  Forall (span_ok (column p)) (spans p) ∧ ordered (spans p).

(** What any number of handler calls does. *)
Record progress (p p' : Parser) : Prop := {
  progress_frame : frame p p';
  progress_input : ∃ n, input p' = substr (input p) n;
  progress_parsed : ∃ str, parsed p' = parsed p +:+ str;
  progress_column : (column p ≤ column p')%Z;
  progress_PosInv : PosInv p → PosInv p'
}.

(** The exceptions that [c] can throw all satisfy [P]. *)
Definition throws (P : exn → Prop) {A} (c : M A) : Prop :=
  ∀ p e p', c p = Thrown e p' → P e.

(** The node object that [eos()] makes when the input is exhausted. *)
Definition eos_literal (p : Parser) : Node :=
  with_position {| start_column := column p; end_column := column p |} (orig p)
    (with_val (append_or_empty p) (blank "eos")).

(** The containers that are open: those on the stack of some kind. *)
Definition is_open (p : Parser) (i : id) : Prop :=
  ∃ k l, sets p !! k = Some l ∧ i ∈ l.

(** The states of the nesting tracker reached from the empty tracker by
    pushing new tokens (handles grow with the time of creation) and by
    popping a kind whose innermost open container is on top of the
    flattened stack. *)
Inductive nested : Parser → Prop :=
| nested_empty p :
    stack p = [] → (∀ k l, sets p !! k = Some l → l = []) → nested p
| nested_push p type token a p' :
    nested p → (∀ i, i ∈ stack p → (i < token)%nat) →
    push type token p = Normal a p' → nested p'
| nested_pop p type l a p' :
    nested p → sets p !! type = Some l → stack p ≠ [] →
    last l = last (stack p) →
    pop type p = Normal a p' → nested p'.

(** The flattened stack lists the open containers in the order in which
    they were opened, and the stack of kind [k] lists those among them that
    were pushed as [k], in the same order. *)
Definition tracked (f : id → string) (p : Parser) : Prop :=
  StronglySorted lt (stack p)
  ∧ (∀ k l, sets p !! k = Some l → l = filter (λ i, f i = k) (stack p))
  ∧ (∀ i, i ∈ stack p → is_Some (sets p !! f i)).

(** The kind of the node on top of the flattened stack. *)
Definition top_type (p : Parser) : option string :=
  i ← last (stack p); n_type <$> store p !! i.

(** The [nodes] of the node at handle [i]. *)
Definition children (p : Parser) (i : id) : option (list id) :=
  n ← store p !! i; n_nodes n.

(** The kinds of the [nodes] of the node at handle [i]. *)
Definition child_types (p : Parser) (i : id) : option (list string) :=
  n ← store p !! i;
  cs ← n_nodes n;
  mapM (λ c, n_type <$> store p !! c) cs.

(** *** Further predicates on parser instances and on handlers *)

(** The regular expression a handler was created with. *)
Definition handler_regex (fn : handler) : RegExp :=
  match fn with
  | CaptureFn _ regex => regex
  | PairOpenFn _ openRegex => openRegex
  | PairCloseFn _ closeRegex => closeRegex
  end.

(** The instance after [match] has consumed [m[0]]: the effect of
    [updatePosition(m[0], m[0].length)]. *)
Definition matched (m : RegExpMatch) (p : Parser) : Parser :=
  set_input (substr (input p) (String.length (m0 m)))
    (set_parsed (parsed p +:+ m0 m)
       (set_column (column p + Z.of_nat (String.length (m0 m))) p)).

(** The span of a node made for the match [m]: from the column before the
    match to the column after it. *)
Definition span (m : RegExpMatch) (p : Parser) : Position :=
  {| start_column := column p;
     end_column := column p + Z.of_nat (String.length (m0 m)) |}.

(** The node that a [capture] handler makes for the match [m], starting
    from the instance [p]. *)
Definition capture_node (type : string) (m : RegExpMatch) (p : Parser)
    (parent : option id) : Node :=
  with_parent parent
    (with_position (span m p) (orig p)
       (with_val (m0 m)
          (with_rest (substr (input p) (String.length (m0 m)))
             (with_parsed (parsed p) (blank type))))).

(** The two nodes that the open handler of [pair] makes: the open token
    and the container, whose [nodes] start with the token at handle
    [open]. *)
Definition open_token (type : string) (m : RegExpMatch) (p : Parser)
    (parent : option id) : Node :=
  with_parent parent
    (with_position (span m p) (orig p) (with_val (m0 m) (blank (type +:+ ".open")))).

Definition container_node (type : string) (m : RegExpMatch) (p : Parser)
    (open : id) (parent : option id) : Node :=
  with_parent parent
    (with_position (span m p) (orig p)
       (with_nodes [open]
          (with_rest (substr (input p) (String.length (m0 m)))
             (with_parsed (parsed p) (with_prefix (m1 m) (blank type)))))).

(** The node that the close handler of [pair] makes. *)
Definition close_token (type : string) (m : RegExpMatch) (p : Parser)
    (parent : option id) : Node :=
  with_parent parent
    (with_position (span m p) (orig p)
       (with_val (m0 m)
          (with_suffix (m1 m)
             (with_rest (substr (input p) (String.length (m0 m)))
                (blank (type +:+ ".close")))))).

(** The text [str] went from the input to [parsed]: it was appended to
    [parsed], the column advanced by its length, and as many characters
    were dropped from the input. *)
Record moved (str : string) (p p' : Parser) : Prop := {
  moved_parsed : parsed p' = parsed p +:+ str;
  moved_column : column p' = (column p + Z.of_nat (String.length str))%Z;
  moved_input : input p' = substr (input p) (String.length str)
}.

Definition consumed (p p' : Parser) : Prop := ∃ str, moved str p p'.

(** A regular expression that matches at the start of the input only, as
    one written with [^]: [m[0]] is a prefix of the input. *)
Definition anchored (regex : RegExp) : Prop :=
  ∀ s m, regex s = Some m → ∃ rest, s = m0 m +:+ rest.

Definition anchored_table (p : Parser) : Prop :=
  ∀ t fn, parsers p !! t = Some fn → anchored (handler_regex fn).

(** The text that went to [parsed] is the beginning of the input. *)
Definition taken (p p' : Parser) : Prop :=
  ∃ str, moved str p p' ∧ input p = str +:+ input p'.

(** The cursor column counts the characters of [parsed], from 1. *)
Definition in_step (p : Parser) : Prop :=
  column p = (1 + Z.of_nat (String.length (parsed p)))%Z.

(** No registered handler has a regular expression that matches [s]. *)
Definition unmatched (p : Parser) (s : string) : Prop :=
  ∀ t, t ∈ types p → ∃ fn, parsers p !! t = Some fn ∧ handler_regex fn s = None.

(** Calls of [set], in order. *)
Definition register (regs : list (string * handler)) (p : Parser) : Parser :=
  foldl (λ q r, set r.1 r.2 q) p regs.

(** Calls of [capture], in order. *)
Definition captures (caps : list (string * RegExp)) (p : Parser) : Parser :=
  foldl (λ q c, capture c.1 c.2 q) p caps.

(** The kinds that the constructor gives a stack in [sets]. *)
Definition builtin_kinds : list string :=
  ["single"; "double"; "bracket"; "brace"; "paren"].

(** The number of tokens on the stacks of all kinds together. *)
Definition open_total (p : Parser) : nat :=
  map_fold (λ _ l n, (length l + n)%nat) 0%nat (sets p).

(** [count] is the length of the flattened stack, which has as many
    entries as the stacks of all kinds together. *)
Definition balanced (p : Parser) : Prop :=
  count p = Z.of_nat (length (stack p)) ∧ length (stack p) = open_total p.

(** The nesting tracker is as it was. *)
Definition same_tracker (p p' : Parser) : Prop :=
  stack p' = stack p ∧ sets p' = sets p ∧ count p' = count p.

(** A property of the instance that still holds afterwards. *)
Definition keeps (I : Parser → Prop) (p p' : Parser) : Prop := I p → I p'.

(** Every node that has a [parent] is listed in the [nodes] of that
    parent. *)
Definition parent_listed (st : list Node) : Prop :=
  ∀ c n j, st !! c = Some n → n_parent n = Some j →
    ∃ m l, st !! j = Some m ∧ n_nodes m = Some l ∧ c ∈ l.

(** Every entry of a [nodes] array is a node whose [parent] is the owner
    of the array, or a [bos] or [eos] node, which have no [parent]. *)
Definition child_owned (st : list Node) : Prop :=
  ∀ j m l c, st !! j = Some m → n_nodes m = Some l → c ∈ l →
    ∃ n, st !! c = Some n
         ∧ (n_parent n = Some j ∨ (n_parent n = None ∧ n_type n ∈ ["bos"; "eos"])).

Definition linked (p : Parser) : Prop :=
  parent_listed (store p) ∧ child_owned (store p).

(** The [val]s of a list of nodes, joined as [+=] joins them. *)
Definition vals (ns : list Node) : string :=
  foldr (λ n acc, show (n_val n) +:+ acc) "" ns.

(** The node at handle [c] is [n], a node without children whose kind
    satisfies [R]. *)
Definition token_at (R : string → Prop) (st : list Node) (c : id) (n : Node) : Prop :=
  st !! c = Some n ∧ n_nodes n = None ∧ R (n_type n).

(** A tree without containers: no container is open, and the children of
    the root are nodes without children, of kinds that satisfy [R], whose
    [val]s joined are [text]. *)
Definition flat (R : string → Prop) (text : string) (p : Parser) : Prop :=
  stack p = [] ∧ nodes p = [ast p]
  ∧ ∃ root cs ns,
      store p !! ast p = Some root ∧ n_nodes root = Some cs
      ∧ Forall2 (token_at R (store p)) cs ns ∧ vals ns = text.

(** Every registered handler was made by [capture], for a kind that
    satisfies [R]. *)
Definition captures_only (R : string → Prop) (p : Parser) : Prop :=
  ∀ t fn, parsers p !! t = Some fn → ∃ type regex, fn = CaptureFn type regex ∧ R type.

(** An outcome with [f] applied to the instance it carries. *)
Definition on_state {A} (f : Parser → Parser) (r : outcome A) : outcome A :=
  match r with
  | Normal a p => Normal a (f p)
  | Thrown e p => Thrown e (f p)
  end.

(** A call that neither reads nor writes what [f] changes. *)
Definition commutes (f : Parser → Parser) {A} (c : M A) : Prop :=
  ∀ p, c (f p) = on_state f (c p).

(** The text of a node: its [val], or for a container the [val] of the
    first of its [nodes], the open token. *)
Definition text_of (st : list Node) (n : Node) : option string :=
  match n_val n with
  | Some v => Some v
  | None =>
      match n_nodes n with
      | Some (o :: _) => st !! o ≫= n_val
      | _ => None
      end
  end.

(** A node that records [rest] splits [text]: [text] is the node's text
    followed by [rest], after a beginning that is the node's [parsed]
    when it records one. *)
Definition sliced (text : string) (st : list Node) (n : Node) : Prop :=
  ∀ post, n_rest n = Some post →
    ∃ pre v, text_of st n = Some v ∧ text = pre +:+ v +:+ post
             ∧ ∀ q, n_parsed n = Some q → q = pre.

(** The span of a node with a [val] is where the [val] stands in [text],
    columns counted from 1. *)
Definition located (text : string) (n : Node) : Prop :=
  ∀ pos v, n_position n = Some pos → n_val n = Some v →
    ∃ pre post, text = pre +:+ v +:+ post
      ∧ start_column pos = (1 + Z.of_nat (String.length pre))%Z
      ∧ end_column pos = (start_column pos + Z.of_nat (String.length v))%Z.

(** [Q] holds of every node with a handle from [from] on. *)
Definition covers (Q : list Node → Node → Prop) (from : nat) (st : list Node) : Prop :=
  ∀ i n, (from ≤ i)%nat → st !! i = Some n → Q st n.

(** [Q] is not affected by new nodes, nor by a push on a [nodes] array. *)
Definition stable (Q : list Node → Node → Prop) : Prop :=
  (∀ st news n, Q st n → Q (st ++ news) n)
  ∧ (∀ st t n0 l n, st !! t = Some n0 → Q st n → Q (<[t := with_nodes l n0]> st) n)
  ∧ (∀ st n l k, n_nodes n = Some l → Q st n → Q st (with_nodes (l ++ [k]) n)).

(** During [parse]: what is parsed and what is left make up [text], and
    the nodes made so far split it. *)
Definition slicing (text : string) (from : nat) (p : Parser) : Prop :=
  parsed p +:+ input p = text ∧ covers (sliced text) from (store p).

(** The cursor counts [parsed], [append] is not set, and the span of
    every node is where its [val] stands in [parsed]. *)
Definition well_located (p : Parser) : Prop :=
  in_step p ∧ append p = None
  ∧ ∀ i n, store p !! i = Some n → located (parsed p) n.

(** The instance with other [options]. *)
Definition set_options (v : Options) (p : Parser) : Parser :=
  mkParser v (input p) (parsed p) (column p) (errors p) (parsers p) (fns p)
    (bos p) (ast p) (nodes p) (types p) (stack p) (count p) (sets p) (orig p)
    (specialChars p) (append p) (store p).

(** The instance with [options] and [fns] replaced, by [go] and [gf] of
    what they were. *)
Definition tweak (go : Options → Options) (gf : list handler → list handler)
    (p : Parser) : Parser :=
  set_options (go (options p)) (set_fns (gf (fns p)) p).

End Extglob.

(** ** The snapdragon parser: middleware registered with [use] *)

Module Snapdragon.

(** Modelled from the spec: the [Position] class of [./position], which is
    not among the sources: the [start] snapshot, the [end] taken from the
    parser's cursor when the node is made, and the source label. *)
Record Position := {
  start_line : Z; start_column : Z;
  end_line : Z; end_column : Z;
  source_label : string
}.

(** The nodes that middleware returns. *)
Record Node := {
  n_type : string;
  n_val : option string;
  n_position : option Position
}.

(** The values a caller may pass where a string is expected. *)
Inductive value :=
| VUndefined
| VNull
| VBoolean (b : bool)
| VNumber (z : Z)
| VString (s : string)
| VObject.

Definition typeof (v : value) : string :=
  match v with
  | VUndefined => "undefined"
  | VNull => "object"
  | VBoolean _ => "boolean"
  | VNumber _ => "number"
  | VString _ => "string"
  | VObject => "object"
  end.

(** The data properties of the instance.  The function tables [parsers]
    and [fns] are kept apart in [Parser], so that middleware, which runs
    with the instance as [this], is a function of these properties. *)
Record State := mkState {
  source : string;
  original : string;
  parsed : string;
  input : string;
  errors : list string;
  nodes : list Node;
  sets : gmap string (list Node);
  lineno : Z;
  column : Z
}.

Definition set_original (v : string) (s : State) : State :=
  mkState (source s) v (parsed s) (input s) (errors s) (nodes s) (sets s)
    (lineno s) (column s).
Definition set_parsed (v : string) (s : State) : State :=
  mkState (source s) (original s) v (input s) (errors s) (nodes s) (sets s)
    (lineno s) (column s).
Definition set_input (v : string) (s : State) : State :=
  mkState (source s) (original s) (parsed s) v (errors s) (nodes s) (sets s)
    (lineno s) (column s).
Definition set_nodes (v : list Node) (s : State) : State :=
  mkState (source s) (original s) (parsed s) (input s) (errors s) v (sets s)
    (lineno s) (column s).
Definition set_lineno (v : Z) (s : State) : State :=
  mkState (source s) (original s) (parsed s) (input s) (errors s) (nodes s)
    (sets s) v (column s).
Definition set_column (v : Z) (s : State) : State :=
  mkState (source s) (original s) (parsed s) (input s) (errors s) (nodes s)
    (sets s) (lineno s) v.

(** What a call of a middleware function does: it returns a value, a node
    when truthy, or throws an error with a [message]. *)
Inductive fn_result :=
| FnReturn (node : option Node) (s : State)
| FnThrow (message : string) (s : State).

(** [fn.call(this, this.input, idx)]. *)
Definition middleware := string → nat → State → fn_result.

Record Parser := mkP {
  state : State;
  parsers : gmap string middleware;
  fns : list middleware
}.

(** [new Parser(options)], with [options.source] defaulting to ['string']. *)
Definition new_Parser (src : option string) : Parser :=
  {| state := {| source := default "string" src;
                 original := ""; parsed := ""; input := ""; errors := [];
                 nodes := [];
                 sets := {[ "brackets" := []; "braces" := []; "parens" := [] ]};
                 lineno := 1; column := 1 |};
     parsers := ∅; fns := [] |}.

(** [set(name, fn)] for a string [name] and a function [fn]. *)
Definition set (name : string) (fn : middleware) (p : Parser) : Parser :=
  mkP (state p) (<[name := fn]> (parsers p)) (fns p).

Definition get (name : string) (p : Parser) : property middleware :=
  read (parsers p) name.

Definition use (fn : middleware) (p : Parser) : Parser :=
  mkP (state p) (parsers p) (fns p ++ [fn]).

(** [isInside(name)]: [this.sets[name].length > 0]; [None] is the
    [TypeError] of reading [length] of [undefined]. *)
Definition isInside (name : string) (s : State) : option bool :=
  match read (sets s) name with
  | Own l => Some (bool_decide (l ≠ []))
  | FromPrototype (InheritedFunction len _) => Some (bool_decide (len ≠ 0%nat))
  | FromPrototype InheritedObject => Some false
  | Missing => None
  end.

(** [position()]: the snapshot, and the closure applied to a node. *)
Definition position (s : State) : Z * Z := (lineno s, column s).

Definition pos (start : Z * Z) (n : Node) (s : State) : Node :=
  {| n_type := n_type n; n_val := n_val n;
     n_position := Some {| start_line := start.1; start_column := start.2;
                         end_line := lineno s; end_column := column s;
                         source_label := source s |} |}.

(** [updatePosition(str, len)]. *)
Definition updatePosition (str : string) (len : Z) (s : State) : State :=
  let lines := count_newlines str in
  let s1 := if bool_decide (lines ≠ 0%nat)
            then set_lineno (lineno s + Z.of_nat lines) s else s in
  let i := lastIndexOf_newline str in
  set_column (if bool_decide (Z.lnot i ≠ 0)%Z then len - i else column s1 + len)%Z s1.

(** [advance(str)]. *)
Definition advance (str : string) (s : State) : State :=
  let len := String.length str in
  let s1 := set_parsed (parsed s +:+ str) s in
  let s2 := updatePosition str (Z.of_nat len) s1 in
  set_input (substr (input s2) len) s2.

Definition match_ (re : RegExp) (s : State) : option RegExpMatch * State :=
  match re (input s) with
  | Some m => (Some m, advance (m0 m) s)
  | None => (None, s)
  end.

Inductive exn (thrown : Type) :=
| TypeError (message : string)
| Reported (msg : string) (v : thrown).
Arguments TypeError {thrown} message.
Arguments Reported {thrown} msg v.

Inductive outcome (thrown A : Type) :=
| Normal (a : A) (s : State)
| Thrown (e : exn thrown) (s : State).
Arguments Normal {thrown A} a s.
Arguments Thrown {thrown A} e s.

Section Engine.

(** The error reporter [this.error = error(this)] comes from [./error],
    which is not among the sources.  It is taken as given: [error msg s] is
    the value that the statement [throw this.error(msg)] ends up throwing
    (thrown by the reporter, or returned by it and thrown by the
    statement) and the instance afterwards. *)
Variable thrown : Type.
Variable error : string → State → thrown * State.

(** [run()], from index [idx] on. *)
Fixpoint run_from (fs : list middleware) (idx : nat) (s : State)
  : outcome thrown (option Node) :=
  match fs with
  | [] => Normal None s
  | fn :: fs' =>
      match fn (input s) idx s with
      | FnReturn (Some node) s' => Normal (Some node) s'
      | FnReturn None s' => run_from fs' (S idx) s'
      | FnThrow message s' =>
          let r := error message s' in Thrown (Reported message r.1) r.2
      end
  end.

Definition run (fs : list middleware) (s : State) : outcome thrown (option Node) :=
  run_from fs 0 s.

(** The [while] loop of [parse]; [None] when [fuel] iterations did not
    end it. *)
Fixpoint parse_loop (fuel : nat) (fs : list middleware) (s : State)
  : option (outcome thrown unit) :=
  if bool_decide (String.length (input s) = 0%nat) then Some (Normal tt s) else
  match fuel with
  | O => None
  | S fuel' =>
      match run fs s with
      | Thrown e s' => Some (Thrown e s')
      | Normal None s' => Some (Normal tt s')
      | Normal (Some node) s' =>
          parse_loop fuel' fs (set_nodes (nodes s' ++ [node]) s')
      end
  end.

(** [parse(input)]; the instance it returns is the state of the outcome. *)
Definition parse (fuel : nat) (inp : value) (p : Parser)
  : option (outcome thrown unit) :=
  if bool_decide (typeof inp ≠ "string")
  then Some (Thrown (TypeError "expected a string") (state p))
  else
    let str := match inp with VString str => str | _ => "" end in
    let s1 := set_original (original (state p) +:+ str) (state p) in
    let s2 := set_input (input s1 +:+ str) s1 in
    parse_loop fuel (fns p) s2.

End Engine.

Definition state_of {thrown A} (r : outcome thrown A) : State :=
  match r with Normal _ s => s | Thrown _ s => s end.

(** The same instance, with its data properties as a call left them. *)
Definition with_state (s : State) (p : Parser) : Parser :=
  mkP s (parsers p) (fns p).

(** A middleware function that never assigns [original]. *)
Definition keeps_original (fn : middleware) : Prop :=
  ∀ inp idx s,
    original (match fn inp idx s with FnReturn _ s' => s' | FnThrow _ s' => s' end)
    = original s.

(** A position does not precede another: lines first, then columns. *)
Definition pos_le (a b : Z * Z) : Prop :=
  (a.1 < b.1 ∨ (a.1 = b.1 ∧ a.2 ≤ b.2))%Z.

(** A string without a newline. *)
Definition no_newline (s : string) : Prop := count_newlines s = 0%nat.

(** The line and the column of the end of [text], counted from line 1,
    column 1. *)
Definition cursor_of (text : string) : Z * Z :=
  (1 + Z.of_nat (count_newlines text),
   Z.of_nat (String.length text) - lastIndexOf_newline text)%Z.

(** The cursor is at the end of the parsed text. *)
Definition in_sync (s : State) : Prop := position s = cursor_of (parsed s).

(** The instance after a call of a middleware function. *)
Definition after (r : fn_result) : State :=
  match r with FnReturn _ s => s | FnThrow _ s => s end.

(** A middleware function that leaves the cursor at the end of the parsed
    text, as one that reads through [match] does. *)
Definition keeps_sync (fn : middleware) : Prop :=
  ∀ inp idx s, in_sync s → in_sync (after (fn inp idx s)).



End Snapdragon.

(** ** The renderer: [src/snapdragon/lib/renderer.js] *)

Module Renderer.

(** The AST as the renderer reads it: [type], [val] and [nodes] of every
    node, an absent property being [None]. *)
#[warnings="-register-all"]
Inductive Node :=
| mkNode (type : string) (val : option string) (nodes : option (list Node)).

Definition n_type (n : Node) : string := let 'mkNode t _ _ := n in t.
Definition n_val (n : Node) : option string := let 'mkNode _ v _ := n in v.
Definition n_nodes (n : Node) : option (list Node) := let 'mkNode _ _ c := n in c.

(** The data properties of the instance; the [renderers] table is kept
    apart, render functions being functions of these properties. *)
Record State := mkState {
  rendered : string;
  errors : list string;
  ast : option Node;
  parsingErrors : list string
}.

Definition set_rendered (v : string) (s : State) : State :=
  mkState v (errors s) (ast s) (parsingErrors s).
Definition set_ast (a : Node) (errs : list string) (s : State) : State :=
  mkState (rendered s) (errors s) (Some a) errs.

Definition new_Renderer : State :=
  {| rendered := ""; errors := []; ast := None; parsingErrors := [] |}.

(** What a [throw] carries: the outcome of [throw this.error(msg)]; what a
    render function throws by itself; a runtime [TypeError]; the engine's
    [RangeError] when calls nest deeper than it allows. *)
Inductive exn (thrown : Type) :=
| Reported (msg : string) (v : thrown)
| UserError (message : string)
| RuntimeTypeError
| RangeError.
Arguments Reported {thrown} msg v.
Arguments UserError {thrown} message.
Arguments RuntimeTypeError {thrown}.
Arguments RangeError {thrown}.

Inductive outcome (thrown A : Type) :=
| Normal (a : A) (s : State)
| Thrown (e : exn thrown) (s : State).
Arguments Normal {thrown A} a s.
Arguments Thrown {thrown A} e s.

Definition state_of {thrown A} (r : outcome thrown A) : State :=
  match r with Normal _ s => s | Thrown _ s => s end.

Section Engine.

(** The error reporter [this.error = error(this)] of [./error], which is
    not among the sources, taken as given: [error msg s] is the value that
    [throw this.error(msg)] ends up throwing and the instance afterwards. *)
Variable thrown : Type.
Variable error : string → State → thrown * State.

Definition R (A : Type) := State → outcome thrown A.

(** The methods of [this] that a render function may call.  [mapVisit]
    may be handed [undefined] in place of an array, as in
    [this.mapVisit(node.nodes)] for a node without [nodes]. *)
Record This := {
  this_emit : jsv → jsv;
  this_visit : Node → list Node → nat → R jsv;
  this_mapVisit : option (list Node) → R string
}.

(** [fn.call(this, node, nodes, i)]. *)
Definition render_fn := This → Node → list Node → nat → R jsv.

Variable renderers : gmap string render_fn.

(** [set(name, fn)] on a table of render functions. *)
Definition set (name : string) (fn : render_fn) (rs : gmap string render_fn)
  : gmap string render_fn := <[name := fn]> rs.

Definition emit (str : jsv) : jsv := str.

Definition unregistered (n : Node) : string :=
  "renderer " +:+ quoted (n_type n)
     +:+ " is not registered. Failed to render string "
     +:+ quoted (show (n_val n)).

(** The loop of [mapVisit(nodes)] from index [i] on, over a given [visit];
    [all] is the whole array, passed to every [visit]. *)
Fixpoint mapVisit_from (visit : Node → list Node → nat → R jsv)
    (all rest : list Node) (i : nat) (buf : string) : R string :=
  match rest with
  | [] => λ s, Normal buf s
  | n :: rest' =>
      λ s, match visit n all i s with
           | Normal v s' => mapVisit_from visit all rest' (S i) (buf +:+ to_str v) s'
           | Thrown e s' => Thrown e s'
           end
  end.

(** [mapVisit(nodes)], over a given [visit]; reading [length] of
    [undefined] is a [TypeError]. *)
Definition mapVisit_with (visit : Node → list Node → nat → R jsv)
    (nodes : option (list Node)) : R string :=
  match nodes with
  | None => λ s, Thrown RuntimeTypeError s
  | Some ns =>
      λ s, match mapVisit_from visit ns ns 0 "" s with
           | Normal buf s' => Normal buf (set_rendered (rendered s' +:+ buf) s')
           | Thrown e s' => Thrown e s'
           end
  end.

(** [visit(node, nodes, i)]; a render function may nest at most [depth]
    further calls of [visit].  [this.renderers[node.type]] is the render
    function registered for the kind, or else what the table inherits
    under that name: a built-in function passes the [typeof] test and is
    called in place of a render function. *)
Fixpoint visit (depth : nat) (node : Node) (nodes : list Node) (i : nat)
  : R jsv :=
  match (read renderers (n_type node) : property render_fn) with
  | FromPrototype (InheritedFunction _ (Returns v)) =>
      λ s, let _ := emit v in Normal v s
  | FromPrototype (InheritedFunction _ Raises) => λ s, Thrown RuntimeTypeError s
  | FromPrototype InheritedObject | Missing =>
      λ s, let r := error (unregistered node) s in
           Thrown (Reported (unregistered node) r.1) r.2
  | Own fn =>
      match depth with
      | O => λ s, Thrown RangeError s
      | S depth' =>
          λ s, match fn {| this_emit := emit;
                           this_visit := visit depth';
                           this_mapVisit := mapVisit_with (visit depth') |}
                      node nodes i s with
               | Normal str s' => let _ := emit str in Normal str s'
               | Thrown e s' => Thrown e s'
               end
      end
  end.

Definition mapVisit (depth : nat) (nodes : option (list Node)) : R string :=
  mapVisit_with (visit depth) nodes.

(** [render(ast, options)] with [sourcemap] off; [errs] is [ast.errors]. *)
Definition render (depth : nat) (root : Node) (errs : list string) : R unit :=
  λ s, match mapVisit depth (n_nodes root) (set_ast root errs s) with
       | Normal _ s' => Normal tt s'
       | Thrown e s' => Thrown e s'
       end.

End Engine.

(** Render functions that reproduce the source text.
    [function(node) { return this.emit(node.val); }]: for a node without
    [val] it returns [undefined]. *)
Definition emit_val {thrown} : render_fn thrown :=
  λ this node _ _ s, Normal (this_emit _ this (of_val (n_val node))) s.

(** [function(node) { return this.mapVisit(node.nodes); }]. *)
Definition map_children {thrown} : render_fn thrown :=
  λ this node _ _ s,
    match this_mapVisit _ this (n_nodes node) s with
    | Normal buf s' => Normal (VStr buf) s'
    | Thrown e s' => Thrown e s'
    end.

(** A container that renders its [nodes] by visiting them one by one:
    [function(node) { var buf = ''; for (var i = 0; i < node.nodes.length;
    i++) buf += this.visit(node.nodes[i], node.nodes, i); return buf; }]. *)
Definition visit_children {thrown} : render_fn thrown :=
  λ this node _ _ s,
    match n_nodes node with
    | None => Thrown RuntimeTypeError s
    | Some ns =>
        match mapVisit_from thrown (this_visit _ this) ns ns 0 "" s with
        | Normal buf s' => Normal (VStr buf) s'
        | Thrown e s' => Thrown e s'
        end
    end.

(** *** Predicates used in the statements below *)

Section Registered.
Context {thrown : Type}.
Variable renderers : gmap string (render_fn thrown).

(** Every node of the tree has a kind with a registered render function. *)
Fixpoint registered (n : Node) : bool :=
  match n with
  | mkNode type _ nodes =>
      bool_decide (is_Some (renderers !! type))
      && match nodes with
         | None => true
         | Some ns => forallb registered ns
         end
  end.

(** An outcome that is not an unregistered-renderer error. *)
Definition quiet {A} (r : outcome thrown A) : Prop :=
  ∀ n v s, r ≠ Thrown (Reported (unregistered n) v) s.

(** A render function that raises an unregistered-renderer error only when
    a call it makes to [visit] or [mapVisit] does, and makes such calls on
    trees of registered kinds when it is given such trees. *)
Definition faithful (fn : render_fn thrown) : Prop :=
  ∀ this node nodes i s,
    (∀ n ns j s', registered n = true → forallb registered ns = true →
                  quiet (this_visit _ this n ns j s')) →
    (∀ o s', (∀ ns, o = Some ns → forallb registered ns = true) →
             quiet (this_mapVisit _ this o s')) →
    registered node = true → forallb registered nodes = true →
    quiet (fn this node nodes i s).

End Registered.

(** A render function that returns a value computed from the node and
    leaves the instance as it is, such as
    [function(node) { return this.emit(node.val) }]. *)
Definition leaf {thrown} (out : Node → jsv) (fn : render_fn thrown) : Prop :=
  ∀ this node nodes i s,
    (∀ str, this_emit _ this str = str) →
    fn this node nodes i s = Normal (out node) s.

(** The values of a list of nodes, joined in order as strings. *)
Definition joined (out : Node → jsv) (l : list Node) : string :=
  foldr (λ n acc, to_str (out n) +:+ acc) "" l.

End Renderer.

(** ** From the parser's store to the tree the renderer walks *)

Module Pipeline.

(** The object graph below handle [i], unfolded to at most [fuel] levels. *)
Fixpoint to_tree (fuel : nat) (st : list Extglob.Node) (i : Extglob.id)
  : option Renderer.Node :=
  match fuel with
  | O => None
  | S fuel' =>
      n ← st !! i;
      match Extglob.n_nodes n with
      | None => Some (Renderer.mkNode (Extglob.n_type n) (Extglob.n_val n) None)
      | Some cs =>
          ts ← mapM (to_tree fuel' st) cs;
          Some (Renderer.mkNode (Extglob.n_type n) (Extglob.n_val n) (Some ts))
      end
  end.

(** The AST that [parse] returned, as a tree. *)
Definition ast_tree (p : Extglob.Parser) : option Renderer.Node :=
  to_tree (length (Extglob.store p)) (Extglob.store p) (Extglob.ast p).

(** A node without children, as the renderer reads it. *)
Definition leaf_of (n : Extglob.Node) : Renderer.Node :=
  Renderer.mkNode (Extglob.n_type n) (Extglob.n_val n) None.

End Pipeline.

(** ** Example grammars *)

Module Fixtures.

(** [/^lit/] for a literal [lit]. *)
Definition re_lit (lit : string) : RegExp :=
  λ s, if String.prefix lit s then Some {| m0 := lit; m1 := None |} else None.

Fixpoint take_while (f : ascii → bool) (s : string) : string :=
  match s with
  | String c s' => if f c then String c (take_while f s') else EmptyString
  | EmptyString => EmptyString
  end.

(** [/^[class]+/]: the longest non-empty run of characters of a class. *)
Definition re_class_plus (f : ascii → bool) : RegExp :=
  λ s, match take_while f s with
       | EmptyString => None
       | m => Some {| m0 := m; m1 := None |}
       end.

(** [/^[^(){}]+/]. *)
Definition is_text (c : ascii) : bool :=
  negb (bool_decide (c ∈ ["("; ")"; "{"; "}"]%char)).

Definition opts (sil str : bool) : Extglob.UserOptions :=
  {| Extglob.u_source := None; Extglob.u_silent := sil; Extglob.u_strict := str |}.

(** An extglob parser with [paren] and [brace] pairs and a [text] capture. *)
Definition demo (sil str : bool) : Extglob.Parser :=
  Extglob.capture "text" (re_class_plus is_text)
    (Extglob.pair "brace" (re_lit "{") (re_lit "}")
       (Extglob.pair "paren" (re_lit "(") (re_lit ")")
          (Extglob.new_Parser (opts sil str)))).

(** An extglob parser with the [paren] pair only. *)
Definition parens_only (sil str : bool) : Extglob.Parser :=
  Extglob.pair "paren" (re_lit "(") (re_lit ")")
    (Extglob.new_Parser (opts sil str)).

(** Renderers for [demo] that give the source text back: tokens emit their
    [val], containers render their children with [mapVisit]. *)
Definition verbatim {thrown} : gmap string (Renderer.render_fn thrown) :=
  {[ "bos" := Renderer.emit_val; "eos" := Renderer.emit_val;
     "text" := Renderer.emit_val;
     "paren.open" := Renderer.emit_val; "paren.close" := Renderer.emit_val;
     "brace.open" := Renderer.emit_val; "brace.close" := Renderer.emit_val;
     "paren" := Renderer.map_children; "brace" := Renderer.map_children ]}.

(** The same, with containers that visit their children one by one. *)
Definition verbatim_visit {thrown} : gmap string (Renderer.render_fn thrown) :=
  <["paren" := Renderer.visit_children]>
    (<["brace" := Renderer.visit_children]> verbatim).


(** An error reporter that throws the message it is given. *)
Definition throw_message {S} : string → S → string * S := λ msg s, (msg, s).

(** [render(parse(str))] for [demo]: the [rendered] text of the renderer
    that [render] returns. *)
Definition roundtrip (rs : gmap string (Renderer.render_fn string))
    (fuel : nat) (str : string) : option string :=
  r ← Extglob.parse fuel str (demo false false);
  match r with
  | Extglob.Thrown _ _ => None
  | Extglob.Normal _ p =>
      t ← Pipeline.ast_tree p;
      match Renderer.render string throw_message rs fuel t [] Renderer.new_Renderer with
      | Renderer.Normal _ s => Some (Renderer.rendered s)
      | Renderer.Thrown _ _ => None
      end
  end.

(** What the call of [mapVisit] that [render] makes on the children of the
    root returns, which [render] drops. *)
Definition returned (rs : gmap string (Renderer.render_fn string))
    (fuel : nat) (str : string) : option string :=
  r ← Extglob.parse fuel str (demo false false);
  match r with
  | Extglob.Thrown _ _ => None
  | Extglob.Normal _ p =>
      t ← Pipeline.ast_tree p;
      match Renderer.mapVisit string throw_message rs fuel (Renderer.n_nodes t)
              Renderer.new_Renderer with
      | Renderer.Normal buf _ => Some buf
      | Renderer.Thrown _ _ => None
      end
  end.

(** The two stacks of the tracker after [parse(str)] for [demo]. *)
Definition tracker_after (fuel : nat) (str : string)
  : option (list nat * gmap string (list nat)) :=
  r ← Extglob.parse fuel str (demo false false);
  match r with
  | Extglob.Thrown _ _ => None
  | Extglob.Normal _ p => Some (Extglob.stack p, Extglob.sets p)
  end.

(** The kinds of [demo] that are containers, and those that are tokens. *)
Definition is_container (type : string) : bool :=
  bool_decide (type ∈ ["paren"; "brace"]).

Definition is_token (type : string) : bool :=
  bool_decide (type ∈ ["bos"; "eos"; "text"; "paren.open"; "paren.close";
                       "brace.open"; "brace.close"]).

(** A tree whose kinds are kinds of [demo] and whose containers have
    [nodes]. *)
Fixpoint kinds_ok (n : Renderer.Node) : bool :=
  match n with
  | Renderer.mkNode type _ nodes =>
      if is_container type
      then match nodes with
           | Some l => forallb kinds_ok l
           | None => false
           end
      else is_token type
  end.

(** The source text of a tree: the [val] of its tokens as [+=] appends
    it, in document order. *)
Fixpoint text (n : Renderer.Node) : string :=
  match n with
  | Renderer.mkNode type val nodes =>
      if is_container type
      then match nodes with
           | Some l => (fix text_list (l : list Renderer.Node) : string :=
                          match l with
                          | [] => ""
                          | m :: l' => text m +:+ text_list l'
                          end) l
           | None => ""
           end
      else show val
  end.

Definition text_list (l : list Renderer.Node) : string :=
  foldr (λ m acc, text m +:+ acc) "" l.

(** What rendering a tree with [verbatim] appends to [rendered] through
    the calls of [mapVisit] made by the containers in it. *)
Fixpoint extra (n : Renderer.Node) : string :=
  match n with
  | Renderer.mkNode type val nodes =>
      if is_container type
      then match nodes with
           | Some l => (fix extra_list (l : list Renderer.Node) : string :=
                          match l with
                          | [] => ""
                          | m :: l' => extra m +:+ extra_list l'
                          end) l
                       +:+ text_list l
           | None => ""
           end
      else ""
  end.

Definition extra_list (l : list Renderer.Node) : string :=
  foldr (λ m acc, extra m +:+ acc) "" l.

(** The number of nested calls of [visit] that rendering a tree takes. *)
Fixpoint need (n : Renderer.Node) : nat :=
  match n with
  | Renderer.mkNode type _ nodes =>
      match nodes with
      | Some l => S (foldr (λ m acc, Nat.max (need m) acc) 0%nat l)
      | None => 1%nat
      end
  end.

Definition need_list (l : list Renderer.Node) : nat :=
  foldr (λ m acc, Nat.max (need m) acc) 0%nat l.

(** A middleware function that matches nothing. *)
Definition no_match : Snapdragon.middleware :=
  λ _ _ s, Snapdragon.FnReturn None s.

(** A middleware function that returns a node and consumes nothing. *)
Definition stuck : Snapdragon.middleware :=
  λ _ _ s, Snapdragon.FnReturn
             (Some {| Snapdragon.n_type := "dot"; Snapdragon.n_val := None;
                      Snapdragon.n_position := None |}) s.

(** [function() { var pos = this.position(); var m = this.match(/^./);
    if (!m) return; return pos({type: 'char', val: m[0]}); }], with [.]
    read as any character. *)
Definition any_char : Snapdragon.middleware :=
  λ _ _ s,
    let start := Snapdragon.position s in
    match Snapdragon.match_ (λ inp, match inp with
                                    | String c _ => Some {| m0 := String c ""; m1 := None |}
                                    | EmptyString => None
                                    end) s with
    | (Some m, s') =>
        Snapdragon.FnReturn
          (Some (Snapdragon.pos start
                   {| Snapdragon.n_type := "char"; Snapdragon.n_val := Some (m0 m);
                      Snapdragon.n_position := None |} s')) s'
    | (None, s') => Snapdragon.FnReturn None s'
    end.

End Fixtures.

(** * Facts about the string primitives *)

Module JsFacts.

Lemma append_empty_r s : s +:+ "" = s.
Proof.
  induction s as [|c s IH]; [done|].
  unfold String.append; fold String.append. by rewrite IH.
Qed.

Lemma append_assoc s1 s2 s3 : (s1 +:+ s2) +:+ s3 = s1 +:+ (s2 +:+ s3).
Proof.
  induction s1 as [|c s1 IH]; [done|].
  unfold String.append; fold String.append. by rewrite IH.
Qed.

Lemma substr_0 s : substr s 0 = s.
Proof. by destruct s. Qed.

Lemma substr_empty n : substr "" n = "".
Proof. by destruct n. Qed.

Lemma substr_substr s n m : substr (substr s n) m = substr s (n + m).
Proof.
  revert s; induction n as [|n IH]; intros s; simpl.
  - by rewrite substr_0.
  - destruct s as [|c s]; [by rewrite substr_empty|]. apply IH.
Qed.

Lemma substr_length s n : String.length (substr s n) = (String.length s - n)%nat.
Proof.
  revert s; induction n as [|n IH]; intros [|c s]; simpl; auto with lia.
Qed.

Lemma substr_shorter s n :
  substr s n ≠ s → (String.length (substr s n) < String.length s)%nat.
Proof.
  intros Hne. rewrite substr_length.
  destruct n as [|n]; [by rewrite substr_0 in Hne|].
  destruct s as [|c s]; [done|]. simpl. lia.
Qed.

Lemma truthy_spec s : truthy s = true ↔ s ≠ "".
Proof. by destruct s. Qed.

Lemma truthy_false s : truthy s = false ↔ s = "".
Proof. by destruct s. Qed.

End JsFacts.

(** * The extglob parser *)

Module ExtglobFacts.
Import Extglob JsFacts.

(** ** Composing the effects of calls *)

Lemma frame_refl p : frame p p.
Proof. by split. Qed.

Lemma frame_trans p q r : frame p q → frame q r → frame p r.
Proof. intros [] []; split; congruence. Qed.

Section Rel.
Context (R : Parser → Parser → Prop) `{!Reflexive R} `{!Transitive R}.

Lemma rel_ret {A} (a : A) : rel R (ret a).
Proof. intros p a' p' [= _ <-]. reflexivity. Qed.

Lemma rel_throw {A} e : rel R (throw (A := A) e).
Proof. intros p a' p' [=]. Qed.

Lemma rel_gets {A} (f : Parser → A) : rel R (gets f).
Proof. intros p a' p' [= _ <-]. reflexivity. Qed.

Lemma rel_modify f : (∀ p, R p (f p)) → rel R (modify f).
Proof. intros H p a' p' [= _ <-]. apply H. Qed.

Lemma rel_bind {A B} (c : M A) (k : A → M B) :
  rel R c → (∀ a, rel R (k a)) → rel R (bind c k).
Proof.
  intros Hc Hk p b p'. unfold bind. destruct (c p) as [a q|] eqn:E; [|done].
  intros H. etransitivity; [by eapply Hc|by eapply Hk].
Qed.

End Rel.

Lemma rel_elim R {A} (c : M A) p a p' : rel R c → c p = Normal a p' → R p p'.
Proof. intros H. apply H. Qed.

Lemma bind_gets {A B} (f : Parser → A) (k : A → M B) p :
  bind (gets f) k p = k (f p) p.
Proof. done. Qed.

Lemma bind_inv {A B} (c : M A) (k : A → M B) p b p' :
  bind c k p = Normal b p' → ∃ a q, c p = Normal a q ∧ k a q = Normal b p'.
Proof. unfold bind. destruct (c p) as [a q|]; [eauto|done]. Qed.

(** ** What the handlers do to the instance *)

#[global] Instance built_refl start : Reflexive (built start).
Proof.
  intros p. split; try done. exists 0%nat. by rewrite app_nil_r.
Qed.

#[global] Instance built_trans start : Transitive (built start).
Proof.
  intros p q r [F1 I1 P1 C1 [k1 S1]] [F2 I2 P2 C2 [k2 S2]].
  split; try congruence.
  - by eapply frame_trans.
  - exists (k1 + k2)%nat. rewrite S2, S1, C1, replicate_add. by rewrite app_assoc.
Qed.

Lemma spans_insert_nodes (st : list Node) (i : nat) n l :
  st !! i = Some n →
  n_position <$> <[i := with_nodes l n]> st = n_position <$> st.
Proof.
  intros H. rewrite list_fmap_insert. simpl. apply list_insert_id.
  by rewrite list_lookup_fmap, H.
Qed.

Lemma spans_insert_parent (st : list Node) (i : nat) n l :
  st !! i = Some n →
  n_position <$> <[i := with_parent l n]> st = n_position <$> st.
Proof.
  intros H. rewrite list_fmap_insert. simpl. apply list_insert_id.
  by rewrite list_lookup_fmap, H.
Qed.

Lemma built_same start p p' :
  frame p p' → input p' = input p → parsed p' = parsed p →
  column p' = column p → spans p' = spans p → built start p p'.
Proof.
  intros. split; try done. exists 0%nat. by rewrite app_nil_r.
Qed.

Lemma built_define_parent start node parent :
  rel (built start) (define_parent node parent).
Proof.
  intros p a p'. unfold define_parent.
  destruct (store p !! node) as [n|] eqn:E; [|done]. intros [= <- <-].
  apply built_same; try done. unfold spans; simpl. by apply spans_insert_parent.
Qed.

Lemma built_nodes_push start target child :
  rel (built start) (nodes_push target child).
Proof.
  intros p a p'. unfold nodes_push.
  destruct target as [t|]; [|done].
  destruct (store p !! t) as [n|] eqn:E; [|done].
  destruct (n_nodes n) eqn:E'; [|done]. intros [= <- <-].
  apply built_same; try done. unfold spans; simpl. by apply spans_insert_nodes.
Qed.

Lemma built_push start type token : rel (built start) (push type token).
Proof.
  intros p a p'. unfold push, bind, modify. simpl.
  destruct (sets p !! type) eqn:E; [|done]. intros [= <- <-].
  by apply built_same.
Qed.

Lemma built_pop start type : rel (built start) (pop type).
Proof.
  intros p a p'. unfold pop, bind, modify. simpl.
  destruct (sets p !! type) eqn:E; [|done]. intros [= <- <-].
  by apply built_same.
Qed.

Lemma built_pos_alloc {A} start n (k : id → M A) :
  (∀ i, rel (built start) (k i)) →
  rel (built start) (bind (pos start n) (λ lit, bind (alloc lit) k)).
Proof.
  intros Hk p a p'. unfold bind at 1 2, pos, alloc.
  intros H. etransitivity; [|by eapply Hk].
  split; try done. exists 1%nat. unfold spans; simpl. by rewrite fmap_app.
Qed.

Lemma built_bind {A B} start (c : M A) (k : A → M B) :
  rel (built start) c → (∀ a, rel (built start) (k a)) →
  rel (built start) (bind c k).
Proof. apply rel_bind; apply _. Qed.

Lemma built_ret {A} start (a : A) : rel (built start) (ret a).
Proof. apply rel_ret; apply _. Qed.

Lemma built_gets {A} start (f : Parser → A) : rel (built start) (gets f).
Proof. apply rel_gets; apply _. Qed.

Ltac built_step :=
  lazymatch goal with
  | |- rel _ (bind (pos _ _) _) => apply built_pos_alloc; intros ?
  | |- rel _ (bind _ _) => apply built_bind; [|intros ?]
  | |- rel _ (ret _) => apply built_ret
  | |- rel _ (throw _) => apply rel_throw
  | |- rel _ (gets _) => apply built_gets
  | |- rel _ (modify _) => apply rel_modify; intros ?; by apply built_same
  | |- rel _ (push _ _) => apply built_push
  | |- rel _ (pop _) => apply built_pop
  | |- rel _ (define_parent _ _) => apply built_define_parent
  | |- rel _ (nodes_push _ _) => apply built_nodes_push
  | |- rel _ (match ?x with _ => _ end) => destruct x
  end.

Lemma match_inv regex p m p1 :
  match_ regex p = Normal m p1 →
  column p1 = (column p + Z.of_nat (from_option (λ m, String.length (m0 m)) 0%nat m))%Z ∧
  input p1 = substr (input p) (from_option (λ m, String.length (m0 m)) 0%nat m) ∧
  parsed p1 = parsed p +:+ from_option m0 "" m ∧
  frame p p1 ∧ spans p1 = spans p ∧ m = regex (input p) ∧
  stack p1 = stack p ∧ sets p1 = sets p ∧ store p1 = store p ∧ count p1 = count p.
Proof.
  unfold match_, bind, gets. destruct (regex (input p)) as [m'|]; simpl.
  - intros [= <- <-]. simpl. by repeat split.
  - intros [= <- <-]. simpl. rewrite substr_0, Z.add_0_r.
    repeat split; try done. by rewrite append_empty_r.
Qed.

Lemma effect_after_match start regex p m p1 p' :
  start = column p →
  match_ regex p = Normal m p1 → built start p1 p' → effect p p'.
Proof.
  intros -> Hm [F I P C [k S]].
  apply match_inv in Hm as (C1 & I1 & P1 & F1 & S1 & _).
  split.
  - by eapply frame_trans.
  - eexists. by rewrite I, I1.
  - eexists. by rewrite P, P1.
  - lia.
  - exists k. rewrite S, S1. do 4 f_equal. congruence.
Qed.

Ltac after_match :=
  let H := fresh "H" in
  let Hm := fresh "Hm" in
  intros H; rewrite !bind_gets in H;
  apply bind_inv in H as (? & ? & Hm & H);
  eapply effect_after_match; [reflexivity|exact Hm|];
  eapply rel_elim; [|exact H];
  repeat built_step.

Lemma capture_fn_effect type regex p a p' :
  capture_fn type regex p = Normal a p' → effect p p'.
Proof. unfold capture_fn. after_match. Qed.

Lemma pair_open_fn_effect type regex p a p' :
  pair_open_fn type regex p = Normal a p' → effect p p'.
Proof. unfold pair_open_fn. after_match. Qed.

Lemma pair_close_fn_effect type regex p a p' :
  pair_close_fn type regex p = Normal a p' → effect p p'.
Proof. unfold pair_close_fn. after_match. Qed.

Lemma call_effect fn p a p' : call fn p = Normal a p' → effect p p'.
Proof.
  destruct fn; simpl;
    eauto using capture_fn_effect, pair_open_fn_effect, pair_close_fn_effect.
Qed.

Lemma eos_built p a p' : eos p = Normal a p' → built (column p) p p'.
Proof.
  unfold eos. intros H. rewrite bind_gets in H.
  eapply rel_elim; [|exact H]. repeat built_step.
Qed.

Lemma built_effect p p' : built (column p) p p' → effect p p'.
Proof.
  intros [F I P C [k S]]. split; try done.
  - exists 0%nat. by rewrite substr_0.
  - exists "". by rewrite append_empty_r.
  - lia.
  - exists k. by rewrite C.
Qed.

(** ** Spans stay ordered *)

Lemma effect_PosInv p p' : effect p p' → PosInv p → PosInv p'.
Proof.
  intros [_ _ _ Hc [k Hs]] [Hok Hord]. split.
  - rewrite Hs. apply Forall_app. split.
    + eapply Forall_impl; [exact Hok|]. intros o Ho x Hx.
      specialize (Ho x Hx). lia.
    + apply Forall_replicate. intros x [= <-]. simpl. lia.
  - rewrite Hs. intros i j x y Hij Hi Hj.
    destruct (decide (j < length (spans p))%nat) as [Hlt|Hge].
    + rewrite lookup_app_l in Hi, Hj by lia. eauto.
    + rewrite (lookup_app_r _ _ j) in Hj by lia.
      apply lookup_replicate in Hj as [[= ->] _]. simpl.
      destruct (decide (i < length (spans p))%nat) as [Hlt'|Hge'].
      * rewrite lookup_app_l in Hi by lia. left.
        rewrite Forall_lookup in Hok. specialize (Hok _ _ Hi x eq_refl). lia.
      * rewrite lookup_app_r in Hi by lia.
        apply lookup_replicate in Hi as [[= ->] _]. by right.
Qed.

#[global] Instance progress_refl : Reflexive progress.
Proof.
  intros p. split; [apply frame_refl| | |lia|done].
  - exists 0%nat. by rewrite substr_0.
  - exists "". by rewrite append_empty_r.
Qed.

#[global] Instance progress_trans : Transitive progress.
Proof.
  intros p q r [F1 [n1 I1] [s1 P1] C1 V1] [F2 [n2 I2] [s2 P2] C2 V2]. split.
  - by eapply frame_trans.
  - exists (n1 + n2)%nat. by rewrite I2, I1, substr_substr.
  - exists (s1 +:+ s2). by rewrite P2, P1, append_assoc.
  - lia.
  - auto.
Qed.

Lemma effect_progress p p' : effect p p' → progress p p'.
Proof.
  intros He. pose proof (effect_PosInv _ _ He). destruct He. by split.
Qed.

Lemma next_from_progress ts : rel progress (next_from ts).
Proof.
  induction ts as [|t ts IH]; simpl.
  - apply rel_ret; apply _.
  - apply rel_bind; [apply _..|apply rel_gets; apply _|].
    intros [fn|[len [v|]|]|]; [|exact IH|apply rel_throw..].
    apply rel_bind; [apply _..| |done].
    intros p a p' H. apply effect_progress. by eapply call_effect.
Qed.

Lemma next_progress : rel progress next.
Proof.
  apply rel_bind; [apply _..|apply rel_gets; apply _|].
  intros ts. apply next_from_progress.
Qed.

Lemma progress_length p p' :
  progress p p' → input p' ≠ input p →
  (String.length (input p') < String.length (input p))%nat.
Proof.
  intros [_ [n Hn] _ _ _] Hne. rewrite Hn in *. by apply substr_shorter.
Qed.

Lemma parse_loop_progress fuel p a p' :
  parse_loop fuel p = Some (Normal a p') → progress p p' ∧ input p' = "".
Proof.
  revert p. induction fuel as [|fuel IH]; intros p; simpl.
  - destruct (truthy (input p)) eqn:E; simpl; [done|].
    intros [= _ <-]. split; [reflexivity|]. by destruct (input p).
  - destruct (truthy (input p)) eqn:E; simpl.
    + destruct (next p) as [[] q|] eqn:En; [|done].
      destruct (truthy (input q) && bool_decide (input p = input q)); [done|].
      intros H. apply IH in H as [H1 H2]. split; [|done].
      etransitivity; [|exact H1]. by eapply next_progress.
    + intros [= _ <-]. split; [reflexivity|]. by destruct (input p).
Qed.

Lemma parse_loop_terminates fuel p :
  (String.length (input p) < fuel)%nat → is_Some (parse_loop fuel p).
Proof.
  revert p. induction fuel as [|fuel IH]; intros p Hlen; [lia|]. simpl.
  destruct (truthy (input p)) eqn:E; simpl; [|by eexists].
  destruct (next p) as [[] q|] eqn:En; [|by eexists].
  destruct (truthy (input q)) eqn:Eq; simpl; [|].
  - case_bool_decide as Heq; [by eexists|].
    apply IH. apply next_progress in En.
    apply progress_length in En; [lia|done].
  - apply IH. apply truthy_spec in E. destruct (input q); [|done].
    destruct (input p); [done|]. simpl in *. lia.
Qed.

Lemma parse_loop_more_fuel fuel fuel' p r :
  parse_loop fuel p = Some r → (fuel ≤ fuel')%nat → parse_loop fuel' p = Some r.
Proof.
  revert fuel' p. induction fuel as [|fuel IH]; intros fuel' p.
  - simpl. destruct (truthy (input p)) eqn:E; [done|]. simpl. intros [= <-] _.
    destruct fuel'; simpl; by rewrite E.
  - intros H Hle. destruct fuel' as [|fuel']; [lia|]. simpl in *.
    destruct (negb (truthy (input p))); [done|].
    destruct (next p) as [[] q|e q]; [|done].
    destruct (truthy (input q) && bool_decide (input p = input q)); [done|].
    apply IH; [done|lia].
Qed.

(** ** Exceptions, the close handler and the end of the input *)

Lemma pair_close_fn_matched type closeRegex p m :
  closeRegex (input p) = Some m →
  pair_close_fn type closeRegex p
  = (let p1 := set_input (substr (input p) (String.length (m0 m)))
                 (set_parsed (parsed p +:+ m0 m)
                    (set_column (column p + Z.of_nat (String.length (m0 m))) p)) in
     bind (pop type) (λ open,
       bind (gets store) (λ st,
         if isType st (from_option JNode JUndefined open) (JString type)
         then throw (Error (new_Error ("missing opening " +:+ quoted type)))
         else
           bind (gets input) (λ rest,
           bind (pos (column p) (with_val (m0 m) (with_suffix (m1 m)
                      (with_rest rest (blank (type +:+ ".close"))))))
             (λ lit, bind (alloc lit) (λ node,
                bind (define_parent node open) (λ _,
                  bind (nodes_push open node) (λ _, ret (Some node))))))))
       p1).
Proof.
  intros Hm. unfold pair_close_fn. rewrite bind_gets.
  unfold bind at 1, match_. rewrite bind_gets, Hm. done.
Qed.

Lemma match_never_throws regex p : ∃ m p1, match_ regex p = Normal m p1.
Proof.
  unfold match_. rewrite bind_gets.
  destruct (regex (input p)); by do 2 eexists.
Qed.

Lemma throws_bind P {A B} (c : M A) (k : A → M B) :
  throws P c → (∀ a, throws P (k a)) → throws P (bind c k).
Proof.
  intros Hc Hk p e p'. unfold bind. destruct (c p) as [a q|e' q] eqn:E.
  - apply Hk.
  - intros [= <- _]. by eapply Hc.
Qed.

Lemma throws_ret P {A} (a : A) : throws P (ret a).
Proof. by intros p e p'. Qed.

Lemma throws_gets P {A} (f : Parser → A) : throws P (gets f).
Proof. by intros p e p'. Qed.

Lemma throws_pos P start n : throws P (pos start n).
Proof. by intros p e p'. Qed.

Lemma throws_alloc P n : throws P (alloc n).
Proof. by intros p e p'. Qed.

Lemma throws_define_parent node parent :
  throws (λ e, e = RuntimeTypeError) (define_parent node parent).
Proof.
  intros p e p'. unfold define_parent. destruct (store p !! node); [done|].
  by intros [= <- _].
Qed.

Lemma throws_nodes_push target child :
  throws (λ e, e = RuntimeTypeError) (nodes_push target child).
Proof.
  intros p e p'. unfold nodes_push.
  repeat case_match; try done; by intros [= <- _].
Qed.

Lemma eos_at_end p :
  input p = "" →
  eos p = bind (alloc (eos_literal p))
            (λ node, bind (nodes_push (prev p) node) (λ _, ret (Some node))) p.
Proof.
  intros H. unfold eos. rewrite !bind_gets, H. simpl. by rewrite !bind_gets.
Qed.

Lemma eos_literal_nodes p : n_nodes (eos_literal p) = None.
Proof. done. Qed.

Lemma eos_inv p v p' :
  input p = "" → eos p = Normal v p' →
  ∃ t n l, prev p = Some t ∧ store p !! t = Some n ∧ n_nodes n = Some l
           ∧ v = Some (length (store p))
           ∧ p' = set_store (<[t := with_nodes (l ++ [length (store p)]) n]>
                               (store p ++ [eos_literal p])) p.
Proof.
  intros Hin. rewrite (eos_at_end _ Hin).
  unfold bind, alloc, nodes_push, ret. simpl.
  destruct (prev p) as [t|]; [|done].
  destruct ((store p ++ [eos_literal p]) !! t) as [n|] eqn:Ht; [|done].
  destruct (n_nodes n) as [l|] eqn:Hl; [|done].
  intros [= <- <-]. exists t, n, l. repeat split; try done.
  destruct (decide (t < length (store p))%nat) as [Hlt|Hge].
  - by rewrite lookup_app_l in Ht.
  - rewrite lookup_app_r in Ht by lia.
    destruct (t - length (store p))%nat; simplify_eq/=.
Qed.

Lemma eos_success p t n l :
  input p = "" → prev p = Some t → store p !! t = Some n → n_nodes n = Some l →
  eos p = Normal (Some (length (store p)))
            (set_store (<[t := with_nodes (l ++ [length (store p)]) n]>
                          (store p ++ [eos_literal p])) p).
Proof.
  intros Hin Hp Ht Hl. rewrite (eos_at_end _ Hin).
  unfold bind, alloc, nodes_push, ret. simpl. rewrite Hp.
  rewrite lookup_app_l by (by eapply lookup_lt_Some).
  by rewrite Ht, Hl.
Qed.

Lemma prev_top p t : last (stack p) = Some t → prev p = Some t.
Proof.
  intros H. unfold prev. rewrite bool_decide_eq_true_2; [done|].
  intros E. by rewrite E in H.
Qed.

Lemma parse_inv fuel str p a p' :
  parse fuel str p = Some (Normal a p') →
  ∃ p2, parse_loop fuel (set_input str (set_orig (Some str) p)) = Some (Normal tt p2)
        ∧ parse_end p2 = Normal a p'.
Proof.
  unfold parse.
  destruct (parse_loop fuel _) as [[[] p2|]|]; [|done..].
  intros [= H]. eauto.
Qed.

Lemma parse_end_lenient p :
  (stack p = [] ∨ strict (options p) = false) →
  parse_end p = bind eos (λ _, gets ast) p.
Proof.
  intros H. unfold parse_end. rewrite !bind_gets.
  assert (bool_decide (stack p ≠ []) && strict (options p) = false) as ->; [|done].
  destruct H as [-> | ->]; [done|]. by rewrite andb_false_r.
Qed.

Lemma parse_end_inv p a p' :
  parse_end p = Normal a p' → ∃ v, eos p = Normal v p' ∧ a = ast p'.
Proof.
  unfold parse_end. rewrite !bind_gets.
  destruct (bool_decide (stack p ≠ []) && strict (options p)) eqn:E.
  - unfold bind at 1 2, modify. rewrite !bind_gets.
    destruct (_ ≫= _); [|done].
    unfold bind at 1 2, error, throw.
    by destruct (silent _).
  - unfold bind at 1 2, ret. destruct (eos p) as [v q|]; [|done].
    intros [= <- <-]. eauto.
Qed.

End ExtglobFacts.

(** ** The node store and the primitive steps of the handlers *)

Module StoreFacts.
Import Extglob JsFacts ExtglobFacts.

Lemma parser_ext p q :
  options p = options q → input p = input q → parsed p = parsed q →
  column p = column q → errors p = errors q → parsers p = parsers q →
  fns p = fns q → bos p = bos q → ast p = ast q → nodes p = nodes q →
  types p = types q → stack p = stack q → count p = count q → sets p = sets q →
  orig p = orig q → specialChars p = specialChars q → append p = append q →
  store p = store q → p = q.
Proof. destruct p, q. simpl. by intros -> -> -> -> -> -> -> -> -> -> -> -> -> -> -> -> -> ->. Qed.

Ltac state_eq := apply parser_ext; simpl; reflexivity.

Lemma lookup_end {A} (l : list A) x : (l ++ [x]) !! length l = Some x.
Proof. by apply list_lookup_middle. Qed.

Lemma insert_end {A} (l : list A) x y : <[length l := y]> (l ++ [x]) = l ++ [y].
Proof.
  rewrite <- (Nat.add_0_r (length l)) at 1. by rewrite (insert_app_r l [x] 0).
Qed.

Lemma define_parent_new n parent p :
  define_parent (length (store p)) parent (set_store (store p ++ [n]) p)
  = Normal tt (set_store (store p ++ [with_parent parent n]) p).
Proof.
  unfold define_parent. simpl. rewrite lookup_end, insert_end. done.
Qed.

Lemma alloc_define {A} lit parent (k : nat → M A) q :
  bind (alloc lit) (λ node, bind (define_parent node parent) (λ _, k node)) q
  = k (length (store q)) (set_store (store q ++ [with_parent parent lit]) q).
Proof.
  unfold bind at 1, alloc. unfold bind at 1. by rewrite define_parent_new.
Qed.

Lemma nodes_push_inv target x q a q' :
  nodes_push target x q = Normal a q' →
  ∃ t n l, target = Some t ∧ store q !! t = Some n ∧ n_nodes n = Some l
           ∧ q' = set_store (<[t := with_nodes (l ++ [x]) n]> (store q)) q.
Proof.
  unfold nodes_push. destruct target as [t|]; [|done].
  destruct (store q !! t) as [n|] eqn:E; [|done].
  destruct (n_nodes n) as [l|] eqn:El; [|done].
  intros [= _ <-]. by exists t, n, l.
Qed.

Lemma match_matched regex p m :
  regex (input p) = Some m → match_ regex p = Normal (Some m) (matched m p).
Proof. intros H. unfold match_. by rewrite bind_gets, H. Qed.

Lemma define_parent_eq i parent q n :
  store q !! i = Some n →
  define_parent i parent q
  = Normal tt (set_store (<[i := with_parent parent n]> (store q)) q).
Proof. intros H. unfold define_parent. by rewrite H. Qed.

Lemma insert_before_end {A} (l : list A) x y z :
  <[length l := z]> ((l ++ [x]) ++ [y]) = (l ++ [z]) ++ [y].
Proof.
  rewrite insert_app_l by (rewrite length_app; simpl; lia). by rewrite insert_end.
Qed.

Lemma lookup_before_end {A} (l : list A) x y :
  ((l ++ [x]) ++ [y]) !! length l = Some x.
Proof.
  rewrite lookup_app_l by (rewrite length_app; simpl; lia). apply lookup_end.
Qed.

Lemma push_returns type token q a q' :
  push type token q = Normal a q' →
  ∃ ls, sets q !! type = Some ls
        ∧ q' = set_sets (<[type := ls ++ [token]]> (sets q))
                 (set_stack (stack q ++ [token]) (set_count (count q + 1) q)).
Proof.
  unfold push, bind, modify. simpl.
  destruct (sets q !! type) as [ls|] eqn:E; [|done]. intros [= _ <-]. eauto.
Qed.

Lemma pop_eq p type l :
  sets p !! type = Some l →
  pop type p
  = Normal (last l)
      (set_sets (<[type := removelast l]> (sets p))
         (set_stack (removelast (stack p)) (set_count (count p - 1) p))).
Proof. intros H. unfold pop, bind, modify. simpl. by rewrite H. Qed.

Lemma pop_unknown p type :
  sets p !! type = None → ∃ p', pop type p = Thrown RuntimeTypeError p'.
Proof. intros H. unfold pop, bind, modify. simpl. rewrite H. by eexists. Qed.

(** One step of the pass of [next]. *)
Lemma next_from_own t ts p fn :
  parsers p !! t = Some fn →
  next_from (t :: ts) p = bind (call fn) (λ _, next_from ts) p.
Proof. intros H. simpl. rewrite bind_gets. unfold get, read. by rewrite H. Qed.

Lemma next_from_cons_inv t ts p a p' :
  next_from (t :: ts) p = Normal a p' →
  (∃ fn v q, parsers p !! t = Some fn ∧ call fn p = Normal v q
             ∧ next_from ts q = Normal a p')
  ∨ (parsers p !! t = None ∧ next_from ts p = Normal a p').
Proof.
  simpl. rewrite bind_gets. unfold get, read.
  destruct (parsers p !! t) as [fn|].
  - intros H. apply bind_inv in H as (v & q & Hc & H). left. by exists fn, v, q.
  - destruct (object_prototype t) as [[len [v|]|]|]; try done. intros H. by right.
Qed.

End StoreFacts.

(** * Claims about the parse loops *)

Module ProgressSpec.
Import JsFacts ExtglobFacts.

Lemma stuck_runs_forever fuel s :
  Snapdragon.input s ≠ "" →
  Snapdragon.parse_loop string Fixtures.throw_message fuel [Fixtures.stuck] s = None.
Proof.
  revert s. induction fuel as [|fuel IH]; intros s Hs; simpl.
  - case_bool_decide as H; [|done]. by destruct (Snapdragon.input s).
  - case_bool_decide as H; [by destruct (Snapdragon.input s)|].
    apply IH. done.
Qed.

(** C2, as stated, fails for the middleware engine: with a middleware
    function that matches nothing, [parse("a")] returns normally with ["a"]
    still unread and raises nothing; with one that returns a node without
    consuming, the loop of [parse("a")] is still running after any number
    of iterations. *)
Lemma C2_middleware_counterexample :
  (∃ s, Snapdragon.parse string Fixtures.throw_message 1 (Snapdragon.VString "a")
          (Snapdragon.use Fixtures.no_match (Snapdragon.new_Parser None))
        = Some (Snapdragon.Normal tt s)
        ∧ Snapdragon.input s = "a")
  ∧ (∀ fuel, Snapdragon.parse string Fixtures.throw_message fuel (Snapdragon.VString "a")
          (Snapdragon.use Fixtures.stuck (Snapdragon.new_Parser None))
        = None).
Proof.
  split.
  - eexists. split; reflexivity.
  - intros fuel. unfold Snapdragon.parse. simpl. by apply stuck_runs_forever.
Qed.

(** C2, amended: in the fixed-table engine, for every table of handlers
    registered through [capture] and [pair] and every input, [parse]
    comes to an end within as many passes as the input has characters,
    with an outcome that allowing more passes does not change; a pass that
    returns leaves the input as it was or strictly shorter; and a
    pass that leaves a non-empty input as it was makes [parse] raise the
    no-handler error naming the first character of the input.  In the
    middleware engine a pass in which no middleware function returns a node
    ends [parse] normally, with the input left unread. *)
Theorem C2_progress :
  (∀ p str fuel, (String.length str < fuel)%nat →
     is_Some (Extglob.parse fuel str p))
  ∧ (∀ p str fuel fuel' r, Extglob.parse fuel str p = Some r → (fuel ≤ fuel')%nat →
       Extglob.parse fuel' str p = Some r)
  ∧ (∀ p p', Extglob.next p = Extglob.Normal tt p' →
       Extglob.input p' = Extglob.input p
       ∨ (String.length (Extglob.input p') < String.length (Extglob.input p))%nat)
  ∧ (∀ p p' fuel, Extglob.input p ≠ "" →
       Extglob.next p = Extglob.Normal tt p' →
       Extglob.input p' = Extglob.input p →
       Extglob.parse_loop (S fuel) p
       = Some (Extglob.Thrown
                 (Extglob.Error (Extglob.new_Error
                    ("no parsers registered for: "
                       +:+ quoted (charAt0 (Extglob.input p)))))
                 p'))
  ∧ (∀ (thrown : Type) (error : string → Snapdragon.State → thrown * Snapdragon.State)
       fs s s' fuel,
       Snapdragon.input s ≠ "" →
       Snapdragon.run thrown error fs s = Snapdragon.Normal None s' →
       Snapdragon.parse_loop thrown error (S fuel) fs s
       = Some (Snapdragon.Normal tt s')).
Proof.
  split; [|split; [|split; [|split]]].
  - intros p str fuel Hlen. unfold Extglob.parse.
    destruct (parse_loop_terminates fuel
                (Extglob.set_input str (Extglob.set_orig (Some str) p)) Hlen)
      as [[[] q|e q] ->]; by eexists.
  - intros p str fuel fuel' r. unfold Extglob.parse.
    destruct (Extglob.parse_loop fuel _) as [r'|] eqn:E; [|done].
    intros H Hle. by rewrite (parse_loop_more_fuel _ _ _ _ E Hle).
  - intros p p' Hn. apply next_progress in Hn.
    destruct (decide (Extglob.input p' = Extglob.input p)); [by left|right].
    by apply progress_length.
  - intros p p' fuel Hne Hn Heq. simpl.
    apply truthy_spec in Hne. rewrite Hne. simpl. rewrite Hn, Heq, Hne. simpl.
    by rewrite bool_decide_eq_true_2.
  - intros thrown error fs s s' fuel Hne Hr. simpl.
    rewrite bool_decide_eq_false_2; [by rewrite Hr|].
    by destruct (Snapdragon.input s).
Qed.

(** C2, amended, on examples: [parse("a(")] with [paren] pairs only ends
    with the no-handler error for ["a"]; and the middleware engine with a
    middleware function that matches nothing returns. *)
Lemma C2_progress_witness :
  is_Some (Extglob.parse 3 "a(" (Fixtures.parens_only false false))
  ∧ Extglob.parse_loop 1 (Extglob.set_input "a(" (Fixtures.parens_only false false))
    = Some (Extglob.Thrown
              (Extglob.Error (Extglob.new_Error ("no parsers registered for: " +:+ quoted "a")))
              (Extglob.set_input "a(" (Fixtures.parens_only false false)))
  ∧ Snapdragon.parse_loop string Fixtures.throw_message 1 [Fixtures.no_match]
      (Snapdragon.set_input "a" (Snapdragon.state (Snapdragon.new_Parser None)))
    = Some (Snapdragon.Normal tt
              (Snapdragon.set_input "a" (Snapdragon.state (Snapdragon.new_Parser None)))).
Proof.
  destruct C2_progress as (H1 & _ & H2 & H3 & H4).
  split; [|split].
  - apply H1. simpl. lia.
  - apply (H3 (Extglob.set_input "a(" (Fixtures.parens_only false false))).
    + done.
    + vm_compute. reflexivity.
    + reflexivity.
  - apply H4.
    + done.
    + reflexivity.
Defined.

End ProgressSpec.

(** * Claims about the nesting stacks and the end of the input *)

Module NestingSpec.
Import Extglob JsFacts ExtglobFacts StoreFacts.

(** C3, as stated, fails when pairs of different kinds interleave: with
    [paren] and [brace] pairs registered, once ["({"] has been read the
    container on top of the flattened stack is the [brace]; on [")"] the
    close rule of [paren] matches and its handler returns a close node
    without raising; [parse("({)")] as a whole returns, with the close node
    attached to the [paren] container (handle 3), after the [brace]
    container it contains. *)
Lemma C3_interleaved_counterexample :
  ∃ p1 node p2 a p',
    parse_loop 10 (set_input "({" (Fixtures.demo false false)) = Some (Normal tt p1)
    ∧ top_type p1 = Some "brace"
    ∧ Fixtures.re_lit ")" ")" = Some {| m0 := ")"; m1 := None |}
    ∧ pair_close_fn "paren" (Fixtures.re_lit ")") (set_input ")" p1)
      = Normal (Some node) p2
    ∧ parse 10 "({)" (Fixtures.demo false false) = Some (Normal a p')
    ∧ child_types p' 3 = Some ["paren.open"; "brace"; "paren.close"; "eos"].
Proof.
  do 5 eexists. split; [vm_compute; reflexivity|].
  split; [vm_compute; reflexivity|]. split; [vm_compute; reflexivity|].
  split; [vm_compute; reflexivity|]. split; vm_compute; reflexivity.
Qed.

(** The close handler when a container of its kind is open. *)
Lemma pair_close_fn_accepts type closeRegex p m l o n cs :
  closeRegex (input p) = Some m →
  sets p !! type = Some (l ++ [o]) →
  store p !! o = Some n → n_nodes n = Some cs →
  pair_close_fn type closeRegex p
  = Normal (Some (length (store p)))
      (set_store (<[o := with_nodes (cs ++ [length (store p)]) n]>
                    (store p ++ [close_token type m p (Some o)]))
         (set_sets (<[type := l]> (sets p))
            (set_stack (removelast (stack p))
               (set_count (count p - 1) (matched m p))))).
Proof.
  intros Hm Hs Ho Hcs.
  rewrite (pair_close_fn_matched _ _ _ _ Hm). cbv zeta. unfold bind at 1.
  pose proof (pop_eq (matched m p) type (l ++ [o]) Hs) as Hpop.
  unfold matched in Hpop. rewrite Hpop. clear Hpop.
  rewrite last_snoc, removelast_last. cbn [from_option].
  rewrite bind_gets.
  assert (∀ st, isType st (JNode o) (JString type) = false) as Hty.
  { intros st. unfold isType. simpl. apply andb_false_r. }
  rewrite Hty, bind_gets. unfold bind at 1, pos. rewrite alloc_define.
  unfold bind, nodes_push, ret. simpl.
  rewrite lookup_app_l by (by eapply lookup_lt_Some). rewrite Ho, Hcs.
  apply (f_equal (Normal (Some (length (store p))))). state_eq.
Qed.

(** C3, amended: whenever a close rule matches while the stack of its own
    kind is empty, the handler raises the missing-opening error at once,
    whatever the options of the instance, and [parse(")")] with only the
    [paren] pair registered raises it for every setting of [silent] and
    [strict]; when the last token on the stack of its own kind is a
    container of that kind, the close is accepted whichever container is
    on top of the flattened stack: the handler returns the close node,
    which it has appended to the [nodes] of that container, and takes the
    container off the stack of the kind. *)
Theorem C3_missing_opening :
  (∀ type closeRegex p m,
     closeRegex (input p) = Some m → type ≠ "" → sets p !! type = Some [] →
     ∃ p', pair_close_fn type closeRegex p
           = Thrown (Error (new_Error ("missing opening " +:+ quoted type))) p')
  ∧ (∀ type closeRegex p m l o n cs,
       closeRegex (input p) = Some m →
       sets p !! type = Some (l ++ [o]) →
       store p !! o = Some n → n_type n = type → n_nodes n = Some cs →
       pair_close_fn type closeRegex p
       = Normal (Some (length (store p)))
           (set_store (<[o := with_nodes (cs ++ [length (store p)]) n]>
                         (store p ++ [close_token type m p (Some o)]))
              (set_sets (<[type := l]> (sets p))
                 (set_stack (removelast (stack p))
                    (set_count (count p - 1) (matched m p))))))
  ∧ (∀ sil str fuel,
       ∃ p', parse (S fuel) ")" (Fixtures.parens_only sil str)
             = Some (Thrown (Error (new_Error ("missing opening " +:+ quoted "paren"))) p')).
Proof.
  split; [|split].
  - intros type closeRegex p m Hm Hty Hs.
    rewrite (pair_close_fn_matched _ _ _ _ Hm). cbv zeta.
    unfold bind at 1, pop, bind at 1 2, modify. simpl. rewrite Hs. simpl.
    rewrite bind_gets. unfold isType. simpl.
    apply truthy_spec in Hty. rewrite Hty. simpl. by eexists.
  - intros type closeRegex p m l o n cs Hm Hs Ho _ Hcs.
    by apply pair_close_fn_accepts.
  - intros [] [] fuel; eexists; vm_compute; reflexivity.
Qed.

(** C3, amended, on an example: with only the [paren] pair registered, the
    close handler raises on [")"] in a new parser, and accepts [")"] once
    ["("] has been read: the [paren] container (handle 3) gets the close
    node (handle 4). *)
Lemma C3_missing_opening_witness :
  (∃ p', pair_close_fn "paren" (Fixtures.re_lit ")")
           (set_input ")" (Fixtures.parens_only true false))
         = Thrown (Error (new_Error ("missing opening " +:+ quoted "paren"))) p')
  ∧ (∃ p1 node p2,
       parse_loop 5 (set_input "(" (Fixtures.parens_only true false))
       = Some (Normal tt p1)
       ∧ pair_close_fn "paren" (Fixtures.re_lit ")") (set_input ")" p1)
         = Normal (Some node) p2
       ∧ node = 4%nat
       ∧ child_types p2 3 = Some ["paren.open"; "paren.close"]).
Proof.
  destruct C3_missing_opening as (H1 & H2 & _). split.
  - apply (H1 "paren" (Fixtures.re_lit ")") _ {| m0 := ")"; m1 := None |}).
    + reflexivity.
    + done.
    + reflexivity.
  - do 3 eexists. split; [vm_compute; reflexivity|]. split.
    + eapply (H2 "paren" (Fixtures.re_lit ")") _ {| m0 := ")"; m1 := None |} [] 3%nat);
        vm_compute; reflexivity.
    + split; vm_compute; reflexivity.
Defined.

(** Outside C3 as amended: a token of another kind on the stack of the
    kind.  After ["{"], with the [brace] container (handle 3) pushed as a
    [paren] through [push], the close handler of [paren] returns a close
    node on [")"]: the call [this.isType(open, type)] hands the token to
    [isType] as its [type] and the kind as its [node]. *)
Lemma close_on_other_kind_example :
  ∃ p1 len p2 node p3,
    parse_loop 10 (set_input "{" (Fixtures.demo false false)) = Some (Normal tt p1)
    ∧ n_type <$> store p1 !! 3%nat = Some "brace"
    ∧ push "paren" 3 p1 = Normal len p2
    ∧ sets p2 !! "paren" = Some [3%nat]
    ∧ pair_close_fn "paren" (Fixtures.re_lit ")") (set_input ")" p2)
      = Normal (Some node) p3.
Proof.
  do 5 eexists. split; [vm_compute; reflexivity|].
  split; [vm_compute; reflexivity|]. split; [vm_compute; reflexivity|].
  split; vm_compute; reflexivity.
Qed.

(** C4, as stated, fails when pairs of different kinds interleave: at the
    end of ["({)"] in strict mode the error reports [paren], the kind on
    top of the flattened stack, although the [paren] container (handle 3)
    has its close node; the container left without one is the [brace]
    (handle 5), the only one still on the stack of its kind. *)
Lemma C4_interleaved_counterexample :
  ∃ err p', parse 10 "({)" (Fixtures.demo false true) = Some (Thrown (Error err) p')
    ∧ reason err = Some ("missing opening paren: " +:+ quoted "({)")
    ∧ child_types p' 3 = Some ["paren.open"; "brace"; "paren.close"]
    ∧ child_types p' 5 = Some ["brace.open"]
    ∧ sets p' !! "paren" = Some []
    ∧ sets p' !! "brace" = Some [5%nat].
Proof.
  do 2 eexists. split; [vm_compute; reflexivity|].
  repeat apply conj; vm_compute; reflexivity.
Qed.

(** C4, amended: when the loop of [parse] has ended with the flattened
    stack not empty, then, in strict mode and with [silent] not set,
    [parse] raises the error that carries the kind of the node on top of
    the flattened stack; not in strict mode, [parse] returns the root,
    and the only change to the store is the [eos] node, created and
    appended to the [nodes] of the node on top of the flattened stack: no
    close node is made for any container. *)
Theorem C4_end_of_input fuel str p p2 top node :
  parse_loop fuel (set_input str (set_orig (Some str) p)) = Some (Normal tt p2) →
  last (stack p2) = Some top →
  store p2 !! top = Some node →
  (strict (options p) = true → silent (options p) = false →
     parse fuel str p
     = Some (Thrown
               (Error (error_object ("missing opening " +:+ n_type node +:+ ": "
                                       +:+ quoted str)
                         (set_stack (removelast (stack p2)) p2)))
               (set_stack (removelast (stack p2)) p2)))
  ∧ (strict (options p) = false →
     ∀ l, n_nodes node = Some l →
       parse fuel str p
       = Some (Normal (ast p)
                 (set_store (<[top := with_nodes (l ++ [length (store p2)]) node]>
                               (store p2 ++ [eos_literal p2])) p2))).
Proof.
  intros Hloop Htop Hnode.
  destruct (parse_loop_progress _ _ _ _ Hloop) as [[[Ho _ _ _ _ Ha _ _ Horig _] _ _ _ _] Hin].
  simpl in Ho, Ha, Horig.
  assert (stack p2 ≠ []) as Hne by (intros E; by rewrite E in Htop).
  unfold parse. rewrite Hloop. split.
  - intros Hstrict Hsilent. f_equal.
    unfold parse_end. rewrite !bind_gets, Ho, Hstrict.
    rewrite bool_decide_eq_true_2 by done. simpl.
    unfold bind at 1 2, modify. rewrite !bind_gets. simpl.
    rewrite Htop. simpl. rewrite Hnode, Horig. simpl.
    unfold bind at 1 2, error. simpl. by rewrite Ho, Hsilent.
  - intros Hstrict l Hl. f_equal.
    rewrite parse_end_lenient by (right; congruence).
    unfold bind. rewrite (eos_success _ top node l); try done.
    + by rewrite <- Ha.
    + by apply prev_top.
Qed.

(** C4, amended, on an example: [parse("(")] in strict mode. *)
Lemma C4_end_of_input_witness :
  ∃ e p', parse 10 "(" (Fixtures.demo false true) = Some (Thrown (Error e) p')
          ∧ reason e = Some ("missing opening paren: " +:+ quoted "(").
Proof.
  edestruct (C4_end_of_input 10 "(" (Fixtures.demo false true)) as [H1 _].
  - vm_compute. reflexivity.
  - vm_compute. reflexivity.
  - vm_compute. reflexivity.
  - do 2 eexists. split.
    + rewrite H1 by reflexivity. reflexivity.
    + vm_compute. reflexivity.
Defined.

(** Outside C4 as amended: strict mode with [silent] set.  [error] then
    adds the error to [errors] and returns nothing, and the [throw] in
    front of the call throws [undefined]. *)
Lemma strict_and_silent_example :
  ∃ p', parse 10 "(" (Fixtures.demo true true) = Some (Thrown Undefined p')
    ∧ reason <$> errors p' = [Some ("missing opening paren: " +:+ quoted "(")].
Proof. eexists. split; vm_compute; reflexivity. Qed.




End NestingSpec.

(** * The two stacks of the nesting tracker *)

Module TrackerSpec.
Import Extglob JsFacts ExtglobFacts.



Lemma push_spec p type token l :
  sets p !! type = Some l →
  push type token p
  = Normal (length l + 1)%nat
      (set_sets (<[type := l ++ [token]]> (sets p))
         (set_stack (stack p ++ [token]) (set_count (count p + 1) p))).
Proof. intros H. unfold push, bind, modify. simpl. by rewrite H. Qed.

Lemma pop_spec p type l :
  sets p !! type = Some l →
  pop type p
  = Normal (last l)
      (set_sets (<[type := removelast l]> (sets p))
         (set_stack (removelast (stack p)) (set_count (count p - 1) p))).
Proof. intros H. unfold pop, bind, modify. simpl. by rewrite H. Qed.

Lemma push_inv p type token a p' :
  push type token p = Normal a p' →
  ∃ l, sets p !! type = Some l
       ∧ stack p' = stack p ++ [token]
       ∧ sets p' = <[type := l ++ [token]]> (sets p).
Proof.
  unfold push, bind, modify. simpl.
  destruct (sets p !! type) as [l|]; [|done]. intros [= _ <-]. by exists l.
Qed.

Lemma filter_agree (f g : nat → string) k (l : list nat) :
  (∀ i, i ∈ l → f i = g i) →
  filter (λ i, f i = k) l = filter (λ i, g i = k) l.
Proof.
  induction l as [|x l IH]; intros H; [done|].
  rewrite !filter_cons, (H x) by left.
  rewrite IH; [done|]. intros i Hi. apply H. by right.
Qed.

Lemma tracked_push f p type token a p' :
  tracked f p → (∀ i, i ∈ stack p → (i < token)%nat) →
  push type token p = Normal a p' →
  tracked (λ i, if decide (i = token) then type else f i) p'.
Proof.
  intros (Hs & Hf & Hd) Hfresh (l & Hl & Hst & Hse)%push_inv.
  unfold tracked. rewrite Hst, Hse. clear Hst Hse.
  assert (token ∉ stack p) as Hnot by (intros H%Hfresh; lia).
  assert (∀ k, filter (λ i, (if decide (i = token) then type else f i) = k) (stack p)
               = filter (λ i, f i = k) (stack p)) as Hagree.
  { intros k. apply filter_agree. intros i Hi.
    destruct (decide (i = token)) as [->|]; [done|done]. }
  split; [|split].
  - apply StronglySorted_app. split; [|split; [done|repeat constructor]].
    intros x1 x2 H1 ->%list_elem_of_singleton. by apply Hfresh.
  - intros k l' Hk. rewrite filter_app, Hagree.
    rewrite filter_cons, filter_nil.
    rewrite (decide_True (P := token = token)) by done.
    destruct (decide (type = k)) as [<-|Hne].
    + rewrite lookup_insert_eq in Hk. injection Hk as <-.
      by rewrite (Hf _ _ Hl).
    + rewrite lookup_insert_ne in Hk by done.
      rewrite app_nil_r. by apply Hf.
  - intros i [Hi| ->%list_elem_of_singleton]%elem_of_app.
    + destruct (decide (i = token)) as [->|]; [done|].
      destruct (decide (type = f i)) as [<-|].
      * rewrite lookup_insert_eq. by eexists.
      * rewrite lookup_insert_ne by done. by apply Hd.
    + rewrite decide_True by done. rewrite lookup_insert_eq. by eexists.
Qed.

Lemma tracked_pop f p type l a p' :
  tracked f p → sets p !! type = Some l → stack p ≠ [] →
  last l = last (stack p) →
  pop type p = Normal a p' → tracked f p'.
Proof.
  intros (Hs & Hf & Hd) Hl Hne Hlast. rewrite (pop_spec _ _ _ Hl).
  intros [= _ <-]. unfold tracked. simpl.
  destruct (last (stack p)) as [t|] eqn:Ht; [|by apply last_None in Ht].
  apply last_Some in Ht as [s Ht]. rewrite Ht in *.
  apply StronglySorted_app in Hs as (Hlt & Hs & _).
  assert (t ∉ s) as Hnot.
  { intros H. assert (t < t)%nat; [|lia]. apply Hlt; [done|by left]. }
  pose proof (Hf _ _ Hl) as Hfl. rewrite filter_app, filter_cons, filter_nil in Hfl.
  assert (f t = type) as Hft.
  { destruct (decide (f t = type)) as [|Hn]; [done|]. exfalso.
    rewrite app_nil_r in Hfl. rewrite Hfl in Hlast.
    apply last_Some_elem_of, list_elem_of_filter in Hlast as [_ ?]. done. }
  rewrite decide_True in Hfl by done.
  rewrite removelast_last. rewrite Hfl, removelast_last.
  split; [done|split].
  - intros k l' Hk. destruct (decide (type = k)) as [<-|Hnk].
    + rewrite lookup_insert_eq in Hk. by injection Hk as <-.
    + rewrite lookup_insert_ne in Hk by done.
      rewrite (Hf _ _ Hk), filter_app, filter_cons, filter_nil.
      rewrite decide_False by congruence. by rewrite app_nil_r.
  - intros i Hi. destruct (decide (type = f i)) as [<-|].
    + rewrite lookup_insert_eq. by eexists.
    + rewrite lookup_insert_ne by done. apply Hd, elem_of_app. by left.
Qed.

Lemma nested_tracked p : nested p → ∃ f, tracked f p.
Proof.
  induction 1 as [p Hs Hk|p type token a p' _ [f IH] Hfresh Hpush
                 |p type l a p' _ [f IH] Hl Hne Hlast Hpop].
  - exists (λ _, ""). unfold tracked. rewrite Hs. split; [constructor|split].
    + intros k l Hl. by rewrite (Hk _ _ Hl).
    + by intros i ?%elem_of_nil.
  - eexists. by eapply tracked_push.
  - exists f. by eapply tracked_pop.
Qed.

Lemma new_Parser_sets_empty o k l :
  sets (new_Parser o) !! k = Some l → l = [].
Proof.
  simpl. rewrite !lookup_insert_Some, lookup_singleton_Some. intuition congruence.
Qed.

(** C6, as stated, fails when pairs of different kinds interleave: after
    [parse("({)")] the flattened stack holds the [paren] container
    (handle 3) alone, which has been closed and is on the stack of no kind,
    while the [brace] container (handle 5), opened later and not closed, is
    on the stack of its kind and no longer on the flattened stack. *)
Lemma C6_interleaved_counterexample :
  ∃ a p', parse 10 "({)" (Fixtures.demo false false) = Some (Normal a p')
    ∧ stack p' = [3%nat]
    ∧ sets p' = {[ "single" := []; "double" := []; "bracket" := [];
                   "brace" := [5%nat]; "paren" := [] ]}
    ∧ child_types p' 3 = Some ["paren.open"; "brace"; "paren.close"; "eos"]
    ∧ child_types p' 5 = Some ["brace.open"].
Proof.
  do 2 eexists. split; [vm_compute; reflexivity|].
  repeat apply conj; vm_compute; reflexivity.
Qed.

(** C6, amended: [push] appends the token to the stack of its kind and to
    the flattened stack in one operation; [pop] takes the last element off
    both (off an empty one, nothing); and in every state of the tracker
    reached by pushing new tokens and by popping a kind whose innermost
    open container is on top of the flattened stack, the top of the
    flattened stack is an open container and the one opened last. *)
Theorem C6_lock_step :
  (∀ p type token l, sets p !! type = Some l →
     ∃ p', push type token p = Normal (length l + 1)%nat p'
           ∧ stack p' = stack p ++ [token]
           ∧ sets p' = <[type := l ++ [token]]> (sets p))
  ∧ (∀ p type l, sets p !! type = Some l →
       ∃ p', pop type p = Normal (last l) p'
             ∧ stack p' = removelast (stack p)
             ∧ sets p' = <[type := removelast l]> (sets p))
  ∧ (∀ p top, nested p → last (stack p) = Some top →
       is_open p top ∧ ∀ i, is_open p i → (i ≤ top)%nat).
Proof.
  split; [|split].
  - intros p type token l Hl. eexists. by rewrite (push_spec _ _ _ _ Hl).
  - intros p type l Hl. eexists. by rewrite (pop_spec _ _ _ Hl).
  - intros p top [f (Hs & Hf & Hd)]%nested_tracked Htop.
    apply last_Some in Htop as [s Htop].
    assert (top ∈ stack p) as Hin by (rewrite Htop; set_solver).
    split.
    + destruct (Hd _ Hin) as [l Hl]. exists (f top), l. split; [done|].
      rewrite (Hf _ _ Hl). by apply list_elem_of_filter.
    + intros i (k & l & Hl & Hi). rewrite (Hf _ _ Hl) in Hi.
      apply list_elem_of_filter in Hi as [_ Hi]. rewrite Htop in Hi, Hs.
      apply elem_of_app in Hi as [Hi| ->%list_elem_of_singleton]; [|done].
      apply StronglySorted_app in Hs as (Hlt & _).
      assert (i < top)%nat; [|lia]. apply Hlt; [done|by left].
Qed.


(** C6, amended, on an example: a [paren] container (handle 3) pushed on
    the tracker of a new parser, and popped again. *)
Lemma C6_lock_step_witness :
  let p0 := new_Parser (Fixtures.opts false false) in
  let p1 := set_sets (<["paren" := [] ++ [3%nat]]> (sets p0))
              (set_stack (stack p0 ++ [3%nat]) (set_count (count p0 + 1) p0)) in
  (∃ p', push "paren" 3 p0 = Normal 1%nat p'
         ∧ stack p' = [3%nat]
         ∧ sets p' = <["paren" := [3%nat]]> (sets p0))
  ∧ (∃ p', pop "paren" p1 = Normal (Some 3%nat) p'
           ∧ stack p' = []
           ∧ sets p' = <["paren" := []]> (sets p1))
  ∧ (is_open p1 3 ∧ ∀ i, is_open p1 i → (i ≤ 3)%nat).
Proof.
  intros p0 p1. destruct C6_lock_step as (H1 & H2 & H3).
  split; [|split].
  - apply (H1 p0 "paren" 3%nat []). reflexivity.
  - apply (H2 p1 "paren" [3%nat]). reflexivity.
  - apply H3; [|reflexivity].
    apply (nested_push p0 "paren" 3%nat 1%nat).
    + apply nested_empty; [reflexivity|]. apply new_Parser_sets_empty.
    + intros i Hi. by apply elem_of_nil in Hi.
    + reflexivity.
Defined.

End TrackerSpec.

(** * Position bookkeeping *)

Module PositionSpec.
Import JsFacts ExtglobFacts.

(** ** The middleware engine: lines and columns *)

Lemma lastIndexOf_none s i found :
  Snapdragon.no_newline s → lastIndexOf_newline_from s i found = found.
Proof.
  unfold Snapdragon.no_newline. revert i found.
  induction s as [|c s IH]; intros i found H; simpl in *; [done|].
  destruct (Ascii.eqb c "010"); [done|]. by apply IH.
Qed.

Lemma lastIndexOf_last a b i found :
  Snapdragon.no_newline b →
  lastIndexOf_newline_from (a +:+ String "010" b) i found
  = (i + Z.of_nat (String.length a))%Z.
Proof.
  intros Hb. revert i found. induction a as [|c a IH]; intros i found.
  - simpl. rewrite lastIndexOf_none by done. lia.
  - unfold String.append; fold String.append. simpl. rewrite IH. lia.
Qed.

Lemma count_newlines_app a b :
  count_newlines (a +:+ b) = (count_newlines a + count_newlines b)%nat.
Proof.
  induction a as [|c a IH]; [done|].
  unfold String.append; fold String.append. simpl. rewrite IH. lia.
Qed.

Lemma length_append a b :
  String.length (a +:+ b) = (String.length a + String.length b)%nat.
Proof.
  induction a as [|c a IH]; [done|].
  unfold String.append; fold String.append. simpl. by rewrite IH.
Qed.

Lemma updatePosition_lineno str len s :
  Snapdragon.lineno (Snapdragon.updatePosition str len s)
  = (Snapdragon.lineno s + Z.of_nat (count_newlines str))%Z.
Proof.
  unfold Snapdragon.updatePosition. simpl.
  case_bool_decide as H; simpl; [reflexivity|].
  assert (count_newlines str = 0%nat) as -> by (by destruct (count_newlines str)).
  lia.
Qed.

Lemma updatePosition_column_same_line str len s :
  Snapdragon.no_newline str →
  Snapdragon.column (Snapdragon.updatePosition str len s)
  = (Snapdragon.column s + len)%Z.
Proof.
  intros H. unfold Snapdragon.updatePosition, lastIndexOf_newline. simpl.
  rewrite lastIndexOf_none by done. change (Z.lnot (-1)) with 0%Z.
  rewrite bool_decide_eq_false_2 by (by intros ?). by case_bool_decide.
Qed.

Lemma updatePosition_column_new_line a b s :
  Snapdragon.no_newline b →
  Snapdragon.column
    (Snapdragon.updatePosition (a +:+ String "010" b)
       (Z.of_nat (String.length (a +:+ String "010" b))) s)
  = (1 + Z.of_nat (String.length b))%Z.
Proof.
  intros H. unfold Snapdragon.updatePosition, lastIndexOf_newline. simpl.
  rewrite lastIndexOf_last by done.
  rewrite bool_decide_eq_true_2.
  - rewrite length_append. simpl. lia.
  - unfold Z.lnot. lia.
Qed.

Lemma updatePosition_monotone str len s :
  (0 ≤ len)%Z →
  Snapdragon.pos_le (Snapdragon.position s)
    (Snapdragon.position (Snapdragon.updatePosition str len s)).
Proof.
  intros Hlen. unfold Snapdragon.pos_le, Snapdragon.position. cbn [fst snd].
  rewrite updatePosition_lineno.
  destruct (decide (Snapdragon.no_newline str)) as [H|H].
  - right. rewrite updatePosition_column_same_line by done.
    unfold Snapdragon.no_newline in H. rewrite H. lia.
  - left. unfold Snapdragon.no_newline in H. lia.
Qed.

(** ** The fixed-table engine: a single column counter *)

Lemma PosInv_ext p q :
  Extglob.column q = Extglob.column p → Extglob.store q = Extglob.store p →
  Extglob.PosInv p → Extglob.PosInv q.
Proof. unfold Extglob.PosInv, Extglob.spans. by intros -> ->. Qed.

Lemma PosInv_new o : Extglob.PosInv (Extglob.new_Parser o).
Proof.
  split.
  - unfold Extglob.spans. simpl.
    apply Forall_cons. split; [intros x [= <-]; simpl; lia|].
    apply Forall_cons. split; [by intros x [=]|]. apply Forall_nil_2.
  - intros [|[|i]] [|[|j]] x y Hij Hi Hj; simplify_eq/=; lia.
Qed.

Lemma parse_PosInv fuel str p a p' :
  Extglob.parse fuel str p = Some (Extglob.Normal a p') →
  Extglob.PosInv p → Extglob.PosInv p'.
Proof.
  intros Hparse Hinv.
  apply parse_inv in Hparse as (p2 & Hloop & Hend).
  apply parse_loop_progress in Hloop as [[_ _ _ _ Hpres] _].
  apply parse_end_inv in Hend as (v & Heos & _).
  apply eos_built, built_effect, effect_PosInv in Heos; [done|].
  apply Hpres. by eapply PosInv_ext.
Qed.

(** C7, as stated, fails for the fixed-table engine, whose cursor is a
    column only: consuming a newline moves the column from 1 to 2, there
    being no line count to increment and no reset; after [parse("(")] the
    container (handle 3) and its open token (handle 2) have the same span,
    from column 1 to column 2, so that neither starts where the other
    ends; and after [parse("({)}")] the close token of the [brace] (handle
    7, columns 4 to 5), a child of the [brace] container (handle 5), comes
    in document order before the close token of the [paren] (handle 6,
    columns 3 to 4), the child of the [paren] container (handle 3) that
    follows the [brace] container. *)
Lemma C7_column_only_counterexample :
  Extglob.column (Extglob.state_of
     (Extglob.updatePosition (String "010" "") 1
        (Extglob.new_Parser (Fixtures.opts false false)))) = 2%Z
  ∧ (∃ a p', Extglob.parse 10 "(" (Fixtures.demo false false)
             = Some (Extglob.Normal a p')
       ∧ Extglob.children p' 3 = Some [2; 4]%nat
       ∧ Extglob.spans p' !! 2%nat
         = Some (Some {| Extglob.start_column := 1; Extglob.end_column := 2 |})
       ∧ Extglob.spans p' !! 3%nat
         = Some (Some {| Extglob.start_column := 1; Extglob.end_column := 2 |}))
  ∧ (∃ a p', Extglob.parse 10 "({)}" (Fixtures.demo false false)
             = Some (Extglob.Normal a p')
       ∧ Extglob.children p' 3 = Some [2; 5; 6]%nat
       ∧ Extglob.children p' 5 = Some [4; 7]%nat
       ∧ Extglob.spans p' !! 7%nat
         = Some (Some {| Extglob.start_column := 4; Extglob.end_column := 5 |})
       ∧ Extglob.spans p' !! 6%nat
         = Some (Some {| Extglob.start_column := 3; Extglob.end_column := 4 |})).
Proof.
  split; [reflexivity|]. split.
  - do 2 eexists. split; [vm_compute; reflexivity|].
    repeat apply conj; vm_compute; reflexivity.
  - do 2 eexists. split; [vm_compute; reflexivity|].
    repeat apply conj; vm_compute; reflexivity.
Qed.

(** C7, amended: in the middleware engine [updatePosition] adds to the
    line count the number of newlines of the fragment, adds the length to
    the column when the fragment has no newline and otherwise sets the
    column to one more than the number of characters after the last
    newline, and never moves the cursor backwards.  The fixed-table engine
    keeps a column only, to which [updatePosition] adds the length of the
    fragment; in every parse that returns, started from a new parser with
    any handlers registered, each span ends where it starts or later and
    not after the cursor, and of two nodes the one created later starts
    where the earlier one ends or later, unless both have the same span (a
    container and its open token). *)
Theorem C7_positions :
  (∀ str len s,
     Snapdragon.lineno (Snapdragon.updatePosition str len s)
     = (Snapdragon.lineno s + Z.of_nat (count_newlines str))%Z)
  ∧ (∀ str len s, Snapdragon.no_newline str →
       Snapdragon.column (Snapdragon.updatePosition str len s)
       = (Snapdragon.column s + len)%Z)
  ∧ (∀ a b s, Snapdragon.no_newline b →
       Snapdragon.column
         (Snapdragon.updatePosition (a +:+ String "010" b)
            (Z.of_nat (String.length (a +:+ String "010" b))) s)
       = (1 + Z.of_nat (String.length b))%Z)
  ∧ (∀ str len s, (0 ≤ len)%Z →
       Snapdragon.pos_le (Snapdragon.position s)
         (Snapdragon.position (Snapdragon.updatePosition str len s)))
  ∧ (∀ str len p,
       Extglob.column (Extglob.state_of (Extglob.updatePosition str len p))
       = (Extglob.column p + Z.of_nat len)%Z)
  ∧ (∀ o, Extglob.PosInv (Extglob.new_Parser o))
  ∧ (∀ type fn p, Extglob.PosInv p → Extglob.PosInv (Extglob.set type fn p))
  ∧ (∀ fuel str p a p',
       Extglob.parse fuel str p = Some (Extglob.Normal a p') →
       Extglob.PosInv p → Extglob.PosInv p').
Proof.
  repeat apply conj.
  - apply updatePosition_lineno.
  - apply updatePosition_column_same_line.
  - apply updatePosition_column_new_line.
  - apply updatePosition_monotone.
  - done.
  - apply PosInv_new.
  - intros type fn p. by apply PosInv_ext.
  - apply parse_PosInv.
Qed.

(** C7, amended, on examples: the middleware engine after consuming
    ["ab"], a newline and ["c"] from line 1, column 1; and the fixed-table
    engine after [parse("(a)")]. *)
Lemma C7_positions_witness :
  let s0 := Snapdragon.state (Snapdragon.new_Parser None) in
  let str := "ab" +:+ String "010" "c" in
  Snapdragon.column (Snapdragon.updatePosition "ab" 2 s0) = 3%Z
  ∧ Snapdragon.column
      (Snapdragon.updatePosition str (Z.of_nat (String.length str)) s0) = 2%Z
  ∧ Snapdragon.pos_le (Snapdragon.position s0)
      (Snapdragon.position (Snapdragon.updatePosition str 4 s0))
  ∧ ∃ a p', Extglob.parse 10 "(a)" (Fixtures.demo false false)
            = Some (Extglob.Normal a p')
            ∧ Extglob.PosInv p'.
Proof.
  intros s0 str.
  destruct C7_positions as (_ & H2 & H3 & H4 & _ & H6 & H7 & H8).
  split; [|split; [|split]].
  - apply (H2 "ab" 2%Z s0). reflexivity.
  - apply (H3 "ab" "c" s0). reflexivity.
  - apply (H4 str 4%Z s0). lia.
  - do 2 eexists. split; [vm_compute; reflexivity|].
    eapply (H8 10%nat "(a)" (Fixtures.demo false false)).
    + vm_compute. reflexivity.
    + unfold Fixtures.demo, Extglob.capture, Extglob.pair.
      repeat apply H7. apply H6.
Defined.

End PositionSpec.

(** * The original-text buffer and the type of the input *)

Module BufferSpec.
Import JsFacts ExtglobFacts.

Section Middleware.
Context (thrown : Type) (error : string → Snapdragon.State → thrown * Snapdragon.State).
Hypothesis error_keeps_original :
  ∀ msg s, Snapdragon.original (error msg s).2 = Snapdragon.original s.

Lemma run_from_original fs idx s :
  Forall Snapdragon.keeps_original fs →
  Snapdragon.original (Snapdragon.state_of (Snapdragon.run_from thrown error fs idx s))
  = Snapdragon.original s.
Proof.
  intros Hfs. revert idx s. induction Hfs as [|fn fs Hfn _ IH]; intros idx s; [done|].
  simpl. specialize (Hfn (Snapdragon.input s) idx s).
  destruct (fn (Snapdragon.input s) idx s) as [[node|] s'|msg s']; simpl in *.
  - done.
  - by rewrite IH.
  - by rewrite error_keeps_original.
Qed.

Lemma parse_loop_original fuel fs s r :
  Forall Snapdragon.keeps_original fs →
  Snapdragon.parse_loop thrown error fuel fs s = Some r →
  Snapdragon.original (Snapdragon.state_of r) = Snapdragon.original s.
Proof.
  intros Hfs. revert s. induction fuel as [|fuel IH]; intros s; simpl.
  - case_bool_decide; [|done]. by intros [= <-].
  - case_bool_decide; [by intros [= <-]|].
    pose proof (run_from_original fs 0 s Hfs) as Hrun. unfold Snapdragon.run.
    destruct (Snapdragon.run_from thrown error fs 0 s) as [[node|] s'|e s'];
      simpl in Hrun.
    + intros Hr%IH. by rewrite Hr.
    + by intros [= <-].
    + by intros [= <-].
Qed.

Lemma parse_original fuel str p r :
  Forall Snapdragon.keeps_original (Snapdragon.fns p) →
  Snapdragon.parse thrown error fuel (Snapdragon.VString str) p = Some r →
  Snapdragon.original (Snapdragon.state_of r)
  = Snapdragon.original (Snapdragon.state p) +:+ str.
Proof.
  intros Hfs. unfold Snapdragon.parse. simpl.
  intros H. by apply parse_loop_original in H.
Qed.

End Middleware.

Lemma parse_orig fuel str p a p' :
  Extglob.parse fuel str p = Some (Extglob.Normal a p') →
  Extglob.orig p' = Some str.
Proof.
  intros (p2 & Hloop & Hend)%parse_inv.
  apply parse_loop_progress in Hloop as [[[_ _ _ _ _ _ _ _ Ho _] _ _ _ _] _].
  apply parse_end_inv in Hend as (v & Heos & _).
  apply eos_built in Heos as [[_ _ _ _ _ _ _ _ Ho' _] _ _ _ _].
  by rewrite Ho', Ho.
Qed.

Lemma any_char_keeps_original : Snapdragon.keeps_original Fixtures.any_char.
Proof.
  intros inp idx s. unfold Fixtures.any_char, Snapdragon.match_.
  destruct (Snapdragon.input s); [done|]. simpl.
  unfold Snapdragon.advance, Snapdragon.updatePosition. simpl.
  by repeat case_bool_decide.
Qed.

(** C9, as stated, fails for the fixed-table engine, whose [parse] assigns
    [orig] instead of appending to it: after [parse("a")] and then
    [parse("b")] on one instance, [orig] is ["b"]. *)
Lemma C9_fixed_table_counterexample :
  ∃ a1 p1 a2 p2,
    Extglob.parse 5 "a" (Fixtures.demo false false) = Some (Extglob.Normal a1 p1)
    ∧ Extglob.parse 5 "b" p1 = Some (Extglob.Normal a2 p2)
    ∧ Extglob.orig p2 = Some "b"
    ∧ Extglob.orig p2 ≠ Some "ab".
Proof.
  do 4 eexists. split; [vm_compute; reflexivity|].
  split; [vm_compute; reflexivity|]. split; [reflexivity|done].
Qed.

(** C9, amended: in the middleware engine, with middleware functions and
    an error reporter that do not assign [original], every call of [parse]
    with a string appends it to [original], whether the call returns or
    throws: after [parse(a)] and then [parse(b)] on one instance,
    [original] is what it was before, followed by [a] and by [b]; on a new
    instance that is [a] followed by [b].  In the fixed-table engine every
    call of [parse] that returns leaves its own input in [orig]. *)
Theorem C9_original_appended :
  (∀ (thrown : Type) (error : string → Snapdragon.State → thrown * Snapdragon.State)
     p a b fuel1 fuel2 r1 r2,
     (∀ msg s, Snapdragon.original (error msg s).2 = Snapdragon.original s) →
     Forall Snapdragon.keeps_original (Snapdragon.fns p) →
     Snapdragon.parse thrown error fuel1 (Snapdragon.VString a) p = Some r1 →
     Snapdragon.parse thrown error fuel2 (Snapdragon.VString b)
       (Snapdragon.with_state (Snapdragon.state_of r1) p) = Some r2 →
     Snapdragon.original (Snapdragon.state_of r2)
     = Snapdragon.original (Snapdragon.state p) +:+ a +:+ b
     ∧ (Snapdragon.original (Snapdragon.state p) = "" →
        Snapdragon.original (Snapdragon.state_of r2) = a +:+ b))
  ∧ (∀ fuel str p a p',
       Extglob.parse fuel str p = Some (Extglob.Normal a p') →
       Extglob.orig p' = Some str).
Proof.
  split; [|apply parse_orig].
  intros thrown error p a b fuel1 fuel2 r1 r2 Herr Hfs H1 H2.
  apply (parse_original thrown error Herr) in H1; [|done].
  apply (parse_original thrown error Herr) in H2; [|done].
  simpl in H2. rewrite H2, H1, append_assoc. split; [done|]. by intros ->.
Qed.

(** C9, amended, on an example: [parse("ab")] and then [parse("c")] on a
    new middleware parser that reads one character at a time. *)
Lemma C9_original_appended_witness :
  ∃ r1 r2,
    Snapdragon.parse string Fixtures.throw_message 5 (Snapdragon.VString "ab")
      (Snapdragon.use Fixtures.any_char (Snapdragon.new_Parser None)) = Some r1
    ∧ Snapdragon.parse string Fixtures.throw_message 5 (Snapdragon.VString "c")
        (Snapdragon.with_state (Snapdragon.state_of r1)
           (Snapdragon.use Fixtures.any_char (Snapdragon.new_Parser None))) = Some r2
    ∧ Snapdragon.original (Snapdragon.state_of r2) = "abc".
Proof.
  do 2 eexists. split; [vm_compute; reflexivity|].
  split; [vm_compute; reflexivity|].
  destruct C9_original_appended as [H _].
  eapply (H string Fixtures.throw_message
            (Snapdragon.use Fixtures.any_char (Snapdragon.new_Parser None))
            "ab" "c" 5%nat 5%nat).
  - done.
  - repeat constructor. apply any_char_keeps_original.
  - vm_compute. reflexivity.
  - vm_compute. reflexivity.
  - reflexivity.
Defined.

(** C10: [parse] of the middleware engine, called with a value that is not
    a string, throws the [TypeError] "expected a string" and leaves every
    property of the instance as it was. *)
Theorem C10_parse_expects_string
    (thrown : Type) (error : string → Snapdragon.State → thrown * Snapdragon.State)
    fuel v p :
  Snapdragon.typeof v ≠ "string" →
  Snapdragon.parse thrown error fuel v p
  = Some (Snapdragon.Thrown (Snapdragon.TypeError "expected a string")
            (Snapdragon.state p)).
Proof.
  intros H. unfold Snapdragon.parse. by rewrite bool_decide_eq_true_2.
Qed.

(** C10, on an example: [parse(42)]. *)
Lemma C10_parse_expects_string_witness :
  Snapdragon.parse string Fixtures.throw_message 5 (Snapdragon.VNumber 42)
    (Snapdragon.use Fixtures.any_char (Snapdragon.new_Parser None))
  = Some (Snapdragon.Thrown (Snapdragon.TypeError "expected a string")
            (Snapdragon.state (Snapdragon.new_Parser None))).
Proof.
  apply (C10_parse_expects_string string Fixtures.throw_message 5
           (Snapdragon.VNumber 42)
           (Snapdragon.use Fixtures.any_char (Snapdragon.new_Parser None))).
  simpl. discriminate.
Defined.

End BufferSpec.

(** * The renderer *)

Module RendererSpec.
Import Renderer JsFacts.

Section Engine.
Context (thrown : Type) (error : string → State → thrown * State).
Context (renderers : gmap string (render_fn thrown)).

Lemma quiet_thrown {A B} e s :
  quiet (Thrown e s : outcome thrown A) → quiet (Thrown e s : outcome thrown B).
Proof. intros H n v s0 [= -> ->]. by eapply H. Qed.

Lemma quiet_mapVisit_from visit all rest i buf s :
  (∀ n j s', n ∈ rest → quiet (visit n all j s')) →
  quiet (mapVisit_from thrown visit all rest i buf s).
Proof.
  revert i buf s. induction rest as [|n rest IH]; intros i buf s Hv; simpl.
  - by intros ???.
  - destruct (visit n all i s) as [str s'|e s'] eqn:E.
    + apply IH. intros n' j s'' Hn'. apply Hv. by right.
    + apply (quiet_thrown (A := jsv)). rewrite <- E. apply Hv. by left.
Qed.


Lemma forallb_elem_of (f : Node → bool) l n :
  forallb f l = true → n ∈ l → f n = true.
Proof.
  rewrite forallb_forall. intros H Hn. apply H. by apply list_elem_of_In.
Qed.



(** A kind that names a function inherited from [Object.prototype] is not
    reported: the function is called, and what it gives is the result of
    [visit]. *)
Lemma visit_inherited depth node nodes i s len c :
  renderers !! n_type node = None →
  object_prototype (n_type node) = Some (InheritedFunction len c) →
  visit thrown error renderers depth node nodes i s
  = match c with
    | Returns v => Normal v s
    | Raises => Thrown RuntimeTypeError s
    end.
Proof.
  intros H Hi. destruct node as [type val ns]. cbn [n_type] in H, Hi.
  destruct depth; cbn [visit n_type]; unfold read; rewrite H, Hi; by destruct c.
Qed.

Lemma visit_registered depth node nodes i s (fn : render_fn thrown) :
  renderers !! n_type node = Some fn →
  visit thrown error renderers (S depth) node nodes i s
  = match fn {| this_emit := emit;
                this_visit := visit thrown error renderers depth;
                this_mapVisit := mapVisit_with thrown (visit thrown error renderers depth) |}
            node nodes i s with
    | Normal str s' => Normal str s'
    | Thrown e s' => Thrown e s'
    end.
Proof.
  intros H. destruct node as [type val ns]. cbn [n_type] in H.
  cbn [visit n_type]. unfold read. by rewrite H.
Qed.




End Engine.


Lemma registered_children {thrown} (rs : gmap string (render_fn thrown)) node ns :
  registered rs node = true → n_nodes node = Some ns →
  forallb (registered rs) ns = true.
Proof.
  destruct node as [type val [l|]]; simpl; [|done].
  intros [_ H]%andb_true_iff [= <-]. done.
Qed.


Lemma faithful_visit_children {thrown} (rs : gmap string (render_fn thrown)) :
  faithful rs visit_children.
Proof.
  intros this node nodes i s Hvisit _ Hnode _. unfold visit_children.
  destruct (n_nodes node) as [ns|] eqn:Hns; [|by intros ???].
  assert (quiet (mapVisit_from thrown (this_visit thrown this) ns ns 0 "" s)) as Hq.
  { apply quiet_mapVisit_from. intros n j s' Hn.
    pose proof (registered_children rs node ns Hnode Hns) as Hall.
    apply Hvisit; [|done]. by eapply forallb_elem_of. }
  destruct (mapVisit_from _ _ _ _ _ _ _) as [buf s'|e s']; [by intros ???|].
  revert Hq. apply quiet_thrown.
Qed.


(** ** What rendering with [Fixtures.verbatim] returns and accumulates *)

Section Verbatim.
Context (thrown : Type) (error : string → State → thrown * State).

Lemma text_container type val l :
  Fixtures.is_container type = true →
  Fixtures.text (mkNode type val (Some l)) = Fixtures.text_list l.
Proof.
  intros H. simpl. by rewrite H.
Qed.

Lemma extra_container type val l :
  Fixtures.is_container type = true →
  Fixtures.extra (mkNode type val (Some l)) = Fixtures.extra_list l +:+ Fixtures.text_list l.
Proof.
  intros H. simpl. by rewrite H.
Qed.

Lemma verbatim_token type :
  Fixtures.is_container type = false → Fixtures.is_token type = true →
  (Fixtures.verbatim (thrown := thrown)) !! type = Some emit_val.
Proof.
  intros _ H. apply bool_decide_eq_true in H.
  repeat (apply elem_of_cons in H as [->|H]; [vm_compute; reflexivity|]).
  by apply elem_of_nil in H.
Qed.

Lemma verbatim_container type :
  Fixtures.is_container type = true →
  (Fixtures.verbatim (thrown := thrown)) !! type = Some map_children.
Proof.
  intros H. apply bool_decide_eq_true in H.
  repeat (apply elem_of_cons in H as [->|H]; [vm_compute; reflexivity|]).
  by apply elem_of_nil in H.
Qed.

Lemma append_empty_l s : "" +:+ s = s.
Proof. done. Qed.

Lemma set_rendered_id s : set_rendered (rendered s +:+ "") s = s.
Proof. destruct s. unfold set_rendered. simpl. by rewrite append_empty_r. Qed.

Lemma set_rendered_twice a b s :
  set_rendered (rendered (set_rendered a s) +:+ b) (set_rendered a s)
  = set_rendered (a +:+ b) s.
Proof. done. Qed.

Lemma to_str_of_val o : to_str (of_val o) = show o.
Proof. by destruct o. Qed.

(** The loop of [mapVisit], given what [visit] does for each element. *)
Lemma mapVisit_from_text visit all rest i buf s :
  (∀ n j s', n ∈ rest →
     ∃ v, visit n all j s'
          = Normal v (set_rendered (rendered s' +:+ Fixtures.extra n) s')
          ∧ to_str v = Fixtures.text n) →
  mapVisit_from thrown visit all rest i buf s
  = Normal (buf +:+ Fixtures.text_list rest)
      (set_rendered (rendered s +:+ Fixtures.extra_list rest) s).
Proof.
  revert i buf s. induction rest as [|n rest IH]; intros i buf s Hv; simpl.
  - by rewrite append_empty_r, set_rendered_id.
  - destruct (Hv n i s) as (v & -> & Hstr); [by left|].
    rewrite IH by (intros; apply Hv; by right).
    simpl. by rewrite Hstr, !append_assoc.
Qed.

Lemma need_elem n l : n ∈ l → (Fixtures.need n ≤ Fixtures.need_list l)%nat.
Proof.
  induction 1 as [n l|n m l _ IH]; simpl; lia.
Qed.

Lemma need_container type val l :
  Fixtures.need (mkNode type val (Some l)) = S (Fixtures.need_list l).
Proof. done. Qed.

(** [visit] with the renderers of [verbatim] returns the text of the tree
    and appends to [rendered] the text of every container below it. *)
Lemma visit_text depth n ns i s :
  Fixtures.kinds_ok n = true → (Fixtures.need n ≤ depth)%nat →
  ∃ v, visit thrown error Fixtures.verbatim depth n ns i s
       = Normal v (set_rendered (rendered s +:+ Fixtures.extra n) s)
       ∧ to_str v = Fixtures.text n.
Proof.
  revert n ns i s. induction depth as [|depth IH]; intros n ns i s Hk Hd.
  { destruct n as [type val [l|]]; simpl in Hd; lia. }
  destruct n as [type val nodes].
  destruct (Fixtures.is_container type) eqn:Hc.
  - rewrite (visit_registered thrown error Fixtures.verbatim depth
               (mkNode type val nodes) ns i s map_children (verbatim_container _ Hc)).
    unfold map_children. cbn [this_mapVisit n_nodes].
    simpl in Hk. rewrite Hc in Hk.
    destruct nodes as [l|]; [|done].
    rewrite text_container, extra_container by done.
    rewrite need_container in Hd.
    unfold mapVisit_with.
    rewrite (mapVisit_from_text _ l l 0 "" s).
    { exists (VStr (Fixtures.text_list l)). split; [|done].
      rewrite set_rendered_twice, !append_empty_l. by rewrite append_assoc. }
    intros n j s' Hn. apply IH.
    + by eapply forallb_elem_of.
    + pose proof (need_elem _ _ Hn). lia.
  - simpl in Hk. rewrite Hc in Hk.
    rewrite (visit_registered thrown error Fixtures.verbatim depth
               (mkNode type val nodes) ns i s emit_val (verbatim_token _ Hc Hk)).
    eexists. split.
    + simpl. rewrite Hc. by rewrite set_rendered_id.
    + simpl. rewrite Hc. apply to_str_of_val.
Qed.

(** [mapVisit] returns the text and appends it to [rendered] once more. *)
Lemma mapVisit_text depth l s :
  forallb Fixtures.kinds_ok l = true → (Fixtures.need_list l < depth)%nat →
  mapVisit thrown error Fixtures.verbatim depth (Some l) s
  = Normal (Fixtures.text_list l)
      (set_rendered (rendered s +:+ Fixtures.extra_list l +:+ Fixtures.text_list l) s).
Proof.
  intros Hk Hd. unfold mapVisit, mapVisit_with.
  rewrite (mapVisit_from_text _ l l 0 "" s).
  { rewrite set_rendered_twice, !append_empty_l. by rewrite append_assoc. }
  intros n j s' Hn. apply visit_text.
  - by eapply forallb_elem_of.
  - pose proof (need_elem _ _ Hn). lia.
Qed.

End Verbatim.




(** Outside C8 as amended: a kind that names an inherited function.  With
    the renderers of [Fixtures.verbatim], [visit] of [{type: 'toString',
    val: 'x'}] returns ["[object Object]"] and raises nothing, and of
    [{type: '__defineGetter__'}] throws a [TypeError]. *)
Lemma visit_inherited_example :
  visit string Fixtures.throw_message Fixtures.verbatim 5
    (mkNode "toString" (Some "x") None) [mkNode "toString" (Some "x") None] 0
    new_Renderer
  = Normal (VStr "[object Object]") new_Renderer
  ∧ visit string Fixtures.throw_message Fixtures.verbatim 5
      (mkNode "__defineGetter__" None None) [mkNode "__defineGetter__" None None] 0
      new_Renderer
    = Thrown RuntimeTypeError new_Renderer.
Proof. split; vm_compute; reflexivity. Qed.

(** C1 fails on the code: with render functions that emit the [val] of
    every token and render the children of every container with
    [mapVisit], the text rendered for the AST of ["()"] is ["()()"].
    [parse] returns with both stacks of the tracker empty, and [mapVisit]
    over the children of the root returns ["()"]; but every call of
    [mapVisit], the nested ones as well, appends what it returns to
    [rendered] (lemma [mapVisit_text]), so the children of a container are
    rendered once more for every level they are nested at.  With
    containers that visit their children one by one the text is
    reproduced. *)
Theorem C1_roundtrip_duplicates :
  Fixtures.tracker_after 10 "()"
  = Some ([], Extglob.sets (Extglob.new_Parser (Fixtures.opts false false)))
  ∧ Fixtures.returned Fixtures.verbatim 10 "()" = Some "()"
  ∧ Fixtures.roundtrip Fixtures.verbatim 10 "()" = Some "()()"
  ∧ Fixtures.roundtrip Fixtures.verbatim 10 "(a{b})c" = Some "{b}(a{b})(a{b})c"
  ∧ Fixtures.roundtrip Fixtures.verbatim_visit 10 "(a{b})c" = Some "(a{b})c".
Proof. repeat apply conj; vm_compute; reflexivity. Qed.

End RendererSpec.

(** * Further properties of the code

    ** Strings *)

Module StringFacts.
Import JsFacts.

Lemma string_length_app a b :
  String.length (a +:+ b) = (String.length a + String.length b)%nat.
Proof.
  induction a as [|c a IH]; [done|].
  unfold String.append; fold String.append. simpl. by rewrite IH.
Qed.

Lemma substr_app a b : substr (a +:+ b) (String.length a) = b.
Proof.
  induction a as [|c a IH]; [by rewrite substr_0|].
  unfold String.append; fold String.append. simpl. apply IH.
Qed.

End StringFacts.

(** ** The cursor of the fixed-table parser *)

Module CursorFacts.
Import Extglob JsFacts StringFacts ExtglobFacts StoreFacts.

Lemma call_match_built fn p a p' :
  call fn p = Normal a p' →
  ∃ m p1, match_ (handler_regex fn) p = Normal m p1 ∧ built (column p) p1 p'.
Proof.
  destruct fn; simpl; unfold capture_fn, pair_open_fn, pair_close_fn;
    intros H; rewrite !bind_gets in H;
    apply bind_inv in H as (m & p1 & Hm & H); exists m, p1; (split; [done|]);
    (eapply rel_elim; [|exact H]); repeat built_step.
Qed.

Lemma call_moved fn p a p' :
  call fn p = Normal a p' →
  moved (from_option m0 "" (handler_regex fn (input p))) p p'.
Proof.
  intros H. apply call_match_built in H as (m & p1 & Hm & [_ I P C _]).
  apply match_inv in Hm as (C1 & I1 & P1 & _ & _ & -> & _).
  split; [by rewrite P, P1|rewrite C, C1|rewrite I, I1];
    by destruct (handler_regex fn (input p)).
Qed.

#[global] Instance consumed_refl : Reflexive consumed.
Proof.
  intros p. exists "". split; simpl.
  - by rewrite append_empty_r.
  - lia.
  - by rewrite substr_0.
Qed.

#[global] Instance consumed_trans : Transitive consumed.
Proof.
  intros p q r [s1 [P1 C1 I1]] [s2 [P2 C2 I2]]. exists (s1 +:+ s2). split.
  - by rewrite P2, P1, append_assoc.
  - rewrite C2, C1, string_length_app. lia.
  - by rewrite I2, I1, substr_substr, string_length_app.
Qed.

Lemma next_from_consumed ts : rel consumed (next_from ts).
Proof.
  induction ts as [|t ts IH]; simpl.
  - apply rel_ret; apply _.
  - apply rel_bind; [apply _..|apply rel_gets; apply _|].
    intros [fn|[len [v|]|]|]; [|exact IH|apply rel_throw..].
    apply rel_bind; [apply _..| |done].
    intros p a p' H. eexists. by eapply call_moved.
Qed.

Lemma parse_loop_consumed fuel p a p' :
  parse_loop fuel p = Some (Normal a p') → consumed p p'.
Proof.
  revert p. induction fuel as [|fuel IH]; intros p; simpl.
  - destruct (negb _); [|done]. intros [= _ <-]. reflexivity.
  - destruct (negb _); [intros [= _ <-]; reflexivity|].
    destruct (next p) as [[] q|] eqn:En; [|done].
    destruct (_ && _); [done|]. intros H. etransitivity; [|by eapply IH].
    revert En. unfold next. rewrite bind_gets. apply next_from_consumed.
Qed.

Lemma parse_consumed fuel str p a p' :
  parse fuel str p = Some (Normal a p') →
  ∃ s, parsed p' = parsed p +:+ s
       ∧ column p' = (column p + Z.of_nat (String.length s))%Z
       ∧ (String.length str ≤ String.length s)%nat
       ∧ input p' = "".
Proof.
  intros H. apply parse_inv in H as (p2 & Hl & He).
  pose proof (parse_loop_progress _ _ _ _ Hl) as [_ Hin].
  apply parse_loop_consumed in Hl as [s [P C I]]. simpl in *.
  apply parse_end_inv in He as (v & He & _).
  apply eos_built in He as [_ I' P' C' _].
  exists s. repeat split; try congruence.
  rewrite Hin in I. symmetry in I.
  apply (f_equal String.length) in I. rewrite substr_length in I. simpl in I. lia.
Qed.

Lemma call_taken fn p a p' :
  anchored (handler_regex fn) → call fn p = Normal a p' → taken p p'.
Proof.
  intros Ha H. pose proof (call_moved _ _ _ _ H) as Hm.
  eexists. split; [exact Hm|]. destruct Hm as [_ _ I]. rewrite I.
  destruct (handler_regex fn (input p)) as [m|] eqn:E; simpl.
  - destruct (Ha _ _ E) as [rest Hr]. rewrite Hr at 1. by rewrite Hr, substr_app.
  - by rewrite substr_0.
Qed.

#[global] Instance taken_refl : Reflexive taken.
Proof.
  intros p. exists "". split; [|done]. split; simpl.
  - by rewrite append_empty_r.
  - lia.
  - by rewrite substr_0.
Qed.

#[global] Instance taken_trans : Transitive taken.
Proof.
  intros p q r [s1 [[P1 C1 I1] E1]] [s2 [[P2 C2 I2] E2]].
  exists (s1 +:+ s2). split; [split|].
  - by rewrite P2, P1, append_assoc.
  - rewrite C2, C1, string_length_app. lia.
  - by rewrite I2, I1, substr_substr, string_length_app.
  - by rewrite E1, E2, append_assoc.
Qed.

Lemma anchored_table_frame p q :
  parsers q = parsers p → anchored_table p → anchored_table q.
Proof. unfold anchored_table. by intros ->. Qed.

Lemma next_from_taken ts p a p' :
  anchored_table p → next_from ts p = Normal a p' → taken p p'.
Proof.
  revert p. induction ts as [|t ts IH]; intros p Ht; simpl.
  - intros [= _ <-]. reflexivity.
  - intros H. apply next_from_cons_inv in H as [(fn & v & q & E & Hc & H)|[_ H]];
      [|by apply IH].
    etransitivity; [eapply call_taken; [by eapply Ht|exact Hc]|].
    apply IH; [|done]. eapply anchored_table_frame; [|exact Ht].
    apply call_effect in Hc as [F _ _ _ _]. by destruct F.
Qed.

Lemma parse_loop_taken fuel p a p' :
  anchored_table p → parse_loop fuel p = Some (Normal a p') → taken p p'.
Proof.
  revert p. induction fuel as [|fuel IH]; intros p Ht; simpl.
  - destruct (negb _); [|done]. intros [= _ <-]. reflexivity.
  - destruct (negb _); [intros [= _ <-]; reflexivity|].
    destruct (next p) as [[] q|] eqn:En; [|done].
    destruct (_ && _); [done|]. intros H.
    pose proof (next_progress _ _ _ En) as [F _ _ _ _].
    etransitivity; [|eapply IH; [|exact H]].
    + revert En. unfold next. rewrite bind_gets. by apply next_from_taken.
    + eapply anchored_table_frame; [|exact Ht]. by destruct F.
Qed.

Lemma parse_taken fuel str p a p' :
  anchored_table p → parse fuel str p = Some (Normal a p') →
  parsed p' = parsed p +:+ str
  ∧ column p' = (column p + Z.of_nat (String.length str))%Z
  ∧ input p' = "".
Proof.
  intros Ht H. apply parse_inv in H as (p2 & Hl & He).
  pose proof (parse_loop_progress _ _ _ _ Hl) as [_ Hin].
  apply parse_loop_taken in Hl as [s [[P C I] E]]; [|done]. simpl in *.
  apply parse_end_inv in He as (v & He & _).
  apply eos_built in He as [_ I' P' C' _].
  rewrite Hin, append_empty_r in E. subst s.
  repeat split; congruence.
Qed.

Lemma prefix_split a s : String.prefix a s = true → ∃ rest, s = a +:+ rest.
Proof.
  revert s. induction a as [|c a IH]; intros [|d s]; simpl; try done.
  - by exists "".
  - by exists (String d s).
  - destruct (ascii_dec c d) as [->|]; [|done].
    intros H. destruct (IH _ H) as [rest ->]. by exists rest.
Qed.

Lemma re_lit_anchored lit : anchored (Fixtures.re_lit lit).
Proof.
  intros s m. unfold Fixtures.re_lit.
  destruct (String.prefix lit s) eqn:E; [|done]. intros [= <-]. by apply prefix_split.
Qed.

Lemma take_while_split f s : ∃ rest, s = Fixtures.take_while f s +:+ rest.
Proof.
  induction s as [|c s [rest IH]]; simpl; [by exists ""|].
  destruct (f c); [|by eexists].
  exists rest. unfold String.append; fold String.append. by rewrite <- IH.
Qed.

Lemma re_class_plus_anchored f : anchored (Fixtures.re_class_plus f).
Proof.
  intros s m. unfold Fixtures.re_class_plus.
  destruct (take_while_split f s) as [rest Hr].
  destruct (Fixtures.take_while f s) eqn:E; [done|]. intros [= <-]. by exists rest.
Qed.

Lemma anchored_table_new o : anchored_table (new_Parser o).
Proof. intros t fn. simpl. by rewrite lookup_empty. Qed.

Lemma anchored_table_set type fn p :
  anchored (handler_regex fn) → anchored_table p → anchored_table (set type fn p).
Proof.
  intros Ha Ht t fn'. simpl. rewrite lookup_insert_Some.
  intros [[_ <-]|[_ H]]; [done|by eapply Ht].
Qed.

Lemma demo_anchored sil str : anchored_table (Fixtures.demo sil str).
Proof.
  unfold Fixtures.demo, capture, pair.
  repeat apply anchored_table_set; simpl;
    auto using re_lit_anchored, re_class_plus_anchored, anchored_table_new.
Qed.

(** X1: the cursor column of the fixed-table parser counts the characters
    of [parsed].  [column] is one more than the length of [parsed] on a new
    instance, registering a handler does not change this, and neither does
    a call of [parse] that returns, whatever the handlers match; such a
    call leaves no input and lengthens [parsed] by at least the length of
    the text it was given. *)
Theorem X1_column_counts_parsed :
  (∀ o, in_step (new_Parser o))
  ∧ (∀ type fn p, in_step p → in_step (set type fn p))
  ∧ (∀ fuel str p a p',
       parse fuel str p = Some (Normal a p') → in_step p →
       in_step p' ∧ input p' = ""
       ∧ (String.length (parsed p) + String.length str
          ≤ String.length (parsed p'))%nat).
Proof.
  split; [done|]. split; [done|].
  intros fuel str p a p' H Hs.
  apply parse_consumed in H as (s & P & C & L & I).
  unfold in_step in *. rewrite P, C, Hs, string_length_app. repeat split; [lia|done|lia].
Qed.

(** X1 on an example: [parse("(a)")] with a paren pair, a brace pair and a
    text capture registered. *)
Lemma X1_column_counts_parsed_witness :
  ∃ a p', parse 10 "(a)" (Fixtures.demo false false) = Some (Normal a p')
    ∧ in_step p' ∧ input p' = ""
    ∧ (String.length (parsed (Fixtures.demo false false)) + String.length "(a)"
       ≤ String.length (parsed p'))%nat.
Proof.
  destruct X1_column_counts_parsed as (H1 & H2 & H3).
  do 2 eexists. split; [vm_compute; reflexivity|].
  eapply (H3 10%nat "(a)" (Fixtures.demo false false)).
  - vm_compute. reflexivity.
  - unfold Fixtures.demo, capture, pair. repeat apply H2. apply H1.
Defined.

(** X2: when every registered regular expression matches at the start of
    the input only ([m[0]] is a prefix of the input, as with [^]), a call
    of [parse] that returns has moved exactly its input to [parsed]:
    [parsed] is what it was followed by the input, the column has advanced
    by the length of the input, and no input is left.  Neither [parsed] nor
    [column] is reset between calls: after [parse(a)] and [parse(b)] on the
    same instance [parsed] ends with [a] followed by [b]. *)
Theorem X2_anchored_parse_moves_input :
  (∀ fuel str p a p',
     anchored_table p → parse fuel str p = Some (Normal a p') →
     parsed p' = parsed p +:+ str
     ∧ column p' = (column p + Z.of_nat (String.length str))%Z
     ∧ input p' = "")
  ∧ (∀ fuel1 fuel2 s1 s2 p a1 p1 a2 p2,
       anchored_table p →
       parse fuel1 s1 p = Some (Normal a1 p1) →
       parse fuel2 s2 p1 = Some (Normal a2 p2) →
       parsed p2 = parsed p +:+ s1 +:+ s2
       ∧ column p2
         = (column p + Z.of_nat (String.length s1) + Z.of_nat (String.length s2))%Z).
Proof.
  split; [apply parse_taken|].
  intros fuel1 fuel2 s1 s2 p a1 p1 a2 p2 Ht H1 H2.
  assert (anchored_table p1) as Ht1.
  { eapply anchored_table_frame; [|exact Ht].
    apply parse_inv in H1 as (q & Hl & He).
    apply parse_loop_progress in Hl as [[F _ _ _ _] _].
    apply parse_end_inv in He as (v & He & _).
    apply eos_built in He as [F' _ _ _ _]. destruct F, F'. simpl in *. congruence. }
  apply parse_taken in H1 as (P1 & C1 & _); [|done].
  apply parse_taken in H2 as (P2 & C2 & _); [|done].
  rewrite P2, P1, C2, C1, append_assoc. done.
Qed.

(** X2 on an example: [parse("a")] and then [parse("b")]. *)
Lemma X2_anchored_parse_moves_input_witness :
  ∃ a1 p1 a2 p2,
    parse 5 "a" (Fixtures.demo false false) = Some (Normal a1 p1)
    ∧ parse 5 "b" p1 = Some (Normal a2 p2)
    ∧ (parsed p1 = "a" ∧ column p1 = 2%Z ∧ input p1 = "")
    ∧ (parsed p2 = "ab" ∧ column p2 = 3%Z).
Proof.
  destruct X2_anchored_parse_moves_input as (H1 & H2).
  do 4 eexists. split; [vm_compute; reflexivity|].
  split; [vm_compute; reflexivity|]. split.
  - eapply (H1 5%nat "a" (Fixtures.demo false false));
      [apply demo_anchored|vm_compute; reflexivity].
  - eapply (H2 5%nat 5%nat "a" "b" (Fixtures.demo false false));
      [apply demo_anchored|vm_compute; reflexivity|vm_compute; reflexivity].
Defined.

End CursorFacts.

(** ** Handlers that do not match, and what [parse] leaves alone *)

Module HandlerFacts.
Import Extglob JsFacts ExtglobFacts.

Lemma parser_eta p :
  set_input (input p) (set_parsed (parsed p) (set_column (column p) p)) = p.
Proof. by destruct p. Qed.

Lemma match_none regex p :
  regex (input p) = None → match_ regex p = Normal None p.
Proof. intros H. unfold match_. by rewrite bind_gets, H. Qed.

Lemma match_empty regex p m :
  regex (input p) = Some m → m0 m = "" → match_ regex p = Normal (Some m) p.
Proof.
  intros H E. unfold match_. rewrite bind_gets, H, E.
  unfold bind, updatePosition, bind, consume, modify, ret. simpl.
  rewrite substr_0, append_empty_r, Z.add_0_r. by rewrite parser_eta.
Qed.

Lemma call_no_match fn p :
  handler_regex fn (input p) = None → call fn p = Normal None p.
Proof.
  intros H. destruct fn; simpl in *;
    unfold capture_fn, pair_open_fn, pair_close_fn; rewrite !bind_gets;
    unfold bind at 1; by rewrite (match_none _ _ H).
Qed.

Lemma capture_fn_empty type regex p m :
  regex (input p) = Some m → m0 m = "" → capture_fn type regex p = Normal None p.
Proof.
  intros H E. unfold capture_fn. rewrite !bind_gets. unfold bind at 1.
  by rewrite (match_empty _ _ _ H E), E.
Qed.

Lemma pair_open_fn_empty type regex p m :
  regex (input p) = Some m → m0 m = "" → pair_open_fn type regex p = Normal None p.
Proof.
  intros H E. unfold pair_open_fn. rewrite !bind_gets. unfold bind at 1.
  by rewrite (match_empty _ _ _ H E), E.
Qed.

Lemma next_from_unmatched ts p :
  (∀ t, t ∈ ts → ∃ fn, parsers p !! t = Some fn ∧ handler_regex fn (input p) = None) →
  next_from ts p = Normal tt p.
Proof.
  induction ts as [|t ts IH]; intros H; simpl; [done|].
  destruct (H t) as (fn & Hfn & Hre); [left|].
  rewrite bind_gets. unfold get, read. rewrite Hfn. unfold bind at 1.
  rewrite (call_no_match _ _ Hre). apply IH. intros t' Ht'. apply H. by right.
Qed.

(** X3: a handler whose regular expression does not match has no effect:
    the call returns [undefined] and leaves the instance as it was; the
    same holds for the handlers made by [capture] and for the open handler
    of [pair] when the match is the empty string.  Hence when no registered
    regular expression matches a non-empty input, [parse] throws the error
    that names the first character of the input, with nothing consumed and
    no node made. *)
Theorem X3_no_match_no_effect :
  (∀ fn p, handler_regex fn (input p) = None → call fn p = Normal None p)
  ∧ (∀ type regex p m, regex (input p) = Some m → m0 m = "" →
       capture_fn type regex p = Normal None p
       ∧ pair_open_fn type regex p = Normal None p)
  ∧ (∀ fuel str p, str ≠ "" → unmatched p str →
       parse (S fuel) str p
       = Some (Thrown (Error (new_Error ("no parsers registered for: "
                                           +:+ quoted (charAt0 str))))
                 (set_input str (set_orig (Some str) p)))).
Proof.
  split; [apply call_no_match|]. split.
  - intros type regex p m H E.
    eauto using capture_fn_empty, pair_open_fn_empty.
  - intros fuel str p Hne Hun. unfold parse. simpl.
    apply truthy_spec in Hne. rewrite Hne. simpl.
    unfold next. rewrite bind_gets. rewrite next_from_unmatched by done.
    simpl. rewrite Hne. by rewrite bool_decide_eq_true_2.
Qed.

(** X3 on an example: the text capture of the demo grammar on [")"], an
    empty match, and [parse("a")] with the paren pair only. *)
Lemma X3_no_match_no_effect_witness :
  let p := set_input ")" (Fixtures.demo false false) in
  call (CaptureFn "text" (Fixtures.re_class_plus Fixtures.is_text)) p = Normal None p
  ∧ capture_fn "any" (λ _, Some {| m0 := ""; m1 := None |}) p = Normal None p
  ∧ parse 1 "a" (Fixtures.parens_only false false)
    = Some (Thrown (Error (new_Error ("no parsers registered for: " +:+ quoted "a")))
              (set_input "a" (set_orig (Some "a") (Fixtures.parens_only false false)))).
Proof.
  intros p. destruct X3_no_match_no_effect as (H1 & H2 & H3).
  split; [|split].
  - apply (H1 (CaptureFn "text" (Fixtures.re_class_plus Fixtures.is_text)) p).
    reflexivity.
  - apply (H2 "any" (λ _, Some {| m0 := ""; m1 := None |}) p {| m0 := ""; m1 := None |});
      reflexivity.
  - apply (H3 0%nat "a" (Fixtures.parens_only false false)); [done|].
    intros t Ht. vm_compute in Ht.
    apply elem_of_cons in Ht as [->|Ht]; [by eexists|].
    apply elem_of_cons in Ht as [->|Ht]; [by eexists|].
    by apply elem_of_nil in Ht.
Defined.

Lemma register_keeps regs p :
  ast (register regs p) = ast p ∧ errors (register regs p) = errors p
  ∧ store (register regs p) = store p ∧ stack (register regs p) = stack p
  ∧ nodes (register regs p) = nodes p ∧ options (register regs p) = options p
  ∧ sets (register regs p) = sets p ∧ append (register regs p) = append p
  ∧ column (register regs p) = column p ∧ parsed (register regs p) = parsed p.
Proof.
  revert p. induction regs as [|r regs IH]; intros p; [done|].
  simpl. destruct (IH (set r.1 r.2 p)) as (?&?&?&?&?&?&?&?&?&?).
  by repeat split.
Qed.

Lemma parse_frame fuel str p a p' :
  parse fuel str p = Some (Normal a p') →
  frame (set_input str (set_orig (Some str) p)) p' ∧ a = ast p.
Proof.
  intros H. apply parse_inv in H as (p2 & Hl & He).
  apply parse_loop_progress in Hl as [[F _ _ _ _] _].
  apply parse_end_inv in He as (v & He & ->).
  apply eos_built in He as [F' _ _ _ _].
  pose proof (frame_trans _ _ _ F F') as F2. split; [done|].
  by destruct F2.
Qed.

(** X4: a call of [parse] that returns gives back the root object that the
    instance was created with, records no error and changes neither the
    options nor the registered handlers; on a new instance the error list
    that [ast.errors] refers to is therefore empty after it. *)
Theorem X4_parse_keeps_registrations :
  (∀ fuel str p a p',
     parse fuel str p = Some (Normal a p') →
     a = ast p ∧ ast p' = ast p ∧ bos p' = bos p ∧ nodes p' = nodes p
     ∧ errors p' = errors p ∧ options p' = options p
     ∧ parsers p' = parsers p ∧ types p' = types p ∧ fns p' = fns p)
  ∧ (∀ fuel str o regs a p',
       parse fuel str (register regs (new_Parser o)) = Some (Normal a p') →
       a = 1%nat ∧ errors p' = []).
Proof.
  split.
  - intros fuel str p a p' H. apply parse_frame in H as [[] ->]. by repeat split.
  - intros fuel str o regs a p' H. apply parse_frame in H as [[] ->].
    simpl in *.
    destruct (register_keeps regs (new_Parser o)) as (Ha & He & _).
    simpl in Ha, He. split; congruence.
Qed.

(** X4 on an example: [parse("(a)")] in the demo grammar. *)
Lemma X4_parse_keeps_registrations_witness :
  let p := Fixtures.demo false false in
  ∃ a p', parse 10 "(a)" p = Some (Normal a p')
    ∧ (a = ast p ∧ ast p' = ast p ∧ bos p' = bos p ∧ nodes p' = nodes p
       ∧ errors p' = errors p ∧ options p' = options p
       ∧ parsers p' = parsers p ∧ types p' = types p ∧ fns p' = fns p).
Proof.
  intros p. destruct X4_parse_keeps_registrations as (H1 & _).
  do 2 eexists. split; [vm_compute; reflexivity|].
  apply (H1 10%nat "(a)" p). vm_compute. reflexivity.
Defined.

End HandlerFacts.

(** ** The empty input *)

Module EdgeFacts.
Import Extglob JsFacts ExtglobFacts HandlerFacts.

Lemma parse_loop_empty fuel p : input p = "" → parse_loop fuel p = Some (Normal tt p).
Proof. intros H. destruct fuel; simpl; by rewrite H. Qed.

(** X5: parsing the empty string calls no handler.  On a new instance,
    whatever the options, the registered handlers and the bound on the
    passes, [parse('')] returns the root with the children [bos] and [eos];
    the [eos] node has the empty [val] and the span from column 1 to
    column 1; nothing is parsed and no container is open. *)
Theorem X5_parse_empty_input o regs fuel :
  ∃ p', parse fuel "" (register regs (new_Parser o)) = Some (Normal 1%nat p')
    ∧ children p' 1 = Some [0; 2]%nat
    ∧ n_type <$> store p' !! 0%nat = Some "bos"
    ∧ store p' !! 2%nat
      = Some (with_position {| start_column := 1; end_column := 1 |} (Some "")
                (with_val "" (blank "eos")))
    ∧ length (store p') = 3%nat
    ∧ stack p' = [] ∧ parsed p' = "" ∧ column p' = 1%Z ∧ input p' = "".
Proof.
  set (p0 := register regs (new_Parser o)).
  destruct (register_keeps regs (new_Parser o))
    as (Ha & He & Hst & Hsk & Hn & Ho & Hse & Hap & Hc & Hp).
  fold p0 in Ha, He, Hst, Hsk, Hn, Ho, Hse, Hap, Hc, Hp. simpl in *.
  set (p1 := set_input "" (set_orig (Some "") p0)).
  unfold parse. fold p1. rewrite parse_loop_empty by done.
  rewrite parse_end_lenient by (by left).
  unfold bind.
  rewrite (eos_success p1 1%nat (with_nodes [0%nat] (blank "root")) [0%nat]);
    [|done|unfold prev; simpl; by rewrite Hsk, Hn|simpl; by rewrite Hst|done].
  eexists. split; [unfold gets; simpl; by rewrite Ha|].
  unfold children, eos_literal, append_or_empty. simpl.
  rewrite Hst, Hap, Hc, Hsk, Hp. simpl. done.
Qed.

End EdgeFacts.

(** ** Pairs of a kind without a stack *)

Module KindFacts.
Import Extglob JsFacts ExtglobFacts StoreFacts HandlerFacts.

Lemma pair_open_fn_unknown type regex p m :
  sets p !! type = None → regex (input p) = Some m → m0 m ≠ "" →
  ∃ p', pair_open_fn type regex p = Thrown RuntimeTypeError p'.
Proof.
  intros Hs Hm Hne. unfold pair_open_fn. rewrite !bind_gets.
  unfold bind at 1. rewrite (match_matched _ _ _ Hm). unfold matched.
  apply truthy_spec in Hne. rewrite Hne. simpl.
  unfold bind, gets, modify, pos, alloc, ret. simpl.
  erewrite define_parent_eq by (simpl; apply lookup_end).
  erewrite define_parent_eq.
  2:{ simpl. rewrite list_lookup_insert_ne by (rewrite length_app; simpl; lia).
      rewrite lookup_app_l by (rewrite length_app; simpl; lia).
      apply lookup_end. }
  unfold push, bind, modify. simpl. rewrite Hs. by eexists.
Qed.

Lemma pair_close_fn_unknown type regex p m :
  sets p !! type = None → regex (input p) = Some m →
  ∃ p', pair_close_fn type regex p = Thrown RuntimeTypeError p'.
Proof.
  intros Hs Hm. rewrite (pair_close_fn_matched _ _ _ _ Hm).
  unfold bind at 1. unfold pop, bind, modify. simpl. rewrite Hs. by eexists.
Qed.

Lemma append_inj_r a b c : a +:+ b = a +:+ c → b = c.
Proof.
  induction a as [|x a IH]; [done|].
  unfold String.append; fold String.append. intros [= H]. by apply IH.
Qed.

Lemma new_Parser_unknown_kind o type :
  type ∉ builtin_kinds → sets (new_Parser o) !! type = None.
Proof.
  intros H. simpl. unfold builtin_kinds in H.
  rewrite !not_elem_of_cons in H.
  rewrite !lookup_insert_None, lookup_singleton_None.
  destruct H as (?&?&?&?&?&_). repeat split; congruence.
Qed.

(** X6: only the kinds [single], [double], [bracket], [brace] and [paren]
    have a stack.  For any other kind the open handler that [pair]
    registers throws a [TypeError] as soon as its regular expression has a
    non-empty match, and the close handler as soon as its regular
    expression matches: [push] and [pop] call a method of [sets[type]]
    that does not exist.  [isInside] throws as well where [sets[type]] is
    [undefined]; for the name of a member that [sets] inherits it answers
    instead, [true] for [constructor] and [false] for [toString].  So
    [parse], on a new instance with such a pair, throws a [TypeError] on
    every non-empty input that the open regular expression matches. *)
Theorem X6_pair_of_unknown_kind :
  (∀ o type, type ∉ builtin_kinds → sets (new_Parser o) !! type = None)
  ∧ (∀ type regex p m,
       sets p !! type = None → regex (input p) = Some m → m0 m ≠ "" →
       ∃ p', pair_open_fn type regex p = Thrown RuntimeTypeError p')
  ∧ (∀ type regex p m,
       sets p !! type = None → regex (input p) = Some m →
       ∃ p', pair_close_fn type regex p = Thrown RuntimeTypeError p')
  ∧ (∀ type p,
       sets p !! type = None → object_prototype type = None →
       isInside type p = Thrown RuntimeTypeError p)
  ∧ (∀ o, isInside "constructor" (new_Parser o) = Normal true (new_Parser o)
          ∧ isInside "toString" (new_Parser o) = Normal false (new_Parser o))
  ∧ (∀ o type openRegex closeRegex fuel str m,
       type ∉ builtin_kinds → str ≠ "" → openRegex str = Some m → m0 m ≠ "" →
       ∃ p', parse (S fuel) str (pair type openRegex closeRegex (new_Parser o))
             = Some (Thrown RuntimeTypeError p')).
Proof.
  split; [apply new_Parser_unknown_kind|].
  split; [apply pair_open_fn_unknown|].
  split; [apply pair_close_fn_unknown|].
  split.
  { intros type p H Hi. unfold isInside, read. by rewrite H, Hi. }
  split; [by intros o|].
  intros o type openRegex closeRegex fuel str m Hk Hne Hm Hm0.
  unfold parse. simpl. apply truthy_spec in Hne. rewrite Hne. simpl.
  unfold next. rewrite bind_gets. simpl types.
  rewrite (next_from_own _ _ _ (PairOpenFn type openRegex)).
  2:{ simpl. rewrite lookup_insert_ne by (intros E; by apply append_inj_r in E).
      apply lookup_insert_eq. }
  unfold bind at 1. simpl.
  edestruct (pair_open_fn_unknown type openRegex) as [p' ->]; [|exact Hm|exact Hm0|].
  - by apply new_Parser_unknown_kind.
  - by eexists.
Qed.

(** X6 on an example: a pair of kind [angle]. *)
Lemma X6_pair_of_unknown_kind_witness :
  sets (new_Parser (Fixtures.opts false false)) !! "angle" = None
  ∧ ∃ p', parse 1 "<a>"
            (pair "angle" (Fixtures.re_lit "<") (Fixtures.re_lit ">")
               (new_Parser (Fixtures.opts false false)))
          = Some (Thrown RuntimeTypeError p').
Proof.
  destruct X6_pair_of_unknown_kind as (H1 & _ & _ & _ & _ & H5).
  assert ("angle" ∉ builtin_kinds) as Hk
    by (apply (bool_decide_unpack _); vm_compute; exact I).
  split.
  - by apply (H1 (Fixtures.opts false false) "angle").
  - apply (H5 (Fixtures.opts false false) "angle" (Fixtures.re_lit "<")
             (Fixtures.re_lit ">") 0%nat "<a>" {| m0 := "<"; m1 := None |});
      [done|done|reflexivity|done].
Defined.

End KindFacts.

(** ** The order of the handlers in a pass *)

Module PassFacts.
Import Extglob JsFacts ExtglobFacts StoreFacts HandlerFacts.

Lemma next_from_app ts ts' p :
  next_from (ts ++ ts') p = bind (next_from ts) (λ _, next_from ts') p.
Proof.
  revert p. induction ts as [|t ts IH]; intros p; [reflexivity|].
  simpl. unfold bind, gets in *.
  destruct (get t p) as [fn|[len [v|]|]|]; [|apply IH|done..].
  destruct (call fn p) as [v q|]; [|done]. apply IH.
Qed.

Lemma bind_ext_normal {A B} (c : M A) (k k' : A → M B) p :
  (∀ a q, c p = Normal a q → k a q = k' a q) → bind c k p = bind c k' p.
Proof. intros H. unfold bind. destruct (c p); auto. Qed.

Lemma next_from_parsers ts p a p' :
  next_from ts p = Normal a p' → parsers p' = parsers p.
Proof. intros H. apply next_from_progress in H as [F _ _ _ _]. by destruct F. Qed.

Lemma call_parsers fn p a p' : call fn p = Normal a p' → parsers p' = parsers p.
Proof. intros H. apply call_effect in H as [F _ _ _ _]. by destruct F. Qed.

Lemma next_from_one t fn p :
  parsers p !! t = Some fn →
  next_from [t] p = bind (call fn) (λ _, ret tt) p.
Proof. intros H. simpl. rewrite bind_gets. unfold get, read. by rewrite H. Qed.

(** X7: [next] calls the handlers in the order of registration, every one
    of them in every pass.  A handler registered with [set] runs after
    those registered before it.  Registering a kind a second time replaces
    the function but lists the kind once more: each pass then calls the
    second function twice, and the first never. *)
Theorem X7_registration_order type f g p :
  next (set type f p)
  = bind (next_from (types p)) (λ _, bind (call f) (λ _, ret tt)) (set type f p)
  ∧ types (set type g (set type f p)) = types p ++ [type; type]
  ∧ get type (set type g (set type f p)) = Own g
  ∧ next (set type g (set type f p))
    = bind (next_from (types p))
        (λ _, bind (call g) (λ _, bind (call g) (λ _, ret tt)))
        (set type g (set type f p)).
Proof.
  split; [|split; [|split]].
  - unfold next. rewrite bind_gets. simpl types. rewrite next_from_app.
    apply bind_ext_normal. intros [] q E.
    apply next_from_one. rewrite (next_from_parsers _ _ _ _ E). simpl.
    apply lookup_insert_eq.
  - simpl. by rewrite <- app_assoc.
  - unfold get, read. simpl. by rewrite lookup_insert_eq.
  - unfold next. rewrite bind_gets. simpl types.
    rewrite <- app_assoc. simpl app. rewrite next_from_app.
    apply bind_ext_normal. intros [] q E.
    assert (parsers q !! type = Some g) as Hq.
    { rewrite (next_from_parsers _ _ _ _ E). simpl. apply lookup_insert_eq. }
    rewrite (next_from_own _ _ _ _ Hq).
    apply bind_ext_normal. intros v q' E'.
    apply next_from_one. by rewrite (call_parsers _ _ _ _ E').
Qed.

End PassFacts.

(** ** The sizes of the nesting tracker *)

Module DepthFacts.
Import Extglob JsFacts ExtglobFacts StoreFacts HandlerFacts.

#[global] Instance same_tracker_refl : Reflexive same_tracker.
Proof. by intros p. Qed.

#[global] Instance same_tracker_trans : Transitive same_tracker.
Proof. intros p q r (?&?&?) (?&?&?). repeat split; congruence. Qed.

#[global] Instance keeps_refl I : Reflexive (keeps I).
Proof. intros p H. exact H. Qed.

#[global] Instance keeps_trans I : Transitive (keeps I).
Proof. intros p q r H1 H2 H. apply H2, H1, H. Qed.

Lemma same_tracker_alloc n : rel same_tracker (alloc n).
Proof. by intros p a p' [= _ <-]. Qed.

Lemma same_tracker_pos start n : rel same_tracker (pos start n).
Proof. by intros p a p' [= _ <-]. Qed.

Lemma same_tracker_define_parent node parent :
  rel same_tracker (define_parent node parent).
Proof.
  intros p a p'. unfold define_parent. destruct (store p !! node); [|done].
  by intros [= _ <-].
Qed.

Lemma same_tracker_nodes_push target child :
  rel same_tracker (nodes_push target child).
Proof.
  intros p a p'. unfold nodes_push. repeat case_match; try done.
  by intros [= _ <-].
Qed.

Lemma same_tracker_match regex : rel same_tracker (match_ regex).
Proof.
  intros p a p' H. apply match_inv in H as (_&_&_&_&_&_&?&?&_&?). done.
Qed.

Lemma open_total_insert (m : gmap string (list nat)) k l l' :
  m !! k = Some l →
  (map_fold (λ _ l n, length l + n) 0 (<[k := l']> m) + length l
   = map_fold (λ _ l n, length l + n) 0 m + length l')%nat.
Proof.
  intros H. rewrite <- (insert_delete_id m k l H) at 2.
  rewrite <- (insert_delete_eq m k l').
  rewrite !map_fold_insert_L; try (by rewrite lookup_delete_eq); [lia|..];
    intros; lia.
Qed.

Lemma balanced_same p p' : same_tracker p p' → balanced p → balanced p'.
Proof. unfold balanced, open_total. by intros (-> & -> & ->). Qed.

Lemma balanced_push type token : rel (keeps balanced) (push type token).
Proof.
  intros p a p'. unfold push, bind, modify. simpl.
  destruct (sets p !! type) as [l|] eqn:E; [|done]. intros [= _ <-] [Hc Hs].
  unfold balanced, open_total in *. simpl.
  pose proof (open_total_insert _ _ _ (l ++ [token]) E) as Hi.
  rewrite !length_app in *. simpl in *. lia.
Qed.

Lemma balanced_pop type p a p' l o :
  sets p !! type = Some (l ++ [o]) → pop type p = Normal a p' →
  balanced p → balanced p'.
Proof.
  unfold pop, bind, modify. simpl. intros E. rewrite E. intros [= _ <-] [Hc Hs].
  unfold balanced, open_total in *. simpl.
  pose proof (open_total_insert _ _ _ (removelast (l ++ [o])) E) as Hi.
  rewrite removelast_last in *. rewrite !length_app in *. simpl in *.
  destruct (stack p) as [|x s] eqn:Es using rev_ind; [simpl in *; lia|].
  rewrite removelast_last, length_app in *. simpl in *. lia.
Qed.

Lemma keeps_of_same {A} (c : M A) : rel same_tracker c → rel (keeps balanced) c.
Proof. intros H p a p' E. unfold keeps. apply balanced_same. by eapply H. Qed.

Ltac keeps_step :=
  lazymatch goal with
  | |- rel _ (bind _ _) => apply rel_bind; [apply _..| |intros ?]
  | |- rel _ (ret _) => apply rel_ret; apply _
  | |- rel _ (throw _) => apply rel_throw
  | |- rel _ (gets _) => apply rel_gets; apply _
  | |- rel _ (modify _) =>
      apply rel_modify; intros ?; unfold keeps; by apply balanced_same
  | |- rel _ (push _ _) => apply balanced_push
  | |- rel _ (pos _ _) =>
      apply keeps_of_same, same_tracker_pos
  | |- rel _ (alloc _) =>
      apply keeps_of_same, same_tracker_alloc
  | |- rel _ (match_ _) =>
      apply keeps_of_same, same_tracker_match
  | |- rel _ (define_parent _ _) =>
      apply keeps_of_same, same_tracker_define_parent
  | |- rel _ (nodes_push _ _) =>
      apply keeps_of_same, same_tracker_nodes_push
  | |- rel _ (match ?x with _ => _ end) => destruct x
  | |- rel _ (if ?x then _ else _) => destruct x
  end.

Lemma balanced_capture_fn type regex : rel (keeps balanced) (capture_fn type regex).
Proof. unfold capture_fn. repeat keeps_step. Qed.

Lemma balanced_pair_open_fn type regex :
  rel (keeps balanced) (pair_open_fn type regex).
Proof. unfold pair_open_fn. repeat keeps_step. Qed.

Lemma balanced_eos : rel (keeps balanced) eos.
Proof. unfold eos. repeat keeps_step. Qed.

(** The rest of the close handler when [pop] returned [undefined]. *)
Lemma close_without_open type start (m : RegExpMatch) q a p' :
  bind (gets store) (λ st,
    if isType st JUndefined (JString type)
    then throw (Error (new_Error ("missing opening " +:+ quoted type)))
    else
      bind (gets input) (λ rest,
      bind (pos start (with_val (m0 m) (with_suffix (m1 m)
                 (with_rest rest (blank (type +:+ ".close"))))))
        (λ lit, bind (alloc lit) (λ node,
           bind (define_parent node None) (λ _,
             bind (nodes_push None node) (λ _, ret (Some node))))))) q
  ≠ Normal a p'.
Proof.
  rewrite bind_gets. destruct (isType _ _ _); [done|].
  rewrite bind_gets. unfold bind at 1, pos. unfold bind at 1, alloc.
  unfold bind at 1.
  erewrite define_parent_new. unfold bind, nodes_push. done.
Qed.

Lemma balanced_pair_close_fn type regex :
  rel (keeps balanced) (pair_close_fn type regex).
Proof.
  intros p a p' H. destruct (regex (input p)) as [m|] eqn:Em.
  - rewrite (pair_close_fn_matched _ _ _ _ Em) in H.
    apply bind_inv in H as (open & q & Hpop & H).
    intros Hb.
    match type of Hpop with
    | pop _ ?p1 = _ =>
        assert (balanced p1) as Hb1 by (by apply (balanced_same p));
        assert (sets p1 = sets p) as Hs by done
    end.
    destruct (sets p !! type) as [l|] eqn:El.
    + rewrite <- Hs in El. rewrite (pop_eq _ _ _ El) in Hpop.
      injection Hpop as <- <-.
      destruct l as [|o l _] using rev_ind.
      * by apply close_without_open in H.
      * assert (keeps balanced
                  (set_sets (<[type:=removelast (l ++ [o])]> (sets p))
                     (set_stack (removelast (stack p)) (set_count (count p - 1) p)))
                  p') as Hk.
        { refine (rel_elim (keeps balanced) _ _ _ _ _ H). repeat keeps_step. }
        apply Hk. clear Hk H.
        rewrite Hs in El.
        apply (balanced_pop type p (last (l ++ [o])) _ l o El); [|done].
        by rewrite (pop_eq _ _ _ El).
    + rewrite <- Hs in El. destruct (pop_unknown _ _ El) as [p2 E2]. congruence.
  - pose proof (call_no_match (PairCloseFn type regex) p Em) as E.
    simpl in E. rewrite E in H. by injection H as <- <-.
Qed.

Lemma balanced_call fn : rel (keeps balanced) (call fn).
Proof.
  destruct fn; simpl;
    auto using balanced_capture_fn, balanced_pair_open_fn, balanced_pair_close_fn.
Qed.

Lemma balanced_next_from ts : rel (keeps balanced) (next_from ts).
Proof.
  induction ts as [|t ts IH]; simpl; repeat keeps_step;
    auto using balanced_call.
Qed.

Lemma balanced_parse_loop fuel p a p' :
  parse_loop fuel p = Some (Normal a p') → balanced p → balanced p'.
Proof.
  revert p. induction fuel as [|fuel IH]; intros p; simpl.
  - destruct (negb _); [|done]. by intros [= _ <-].
  - destruct (negb _); [by intros [= _ <-]|].
    destruct (next p) as [[] q|] eqn:En; [|done].
    destruct (_ && _); [done|]. intros H Hb. eapply IH; [exact H|].
    revert En Hb. unfold next. rewrite bind_gets. apply balanced_next_from.
Qed.

Lemma balanced_new o : balanced (new_Parser o).
Proof. split; [done|]. vm_compute. reflexivity. Qed.

Lemma balanced_parse fuel str p a p' :
  parse fuel str p = Some (Normal a p') → balanced p → balanced p'.
Proof.
  intros H Hb. apply parse_inv in H as (p2 & Hl & He).
  apply parse_end_inv in He as (v & He & _).
  eapply balanced_eos; [exact He|]. eapply balanced_parse_loop; [exact Hl|].
  done.
Qed.

(** X8: the three counters of the nesting tracker agree in size, also
    when pairs interleave.  [count] is the length of the flattened stack,
    and the flattened stack has as many entries as the stacks of all kinds
    together: this holds on a new instance, registering handlers keeps it,
    and so does every call of [parse] that returns. *)
Theorem X8_tracker_sizes_agree :
  (∀ o, balanced (new_Parser o))
  ∧ (∀ type fn p, balanced p → balanced (set type fn p))
  ∧ (∀ fuel str p a p',
       parse fuel str p = Some (Normal a p') → balanced p →
       count p' = Z.of_nat (length (stack p'))
       ∧ length (stack p') = open_total p').
Proof.
  split; [apply balanced_new|]. split; [done|]. apply balanced_parse.
Qed.

(** X8 on an example: [parse("({)")], where the pairs interleave and two
    containers stay open. *)
Lemma X8_tracker_sizes_agree_witness :
  ∃ a p', parse 10 "({)" (Fixtures.demo false false) = Some (Normal a p')
    ∧ count p' = Z.of_nat (length (stack p'))
    ∧ length (stack p') = open_total p'.
Proof.
  destruct X8_tracker_sizes_agree as (H1 & H2 & H3).
  do 2 eexists. split; [vm_compute; reflexivity|].
  eapply (H3 10%nat "({)" (Fixtures.demo false false)).
  - vm_compute. reflexivity.
  - unfold Fixtures.demo, capture, pair. repeat apply H2. apply H1.
Defined.

End DepthFacts.

(** ** What the handlers make *)

Module NodeFacts.
Import Extglob JsFacts ExtglobFacts StoreFacts HandlerFacts.

Lemma capture_fn_inv type regex p a p' :
  capture_fn type regex p = Normal a p' →
  (a = None ∧ p' = p)
  ∨ ∃ m t n l,
      regex (input p) = Some m ∧ m0 m ≠ "" ∧ prev p = Some t
      ∧ (t < length (store p))%nat ∧ store p !! t = Some n ∧ n_nodes n = Some l
      ∧ a = Some (length (store p))
      ∧ p' = set_store (<[t := with_nodes (l ++ [length (store p)]) n]>
                          (store p ++ [capture_node type m p (Some t)]))
               (matched m p).
Proof.
  destruct (regex (input p)) as [m|] eqn:Em.
  2:{ pose proof (call_no_match (CaptureFn type regex) p Em) as E. simpl in E.
      rewrite E. intros [= <- <-]. by left. }
  destruct (decide (m0 m = "")) as [E0|Hne].
  { rewrite (capture_fn_empty _ _ _ _ Em E0). intros [= <- <-]. by left. }
  unfold capture_fn. rewrite !bind_gets. unfold bind at 1.
  rewrite (match_matched _ _ _ Em).
  apply truthy_spec in Hne as Ht. rewrite Ht. cbn [negb].
  rewrite !bind_gets. unfold bind at 1, pos. rewrite alloc_define.
  unfold bind. destruct (nodes_push _ _ _) as [[] q|] eqn:E; [|done].
  intros [= <- <-]. right.
  apply nodes_push_inv in E as (t & n & l & Hp & Ht' & Hl & ->).
  simpl in Ht'. exists m, t, n, l.
  assert (t < length (store p))%nat as Hlt.
  { apply lookup_lt_Some in Ht' as Hlen. rewrite length_app in Hlen. simpl in Hlen.
    destruct (decide (t = length (store p))) as [->|]; [|lia].
    rewrite lookup_end in Ht'. injection Ht' as <-. done. }
  rewrite lookup_app_l in Ht' by done.
  repeat split; try done. simpl. by rewrite Hp.
Qed.

Lemma pair_open_fn_inv type regex p a p' :
  pair_open_fn type regex p = Normal a p' →
  (a = None ∧ p' = p)
  ∨ ∃ m t n l ls,
      regex (input p) = Some m ∧ m0 m ≠ "" ∧ prev p = Some t
      ∧ sets p !! type = Some ls
      ∧ (store p ++ [open_token type m p (Some (S (length (store p))));
                     container_node type m p (length (store p)) (Some t)]) !! t
        = Some n
      ∧ n_nodes n = Some l
      ∧ a = Some (S (length (store p)))
      ∧ p' = set_store
               (<[t := with_nodes (l ++ [S (length (store p))]) n]>
                  (store p ++ [open_token type m p (Some (S (length (store p))));
                               container_node type m p (length (store p)) (Some t)]))
               (set_sets (<[type := ls ++ [S (length (store p))]]> (sets p))
                  (set_stack (stack p ++ [S (length (store p))])
                     (set_count (count p + 1)
                        (set_specialChars true (matched m p))))).
Proof.
  destruct (regex (input p)) as [m|] eqn:Em.
  2:{ pose proof (call_no_match (PairOpenFn type regex) p Em) as E. simpl in E.
      rewrite E. intros [= <- <-]. by left. }
  destruct (decide (m0 m = "")) as [E0|Hne].
  { rewrite (pair_open_fn_empty _ _ _ _ Em E0). intros [= <- <-]. by left. }
  unfold pair_open_fn. rewrite !bind_gets. unfold bind at 1.
  rewrite (match_matched _ _ _ Em).
  apply truthy_spec in Hne as Ht. rewrite Ht. cbn [negb].
  unfold bind, gets, modify, pos, alloc, ret. simpl.
  erewrite define_parent_eq by (simpl; apply lookup_end).
  simpl. rewrite insert_end.
  erewrite define_parent_eq by (simpl; apply lookup_before_end).
  simpl. rewrite insert_before_end.
  destruct (push _ _ _) as [len q|] eqn:Ep; [|done].
  apply push_returns in Ep as (ls & Hls & ->). simpl in Hls.
  destruct (nodes_push _ _ _) as [[] q|] eqn:En; [|done].
  apply nodes_push_inv in En as (t & n & l & Hp & Htn & Hl & ->). simpl in Htn.
  intros [= <- <-]. right. exists m, t, n, l, ls.
  rewrite length_app in *. simpl in *. rewrite Nat.add_1_r in *.
  rewrite <- app_assoc in *. simpl in *.
  rewrite Hp in Htn. repeat split; try done.
  unfold container_node, open_token, span. simpl. by rewrite Hp.
Qed.

Lemma pair_close_fn_inv type regex p a p' :
  pair_close_fn type regex p = Normal a p' →
  (a = None ∧ p' = p)
  ∨ ∃ m ls o n l,
      regex (input p) = Some m ∧ sets p !! type = Some (ls ++ [o])
      ∧ (o < length (store p))%nat ∧ store p !! o = Some n ∧ n_nodes n = Some l
      ∧ a = Some (length (store p))
      ∧ p' = set_store
               (<[o := with_nodes (l ++ [length (store p)]) n]>
                  (store p ++ [close_token type m p (Some o)]))
               (set_sets (<[type := ls]> (sets p))
                  (set_stack (removelast (stack p))
                     (set_count (count p - 1) (matched m p)))).
Proof.
  destruct (regex (input p)) as [m|] eqn:Em.
  2:{ pose proof (call_no_match (PairCloseFn type regex) p Em) as E. simpl in E.
      rewrite E. intros [= <- <-]. by left. }
  rewrite (pair_close_fn_matched _ _ _ _ Em). cbv zeta. unfold bind at 1.
  destruct (sets p !! type) as [ls|] eqn:Hls.
  2:{ destruct (pop_unknown (matched m p) type Hls) as [q Hq].
      unfold matched in Hq. by rewrite Hq. }
  pose proof (pop_eq (matched m p) type ls Hls) as Hpop.
  unfold matched in Hpop. rewrite Hpop. clear Hpop.
  destruct ls as [|o ls _] using rev_ind.
  { intros H. exfalso. revert H. apply DepthFacts.close_without_open. }
  rewrite last_snoc, removelast_last. cbn [from_option].
  rewrite bind_gets.
  assert (∀ st, isType st (JNode o) (JString type) = false) as Hty.
  { intros st. unfold isType. simpl. apply andb_false_r. }
  rewrite Hty, bind_gets. unfold bind at 1, pos. rewrite alloc_define.
  unfold bind. destruct (nodes_push _ _ _) as [[] q|] eqn:En; [|done].
  intros [= <- <-]. right.
  apply nodes_push_inv in En as (t & n & l & [= <-] & Htn & Hl & ->).
  simpl in Htn. exists m, ls, o, n, l.
  assert (o < length (store p))%nat as Hlt.
  { apply lookup_lt_Some in Htn as Hlen. rewrite length_app in Hlen. simpl in Hlen.
    destruct (decide (o = length (store p))) as [->|]; [|lia].
    rewrite lookup_end in Htn. injection Htn as <-. done. }
  rewrite lookup_app_l in Htn by done.
  split; [done|]. split; [done|]. split; [done|]. split; [done|].
  split; [done|]. split; [reflexivity|state_eq].
Qed.

(** X9: what a handler made by [capture] does.  A call that returns has
    either made no node and left the instance as it was (no match, or an
    empty match), or made exactly one node: the match is consumed, the new
    node has the registered type, [val] the matched text, [parsed] the
    text parsed before, [rest] the input left, the span from the column
    before to the column after the match and the parent [prev()]; it is
    appended as the last child of [prev()], and no other node and nothing
    else of the instance changes. *)
Theorem X9_capture_appends_one_node type regex p a p' :
  capture_fn type regex p = Normal a p' →
  (a = None ∧ p' = p)
  ∨ ∃ m t n l,
      regex (input p) = Some m ∧ m0 m ≠ "" ∧ prev p = Some t
      ∧ (t < length (store p))%nat ∧ store p !! t = Some n ∧ n_nodes n = Some l
      ∧ a = Some (length (store p))
      ∧ p' = set_store (<[t := with_nodes (l ++ [length (store p)]) n]>
                          (store p ++ [capture_node type m p (Some t)]))
               (matched m p).
Proof. apply capture_fn_inv. Qed.

(** X9 on an example: the text capture of the demo grammar on ["ab("]. *)
Lemma X9_capture_appends_one_node_witness :
  let p := set_input "ab(" (Fixtures.demo false false) in
  let regex := Fixtures.re_class_plus Fixtures.is_text in
  ∃ a p',
    capture_fn "text" regex p = Normal a p'
    ∧ ((a = None ∧ p' = p)
       ∨ ∃ m t n l,
           regex (input p) = Some m ∧ m0 m ≠ "" ∧ prev p = Some t
           ∧ (t < length (store p))%nat ∧ store p !! t = Some n ∧ n_nodes n = Some l
           ∧ a = Some (length (store p))
           ∧ p' = set_store (<[t := with_nodes (l ++ [length (store p)]) n]>
                               (store p ++ [capture_node "text" m p (Some t)]))
                    (matched m p)).
Proof.
  intros p regex. do 2 eexists. split; [vm_compute; reflexivity|].
  apply (X9_capture_appends_one_node "text" regex p). vm_compute. reflexivity.
Defined.

(** X10: what the handlers made by [pair] do.  An open handler that
    returns a node has made two: the open token, with the matched text as
    [val], and the container, whose [nodes] start with the open token and
    whose [prefix] is the first capture group; the container is the parent
    of the token, is appended as the last child of [prev()] and is pushed
    on the stack of its kind and on the flattened stack, and [specialChars]
    is set.  A close handler that returns a node has popped both stacks and
    appended the close token, with [suffix] the first capture group, as the
    last child of the container that was on top of the stack of its kind.
    A call that makes no node leaves the instance as it was. *)
Theorem X10_pair_opens_and_closes :
  (∀ type regex p a p',
     pair_open_fn type regex p = Normal a p' →
     (a = None ∧ p' = p)
     ∨ ∃ m t n l ls,
         regex (input p) = Some m ∧ m0 m ≠ "" ∧ prev p = Some t
         ∧ sets p !! type = Some ls
         ∧ (store p ++ [open_token type m p (Some (S (length (store p))));
                        container_node type m p (length (store p)) (Some t)]) !! t
           = Some n
         ∧ n_nodes n = Some l
         ∧ a = Some (S (length (store p)))
         ∧ p' = set_store
                  (<[t := with_nodes (l ++ [S (length (store p))]) n]>
                     (store p ++ [open_token type m p (Some (S (length (store p))));
                                  container_node type m p (length (store p)) (Some t)]))
                  (set_sets (<[type := ls ++ [S (length (store p))]]> (sets p))
                     (set_stack (stack p ++ [S (length (store p))])
                        (set_count (count p + 1)
                           (set_specialChars true (matched m p))))))
  ∧ (∀ type regex p a p',
       pair_close_fn type regex p = Normal a p' →
       (a = None ∧ p' = p)
       ∨ ∃ m ls o n l,
           regex (input p) = Some m ∧ sets p !! type = Some (ls ++ [o])
           ∧ (o < length (store p))%nat ∧ store p !! o = Some n ∧ n_nodes n = Some l
           ∧ a = Some (length (store p))
           ∧ p' = set_store
                    (<[o := with_nodes (l ++ [length (store p)]) n]>
                       (store p ++ [close_token type m p (Some o)]))
                    (set_sets (<[type := ls]> (sets p))
                       (set_stack (removelast (stack p))
                          (set_count (count p - 1) (matched m p))))).
Proof. split; [apply pair_open_fn_inv|apply pair_close_fn_inv]. Qed.

(** X10 on an example: the paren pair on ["()"], the open handler and
    then the close handler. *)
Lemma X10_pair_opens_and_closes_witness :
  let p := set_input "()" (Fixtures.parens_only false false) in
  let p1 := state_of (pair_open_fn "paren" (Fixtures.re_lit "(") p) in
  (∃ a p',
     pair_open_fn "paren" (Fixtures.re_lit "(") p = Normal a p'
     ∧ ((a = None ∧ p' = p)
        ∨ ∃ m t n l ls,
            Fixtures.re_lit "(" (input p) = Some m ∧ m0 m ≠ "" ∧ prev p = Some t
            ∧ sets p !! "paren" = Some ls
            ∧ (store p ++ [open_token "paren" m p (Some (S (length (store p))));
                           container_node "paren" m p (length (store p)) (Some t)]) !! t
              = Some n
            ∧ n_nodes n = Some l
            ∧ a = Some (S (length (store p)))
            ∧ p' = set_store
                     (<[t := with_nodes (l ++ [S (length (store p))]) n]>
                        (store p ++ [open_token "paren" m p (Some (S (length (store p))));
                                     container_node "paren" m p (length (store p)) (Some t)]))
                     (set_sets (<["paren" := ls ++ [S (length (store p))]]> (sets p))
                        (set_stack (stack p ++ [S (length (store p))])
                           (set_count (count p + 1)
                              (set_specialChars true (matched m p)))))))
  ∧ (∃ a p',
       pair_close_fn "paren" (Fixtures.re_lit ")") p1 = Normal a p'
       ∧ ((a = None ∧ p' = p1)
          ∨ ∃ m ls o n l,
              Fixtures.re_lit ")" (input p1) = Some m
              ∧ sets p1 !! "paren" = Some (ls ++ [o])
              ∧ (o < length (store p1))%nat ∧ store p1 !! o = Some n
              ∧ n_nodes n = Some l
              ∧ a = Some (length (store p1))
              ∧ p' = set_store
                       (<[o := with_nodes (l ++ [length (store p1)]) n]>
                          (store p1 ++ [close_token "paren" m p1 (Some o)]))
                       (set_sets (<["paren" := ls]> (sets p1))
                          (set_stack (removelast (stack p1))
                             (set_count (count p1 - 1) (matched m p1)))))).
Proof.
  intros p p1. destruct X10_pair_opens_and_closes as (H1 & H2). split.
  - do 2 eexists. split; [vm_compute; reflexivity|].
    apply (H1 "paren" (Fixtures.re_lit "(") p). vm_compute. reflexivity.
  - do 2 eexists. split; [vm_compute; reflexivity|].
    apply (H2 "paren" (Fixtures.re_lit ")") p1). vm_compute. reflexivity.
Defined.

End NodeFacts.

(** ** Parent pointers and children *)

Module TreeFacts.
Import Extglob JsFacts ExtglobFacts HandlerFacts DepthFacts NodeFacts.

Lemma attach_linked st t n l x nx :
  (∀ c nc j, c ≠ x → st !! c = Some nc → n_parent nc = Some j →
     ∃ m l0, st !! j = Some m ∧ n_nodes m = Some l0 ∧ c ∈ l0) →
  child_owned st →
  st !! t = Some n → n_nodes n = Some l → st !! x = Some nx →
  (n_parent nx = Some t ∨ (n_parent nx = None ∧ n_type nx ∈ ["bos"; "eos"])) →
  parent_listed (<[t := with_nodes (l ++ [x]) n]> st)
  ∧ child_owned (<[t := with_nodes (l ++ [x]) n]> st).
Proof.
  intros Hpl Hco Ht Hl Hx Hpx.
  assert (t < length st)%nat as Hlt by (by eapply lookup_lt_Some).
  assert (∀ i ni, st !! i = Some ni →
            ∃ ni', <[t := with_nodes (l ++ [x]) n]> st !! i = Some ni'
                   ∧ n_parent ni' = n_parent ni ∧ n_type ni' = n_type ni) as Hfwd.
  { intros i ni Hi. destruct (decide (i = t)) as [->|Hne].
    - rewrite list_lookup_insert_eq by done. eexists. split; [done|].
      rewrite Ht in Hi. by injection Hi as <-.
    - rewrite list_lookup_insert_ne by done. eauto. }
  assert (∀ i ni', <[t := with_nodes (l ++ [x]) n]> st !! i = Some ni' →
            ∃ ni, st !! i = Some ni ∧ n_parent ni' = n_parent ni
                  ∧ (i ≠ t → ni' = ni)
                  ∧ (i = t → ni = n ∧ n_nodes ni' = Some (l ++ [x]))) as Hbwd.
  { intros i ni' Hi. destruct (decide (i = t)) as [->|Hne].
    - rewrite list_lookup_insert_eq in Hi by done. injection Hi as <-.
      exists n. by repeat split.
    - rewrite list_lookup_insert_ne in Hi by done. exists ni'. by repeat split. }
  split.
  - intros c nc' j Hc Hj.
    destruct (Hbwd _ _ Hc) as (nc & Hc0 & Hpar & _). rewrite Hpar in Hj.
    destruct (decide (c = x)) as [->|Hcx].
    + rewrite Hx in Hc0. injection Hc0 as <-.
      destruct Hpx as [Hpx|[Hpx _]]; [|congruence].
      assert (j = t) as -> by congruence.
      exists (with_nodes (l ++ [x]) n), (l ++ [x]).
      rewrite list_lookup_insert_eq by done. split; [done|]. split; [done|].
      apply elem_of_app. right. by left.
    + destruct (Hpl _ _ _ Hcx Hc0 Hj) as (m & l0 & Hm & Hl0 & Hin).
      destruct (decide (j = t)) as [->|Hjt].
      * exists (with_nodes (l ++ [x]) n), (l ++ [x]).
        rewrite list_lookup_insert_eq by done. split; [done|]. split; [done|].
        assert (l0 = l) as -> by congruence.
        apply elem_of_app. by left.
      * exists m, l0. by rewrite list_lookup_insert_ne.
  - intros j m' l0 c Hj Hl0 Hin.
    destruct (Hbwd _ _ Hj) as (m & Hm & _ & Hne & Heq).
    destruct (decide (j = t)) as [->|Hjt].
    + destruct (Heq eq_refl) as [-> Hn']. assert (l0 = l ++ [x]) as -> by congruence.
      apply elem_of_app in Hin as [Hin|Hin%list_elem_of_singleton].
      * destruct (Hco _ _ _ _ Ht Hl Hin) as (nc & Hc & Hpc).
        destruct (Hfwd _ _ Hc) as (nc' & Hc' & Hp' & Ht').
        exists nc'. split; [done|]. by rewrite Hp', Ht'.
      * subst c. destruct (Hfwd _ _ Hx) as (nx' & Hx' & Hp' & Ht').
        exists nx'. split; [done|]. by rewrite Hp', Ht'.
    + rewrite (Hne Hjt) in Hl0.
      destruct (Hco _ _ _ _ Hm Hl0 Hin) as (nc & Hc & Hpc).
      destruct (Hfwd _ _ Hc) as (nc' & Hc' & Hp' & Ht').
        exists nc'. split; [done|]. by rewrite Hp', Ht'.
Qed.

Lemma extend_one st nx :
  parent_listed st → child_owned st → n_nodes nx = None →
  (∀ c nc j, c ≠ length st → (st ++ [nx]) !! c = Some nc → n_parent nc = Some j →
     ∃ m l0, (st ++ [nx]) !! j = Some m ∧ n_nodes m = Some l0 ∧ c ∈ l0)
  ∧ child_owned (st ++ [nx]).
Proof.
  intros Hpl Hco Hnx. split.
  - intros c nc j Hne Hc Hj.
    assert (c < length st)%nat as Hlt.
    { apply lookup_lt_Some in Hc. rewrite length_app in Hc. simpl in Hc. lia. }
    rewrite lookup_app_l in Hc by done.
    destruct (Hpl _ _ _ Hc Hj) as (m & l0 & Hm & Hl0 & Hin).
    exists m, l0. rewrite lookup_app_l by (by eapply lookup_lt_Some). done.
  - intros j m l0 c Hj Hl0 Hin.
    destruct (decide (j < length st)%nat) as [Hlt|Hge].
    + rewrite lookup_app_l in Hj by done.
      destruct (Hco _ _ _ _ Hj Hl0 Hin) as (nc & Hc & Hpc).
      exists nc. rewrite lookup_app_l by (by eapply lookup_lt_Some). done.
    + rewrite lookup_app_r in Hj by lia.
      destruct (j - length st)%nat; simpl in Hj; [|by rewrite lookup_nil in Hj].
      injection Hj as <-. congruence.
Qed.

Lemma extend_two st o c :
  parent_listed st → child_owned st →
  n_nodes o = None → n_parent o = Some (S (length st)) →
  n_nodes c = Some [length st] →
  (∀ i ni j, i ≠ S (length st) → (st ++ [o; c]) !! i = Some ni → n_parent ni = Some j →
     ∃ m l0, (st ++ [o; c]) !! j = Some m ∧ n_nodes m = Some l0 ∧ i ∈ l0)
  ∧ child_owned (st ++ [o; c]).
Proof.
  intros Hpl Hco Ho Hpo Hc.
  assert ((st ++ [o; c]) !! length st = Some o) as Hlo.
  { by apply list_lookup_middle. }
  assert ((st ++ [o; c]) !! S (length st) = Some c) as Hlc.
  { rewrite lookup_app_r by lia. by replace (S (length st) - length st)%nat with 1%nat by lia. }
  split.
  - intros i ni j Hne Hi Hj.
    destruct (decide (i < length st)%nat) as [Hlt|Hge].
    + rewrite lookup_app_l in Hi by done.
      destruct (Hpl _ _ _ Hi Hj) as (m & l0 & Hm & Hl0 & Hin).
      exists m, l0. rewrite lookup_app_l by (by eapply lookup_lt_Some). done.
    + assert (i = length st) as ->.
      { apply lookup_lt_Some in Hi. rewrite length_app in Hi. simpl in Hi. lia. }
      rewrite Hlo in Hi. injection Hi as <-.
      assert (j = S (length st)) as -> by congruence.
      exists c, [length st]. split; [done|]. split; [done|]. by left.
  - intros j m l0 i Hj Hl0 Hin.
    destruct (decide (j < length st)%nat) as [Hlt|Hge].
    + rewrite lookup_app_l in Hj by done.
      destruct (Hco _ _ _ _ Hj Hl0 Hin) as (nc & Hi & Hpc).
      exists nc. rewrite lookup_app_l by (by eapply lookup_lt_Some). done.
    + apply lookup_lt_Some in Hj as Hlen. rewrite length_app in Hlen. simpl in Hlen.
      destruct (decide (j = length st)) as [->|Hne].
      * rewrite Hlo in Hj. injection Hj as <-. congruence.
      * assert (j = S (length st)) as -> by lia.
        rewrite Hlc in Hj. injection Hj as <-.
        assert (l0 = [length st]) as -> by congruence.
        apply list_elem_of_singleton in Hin as ->. exists o. by split; [|left].
Qed.

Lemma linked_attach_one p q st t n l nx :
  linked p → store q = <[t := with_nodes (l ++ [length (store p)]) n]> (store p ++ [nx]) →
  store p !! t = Some n → n_nodes n = Some l → n_nodes nx = None →
  (n_parent nx = Some t ∨ (n_parent nx = None ∧ n_type nx ∈ ["bos"; "eos"])) →
  st = store q → linked q.
Proof.
  intros [Hpl Hco] Hq Ht Hl Hnx Hpx ->. unfold linked. rewrite Hq.
  destruct (extend_one _ _ Hpl Hco Hnx) as [H1 H2].
  apply (attach_linked _ _ _ _ _ nx H1 H2); try done.
  - rewrite lookup_app_l by (by eapply lookup_lt_Some). done.
  - by apply list_lookup_middle.
Qed.

Lemma linked_capture_fn type regex p a p' :
  capture_fn type regex p = Normal a p' → linked p → linked p'.
Proof.
  intros H Hp. apply capture_fn_inv in H as [[_ ->]|H]; [done|].
  destruct H as (m & t & n & l & _ & _ & _ & _ & Ht & Hl & _ & ->).
  eapply (linked_attach_one p _ _ t n l (capture_node type m p (Some t)));
    try done. by left.
Qed.

Lemma linked_pair_close_fn type regex p a p' :
  pair_close_fn type regex p = Normal a p' → linked p → linked p'.
Proof.
  intros H Hp. apply pair_close_fn_inv in H as [[_ ->]|H]; [done|].
  destruct H as (m & ls & o & n & l & _ & _ & _ & Ht & Hl & _ & ->).
  eapply (linked_attach_one p _ _ o n l (close_token type m p (Some o)));
    try done. by left.
Qed.

Lemma linked_eos p a p' : eos p = Normal a p' → linked p → linked p'.
Proof.
  intros H Hp. unfold eos in H. rewrite !bind_gets in H.
  destruct (truthy (input p)) eqn:E; [by injection H as _ <-|].
  apply truthy_false in E.
  assert (eos p = Normal a p') as H'.
  { unfold eos. by rewrite !bind_gets, E. }
  apply eos_inv in H' as (t & n & l & _ & Ht & Hl & _ & ->); [|done].
  eapply (linked_attach_one p _ _ t n l (eos_literal p)); try done.
  right. split; [done|]. right. by left.
Qed.

Lemma linked_pair_open_fn type regex p a p' :
  pair_open_fn type regex p = Normal a p' → linked p → linked p'.
Proof.
  intros H [Hpl Hco]. apply pair_open_fn_inv in H as [[_ ->]|H]; [done|].
  destruct H as (m & t & n & l & ls & _ & _ & _ & _ & Ht & Hl & _ & ->).
  unfold linked. simpl.
  destruct (extend_two (store p)
              (open_token type m p (Some (S (length (store p)))))
              (container_node type m p (length (store p)) (Some t))
              Hpl Hco) as [H1 H2]; try done.
  apply (attach_linked _ _ _ _ _
           (container_node type m p (length (store p)) (Some t)) H1 H2);
    try done.
  - rewrite lookup_app_r by lia.
    by replace (S (length (store p)) - length (store p))%nat with 1%nat by lia.
  - by left.
Qed.

Lemma linked_call fn : rel (keeps linked) (call fn).
Proof.
  intros p a p' H. unfold keeps. destruct fn; simpl in H;
    eauto using linked_capture_fn, linked_pair_open_fn, linked_pair_close_fn.
Qed.

Lemma linked_next_from ts : rel (keeps linked) (next_from ts).
Proof.
  induction ts as [|t ts IH]; simpl.
  - apply rel_ret; apply _.
  - apply rel_bind; [apply _..|apply rel_gets; apply _|].
    intros [fn|[len [v|]|]|]; [|exact IH|apply rel_throw..].
    apply rel_bind; [apply _..|apply linked_call|done].
Qed.

Lemma linked_parse_loop fuel p a p' :
  parse_loop fuel p = Some (Normal a p') → linked p → linked p'.
Proof.
  revert p. induction fuel as [|fuel IH]; intros p; simpl.
  - destruct (negb _); [|done]. by intros [= _ <-].
  - destruct (negb _); [by intros [= _ <-]|].
    destruct (next p) as [[] q|] eqn:En; [|done].
    destruct (_ && _); [done|]. intros H Hb. eapply IH; [exact H|].
    revert En Hb. unfold next. rewrite bind_gets. apply linked_next_from.
Qed.

Lemma linked_new o : linked (new_Parser o).
Proof.
  split.
  - intros c n j Hc Hj. simpl in Hc.
    destruct c as [|[|c]]; simpl in Hc; [| |done]; by injection Hc as <-.
  - intros j m l c Hj Hl Hin. simpl in Hj.
    destruct j as [|[|j]]; simpl in Hj; [| |done]; injection Hj as <-; [done|].
    injection Hl as <-. apply list_elem_of_singleton in Hin as ->.
    eexists. split; [done|]. right. split; [done|]. by left.
Qed.

Lemma linked_parse fuel str p a p' :
  parse fuel str p = Some (Normal a p') → linked p → linked p'.
Proof.
  intros H Hb. apply parse_inv in H as (p2 & Hl & He).
  apply parse_end_inv in He as (v & He & _).
  eapply linked_eos; [exact He|]. eapply linked_parse_loop; [exact Hl|]. done.
Qed.

(** X11: parent pointers and [nodes] arrays agree.  In the store of a
    parser instance, every node that has a [parent] is listed in the
    [nodes] of that parent, and every entry of a [nodes] array is a node
    whose [parent] is the owner of the array, or else a [bos] or [eos]
    node, which have no [parent].  This holds on a new instance, is kept
    by registering handlers, by every handler call that returns (also
    when the nesting stack holds what the caller pushed), and by every
    call of [parse] that returns. *)
Theorem X11_parents_and_children_agree :
  (∀ o, linked (new_Parser o))
  ∧ (∀ type fn p, linked p → linked (set type fn p))
  ∧ (∀ fn p a p', call fn p = Normal a p' → linked p → linked p')
  ∧ (∀ fuel str p a p',
       parse fuel str p = Some (Normal a p') → linked p →
       parent_listed (store p') ∧ child_owned (store p')).
Proof.
  split; [apply linked_new|]. split; [done|]. split.
  - intros fn p a p' H. by apply linked_call in H.
  - apply linked_parse.
Qed.

(** X11 on an example: [parse("({)}")], where the pairs interleave. *)
Lemma X11_parents_and_children_agree_witness :
  ∃ a p', parse 10 "({)}" (Fixtures.demo false false) = Some (Normal a p')
    ∧ parent_listed (store p') ∧ child_owned (store p').
Proof.
  destruct X11_parents_and_children_agree as (H1 & H2 & _ & H4).
  do 2 eexists. split; [vm_compute; reflexivity|].
  eapply (H4 10%nat "({)}" (Fixtures.demo false false)).
  - vm_compute. reflexivity.
  - unfold Fixtures.demo, capture, pair. repeat apply H2. apply H1.
Defined.

End TreeFacts.

(** ** Functions registered with [use] *)

Module UseFacts.
Import Extglob JsFacts ExtglobFacts HandlerFacts NodeFacts.

Section Tweak.
Context (go : Options → Options) (gf : list handler → list handler).
Local Abbreviation f := (tweak go gf).

Lemma commutes_ret {A} (a : A) : commutes f (ret a).
Proof. by intros p. Qed.

Lemma commutes_throw {A} e : commutes f (throw (A := A) e).
Proof. by intros p. Qed.

Lemma commutes_gets {A} (g : Parser → A) :
  (∀ p, g (f p) = g p) → commutes f (gets g).
Proof. intros H p. unfold gets. simpl. by rewrite H. Qed.

Lemma commutes_modify h :
  (∀ p, h (f p) = f (h p)) → commutes f (modify h).
Proof. intros H p. unfold modify. simpl. by rewrite H. Qed.

Lemma commutes_bind {A B} (c : M A) (k : A → M B) :
  commutes f c → (∀ a, commutes f (k a)) → commutes f (bind c k).
Proof.
  intros Hc Hk p. unfold bind. rewrite Hc. destruct (c p) as [a q|e q]; simpl; [|done].
  apply Hk.
Qed.

Lemma commutes_alloc n : commutes f (alloc n).
Proof. by intros p. Qed.

Lemma commutes_pos start n : commutes f (pos start n).
Proof. by intros p. Qed.

Lemma commutes_define_parent node parent : commutes f (define_parent node parent).
Proof. intros p. unfold define_parent. simpl. by destruct (store p !! node). Qed.

Lemma commutes_nodes_push target child : commutes f (nodes_push target child).
Proof.
  intros p. unfold nodes_push. simpl. destruct target as [t|]; [|done].
  destruct (store p !! t) as [n|]; [|done]. by destruct (n_nodes n).
Qed.

Lemma commutes_push type token : commutes f (push type token).
Proof.
  intros p. unfold push, bind, modify. simpl. by destruct (sets p !! type).
Qed.

Lemma commutes_pop type : commutes f (pop type).
Proof.
  intros p. unfold pop, bind, modify. simpl. by destruct (sets p !! type).
Qed.

Lemma commutes_match regex : commutes f (match_ regex).
Proof.
  intros p. unfold match_. rewrite !bind_gets. simpl.
  by destruct (regex (input p)).
Qed.

Ltac commutes_step :=
  lazymatch goal with
  | |- commutes _ (bind _ _) => apply commutes_bind; [|intros ?]
  | |- commutes _ (ret _) => apply commutes_ret
  | |- commutes _ (throw _) => apply commutes_throw
  | |- commutes _ (gets _) => apply commutes_gets; intros ?; reflexivity
  | |- commutes _ (modify _) => apply commutes_modify; intros ?; reflexivity
  | |- commutes _ (push _ _) => apply commutes_push
  | |- commutes _ (pop _) => apply commutes_pop
  | |- commutes _ (pos _ _) => apply commutes_pos
  | |- commutes _ (alloc _) => apply commutes_alloc
  | |- commutes _ (match_ _) => apply commutes_match
  | |- commutes _ (define_parent _ _) => apply commutes_define_parent
  | |- commutes _ (nodes_push _ _) => apply commutes_nodes_push
  | |- commutes _ (match ?x with _ => _ end) => destruct x
  end.

Lemma commutes_call fn : commutes f (call fn).
Proof.
  destruct fn; simpl; unfold capture_fn, pair_open_fn, pair_close_fn;
    repeat commutes_step.
Qed.

Lemma commutes_next_from ts : commutes f (next_from ts).
Proof.
  induction ts as [|t ts IH]; simpl; repeat commutes_step;
    auto using commutes_call.
Qed.

Lemma commutes_next : commutes f next.
Proof. unfold next. repeat commutes_step. apply commutes_next_from. Qed.

Lemma commutes_eos : commutes f eos.
Proof. unfold eos. repeat commutes_step. Qed.

Lemma commutes_parse_loop fuel p :
  parse_loop fuel (f p) = on_state f <$> parse_loop fuel p.
Proof.
  revert p. induction fuel as [|fuel IH]; intros p; simpl.
  - by destruct (negb _).
  - destruct (negb _); [done|]. rewrite commutes_next.
    destruct (next p) as [[] q|e q]; simpl; [|done].
    destruct (_ && _); [done|]. apply IH.
Qed.

(** With the same options, the end of [parse] is the same as well. *)
Lemma commutes_error msg : (∀ o, go o = o) → commutes f (error msg).
Proof.
  intros Hgo p. unfold error, error_object. simpl. rewrite Hgo.
  by destruct (silent (options p)).
Qed.

Lemma commutes_parse_end : (∀ o, go o = o) → commutes f parse_end.
Proof.
  intros Hgo. unfold parse_end.
  apply commutes_bind; [repeat commutes_step|intros stk].
  apply commutes_bind; [apply commutes_gets; intros p; apply Hgo|intros opts].
  repeat commutes_step; auto using commutes_eos, commutes_error.
Qed.

(** With other options, it is the same where no container is left open
    or strict mode is off. *)
Lemma commutes_parse_end_lenient p :
  (stack p = [] ∨ (strict (options p) = false ∧ strict (go (options p)) = false)) →
  parse_end (f p) = on_state f (parse_end p).
Proof.
  intros H. rewrite !parse_end_lenient.
  - revert p H. intros p _. revert p. change (commutes f (bind eos (λ _, gets ast))).
    repeat commutes_step. apply commutes_eos.
  - destruct H as [H|[H _]]; [by left|by right].
  - destruct H as [H|[_ H]]; [by left|by right].
Qed.

End Tweak.

Lemma parse_use fuel str fn p :
  parse fuel str (use fn p) = on_state (use fn) <$> parse fuel str p.
Proof.
  unfold parse.
  change (set_input str (set_orig (Some str) (use fn p)))
    with (tweak (λ o, o) (λ l, l ++ [fn]) (set_input str (set_orig (Some str) p))).
  rewrite commutes_parse_loop.
  destruct (parse_loop fuel _) as [[[] q|e q]|]; simpl; [|done..].
  by rewrite commutes_parse_end.
Qed.

(** X12: the fixed-table parser never calls what [use] registers.  [use]
    appends to [fns], and neither [next] nor [parse] reads [fns]: a pass
    or a parse after [use] ends as it does without, with the same result
    or exception, and the same instance apart from the function added to
    [fns]. *)
Theorem X12_use_is_never_called fn :
  (∀ p, next (use fn p) = on_state (use fn) (next p))
  ∧ (∀ fuel str p,
       parse fuel str (use fn p) = on_state (use fn) <$> parse fuel str p).
Proof.
  split.
  - intros p. apply (commutes_next (λ o, o) (λ l, l ++ [fn])).
  - intros fuel str p. apply parse_use.
Qed.

Lemma parse_options_lenient fuel str o p :
  strict (options p) = false → strict o = false →
  parse fuel str (set_options o p) = on_state (set_options o) <$> parse fuel str p.
Proof.
  intros Hp Ho. unfold parse.
  change (set_input str (set_orig (Some str) (set_options o p)))
    with (tweak (λ _, o) (λ l, l) (set_input str (set_orig (Some str) p))).
  rewrite commutes_parse_loop.
  destruct (parse_loop fuel _) as [[[] q|e q]|] eqn:El; simpl; [|done..].
  f_equal. apply commutes_parse_end_lenient. right. split; [|done].
  apply parse_loop_progress in El as [[F _ _ _ _] _]. destruct F. simpl in *. congruence.
Qed.

Lemma parse_options_closed fuel str o p a p' :
  parse fuel str p = Some (Normal a p') → stack p' = [] →
  parse fuel str (set_options o p) = Some (Normal a (set_options o p')).
Proof.
  intros H Hs. unfold parse.
  change (set_input str (set_orig (Some str) (set_options o p)))
    with (tweak (λ _, o) (λ l, l) (set_input str (set_orig (Some str) p))).
  rewrite commutes_parse_loop.
  apply parse_inv in H as (q & El & He). rewrite El. simpl. f_equal.
  rewrite commutes_parse_end_lenient; [by rewrite He|]. left.
  apply parse_loop_progress in El as [_ Hin].
  apply parse_end_inv in He as (v & He & _).
  apply eos_inv in He as (t & n & l & _ & _ & _ & _ & ->); done.
Qed.

(** X21: the options are read at the end of [parse] only.  No handler
    and no pass of the loop reads [options]: with other options, every
    handler call and the whole loop end the same way, with the same nodes
    and the same exception if one is thrown.  [parse] as a whole is the
    same when strict mode is off in both, and whenever it returns with no
    container left open. *)
Theorem X21_options_matter_at_the_end_only :
  (∀ o fn p, call fn (set_options o p) = on_state (set_options o) (call fn p))
  ∧ (∀ o fuel p,
       parse_loop fuel (set_options o p) = on_state (set_options o) <$> parse_loop fuel p)
  ∧ (∀ o fuel str p,
       strict (options p) = false → strict o = false →
       parse fuel str (set_options o p) = on_state (set_options o) <$> parse fuel str p)
  ∧ (∀ o fuel str p a p',
       parse fuel str p = Some (Normal a p') → stack p' = [] →
       parse fuel str (set_options o p) = Some (Normal a (set_options o p'))).
Proof.
  split; [|split; [|split]].
  - intros o fn p. apply (commutes_call (λ _, o) (λ l, l)).
  - intros o fuel p. apply (commutes_parse_loop (λ _, o) (λ l, l)).
  - intros o fuel str p. apply parse_options_lenient.
  - intros o fuel str p a p'. apply parse_options_closed.
Qed.

(** X21 on an example: [parse("(a)")] with and without strict and silent
    mode. *)
Lemma X21_options_matter_at_the_end_only_witness :
  ∃ a p',
    parse 10 "(a)" (Fixtures.demo false false) = Some (Normal a p')
    ∧ parse 10 "(a)"
        (set_options (extend_defaults (Fixtures.opts true true))
           (Fixtures.demo false false))
      = Some (Normal a (set_options (extend_defaults (Fixtures.opts true true)) p')).
Proof.
  destruct X21_options_matter_at_the_end_only as (_ & _ & _ & H).
  do 2 eexists. split; [vm_compute; reflexivity|].
  apply (H (extend_defaults (Fixtures.opts true true)) 10%nat "(a)"
           (Fixtures.demo false false)); vm_compute; reflexivity.
Defined.

End UseFacts.

(** ** The cursor of the middleware parser *)

Module MiddlewareFacts.
Import Snapdragon JsFacts StringFacts.

Lemma count_app a b :
  count_newlines (a +:+ b) = (count_newlines a + count_newlines b)%nat.
Proof.
  induction a as [|c a IH]; [done|].
  unfold String.append; fold String.append. simpl. rewrite IH. lia.
Qed.

Lemma lastIndexOf_from_app a b i found :
  lastIndexOf_newline_from (a +:+ b) i found
  = lastIndexOf_newline_from b (i + Z.of_nat (String.length a))
      (lastIndexOf_newline_from a i found).
Proof.
  revert i found. induction a as [|c a IH]; intros i found.
  - simpl. by rewrite Z.add_0_r.
  - unfold String.append; fold String.append. simpl lastIndexOf_newline_from.
    rewrite IH. f_equal. simpl String.length. lia.
Qed.

Lemma lastIndexOf_from_none s i found :
  count_newlines s = 0%nat → lastIndexOf_newline_from s i found = found.
Proof.
  revert i found. induction s as [|c s IH]; intros i found; simpl; [done|].
  destruct (Ascii.eqb c "010"); [done|]. simpl. apply IH.
Qed.

Lemma lastIndexOf_from_found s i f f' :
  count_newlines s ≠ 0%nat →
  lastIndexOf_newline_from s i f = lastIndexOf_newline_from s i f'.
Proof.
  revert i f f'. induction s as [|c s IH]; intros i f f'; simpl; [done|].
  destruct (Ascii.eqb c "010"); [done|]. simpl. apply IH.
Qed.

Lemma lastIndexOf_from_shift s i f d :
  lastIndexOf_newline_from s (i + d) (f + d)
  = (lastIndexOf_newline_from s i f + d)%Z.
Proof.
  revert i f. induction s as [|c s IH]; intros i f; simpl; [done|].
  replace (i + d + 1)%Z with (i + 1 + d)%Z by lia.
  destruct (Ascii.eqb c "010"); apply IH.
Qed.

Lemma lastIndexOf_from_bound s (i f : Z) :
  count_newlines s ≠ 0%nat → (i ≤ lastIndexOf_newline_from s i f)%Z.
Proof.
  revert i f. induction s as [|c s IH]; intros i f; simpl; [done|].
  destruct (Ascii.eqb c "010"); simpl.
  - intros _. destruct (decide (count_newlines s = 0%nat)) as [H0|Hn].
    + rewrite lastIndexOf_from_none by done. lia.
    + specialize (IH (i + 1)%Z i Hn). lia.
  - intros Hn. specialize (IH (i + 1)%Z f Hn). lia.
Qed.

Lemma lastIndexOf_from_some s i found :
  count_newlines s ≠ 0%nat →
  lastIndexOf_newline_from s i found = (i + lastIndexOf_newline s)%Z
  ∧ (0 ≤ lastIndexOf_newline s)%Z.
Proof.
  intros Hn. unfold lastIndexOf_newline. split.
  - rewrite (lastIndexOf_from_found s i found (-1 + i)) by done.
    rewrite <- (Z.add_0_l i) at 1. rewrite lastIndexOf_from_shift. lia.
  - by apply lastIndexOf_from_bound.
Qed.

Lemma updatePosition_cursor text str s :
  position s = cursor_of text →
  position (updatePosition str (Z.of_nat (String.length str)) s)
  = cursor_of (text +:+ str).
Proof.
  unfold position, cursor_of. intros [= Hl Hc]. f_equal.
  - rewrite PositionSpec.updatePosition_lineno, count_app, Hl. lia.
  - unfold lastIndexOf_newline. rewrite lastIndexOf_from_app, string_length_app.
    destruct (decide (count_newlines str = 0%nat)) as [H0|Hn].
    + rewrite PositionSpec.updatePosition_column_same_line by done.
      rewrite lastIndexOf_from_none by done. rewrite Hc.
      unfold lastIndexOf_newline. lia.
    + destruct (lastIndexOf_from_some str (0 + Z.of_nat (String.length text))
                  (lastIndexOf_newline_from text 0 (-1)) Hn) as [-> Hpos].
      unfold updatePosition. simpl.
      rewrite bool_decide_eq_true_2; [lia|].
      intros E. pose proof (Z.add_lnot_diag (lastIndexOf_newline str)). lia.
Qed.

Lemma advance_sync str s : in_sync s → in_sync (advance str s).
Proof.
  unfold in_sync, advance. intros H.
  change (position (updatePosition str (Z.of_nat (String.length str))
                      (set_parsed (parsed s +:+ str) s))
          = cursor_of (parsed (updatePosition str (Z.of_nat (String.length str))
                                 (set_parsed (parsed s +:+ str) s)))).
  assert (parsed (updatePosition str (Z.of_nat (String.length str))
                    (set_parsed (parsed s +:+ str) s)) = parsed s +:+ str) as ->.
  { unfold updatePosition. simpl. by destruct (bool_decide _). }
  by apply updatePosition_cursor.
Qed.

Lemma advance_parsed str s : parsed (advance str s) = parsed s +:+ str.
Proof. unfold advance, updatePosition. simpl. by destruct (bool_decide _). Qed.

Lemma advance_input str s :
  input (advance str s) = substr (input s) (String.length str).
Proof. unfold advance, updatePosition. simpl. by destruct (bool_decide _). Qed.

Lemma match_sync re s : in_sync s → in_sync (match_ re s).2.
Proof.
  intros H. unfold match_. destruct (re (input s)); simpl; [|done].
  by apply advance_sync.
Qed.

Section Engine.
Context (thrown : Type) (error : string → State → thrown * State).

Lemma run_from_sync fs idx s :
  (∀ msg s, in_sync s → in_sync (error msg s).2) →
  Forall keeps_sync fs → in_sync s →
  in_sync (state_of (run_from thrown error fs idx s)).
Proof.
  intros He Hfs. revert idx s.
  induction Hfs as [|fn fs Hfn _ IH]; intros idx s Hs; simpl; [done|].
  specialize (Hfn (input s) idx s Hs).
  destruct (fn (input s) idx s) as [[node|] s'|msg s']; simpl in *; auto.
Qed.

Lemma parse_loop_sync fuel fs s r :
  (∀ msg s, in_sync s → in_sync (error msg s).2) →
  Forall keeps_sync fs → in_sync s →
  parse_loop thrown error fuel fs s = Some r → in_sync (state_of r).
Proof.
  intros He Hfs. revert s. induction fuel as [|fuel IH]; intros s Hs; simpl.
  - case_bool_decide; [|done]. by intros [= <-].
  - case_bool_decide; [by intros [= <-]|].
    pose proof (run_from_sync fs 0 s He Hfs Hs) as Hr. unfold run.
    destruct (run_from thrown error fs 0 s) as [[node|] s'|e s']; simpl in Hr.
    + apply IH. exact Hr.
    + by intros [= <-].
    + by intros [= <-].
Qed.

End Engine.

(** X13: the middleware parser's cursor follows the parsed text.  The line
    is one more than the number of newlines in [parsed] and the column is
    the number of characters of [parsed] after its last newline, plus one:
    this holds on a new instance; [advance(str)], which appends [str] to
    [parsed] and drops as many characters from the input, keeps it for
    every [str], and so does [match]; [parse] keeps it when the middleware
    and the error reporter do. *)
Theorem X13_cursor_follows_parsed :
  (∀ src, in_sync (state (new_Parser src)))
  ∧ (∀ str s, in_sync s →
       in_sync (advance str s) ∧ parsed (advance str s) = parsed s +:+ str)
  ∧ (∀ str rest s, input s = str +:+ rest → input (advance str s) = rest)
  ∧ (∀ re s, in_sync s → in_sync (match_ re s).2)
  ∧ (∀ (thrown : Type) (error : string → State → thrown * State) fuel str p r,
       (∀ msg s, in_sync s → in_sync (error msg s).2) →
       Forall keeps_sync (fns p) → in_sync (state p) →
       parse thrown error fuel (VString str) p = Some r →
       in_sync (state_of r)).
Proof.
  split; [done|]. split; [|split; [|split]].
  - intros str s H. split; [by apply advance_sync|apply advance_parsed].
  - intros str rest s H. by rewrite advance_input, H, substr_app.
  - apply match_sync.
  - intros thrown error fuel str p r He Hfs Hs. unfold parse. simpl.
    by apply parse_loop_sync.
Qed.

Lemma any_char_sync : keeps_sync Fixtures.any_char.
Proof.
  intros inp idx s Hs. unfold Fixtures.any_char.
  match goal with |- context [match_ ?re s] =>
    pose proof (match_sync re s Hs) as H; destruct (match_ re s) as [[m|] s']
  end; done.
Qed.

(** X13 on an example: the text ["ab\ncd"] read character by character,
    after which the cursor is at line 2, column 3. *)
Lemma X13_cursor_follows_parsed_witness :
  let text := "ab" +:+ String "010" "cd" in
  ∃ r, parse string Fixtures.throw_message 10 (VString text)
         (use Fixtures.any_char (new_Parser None)) = Some r
       ∧ in_sync (state_of r)
       ∧ position (state_of r) = (2, 3)%Z.
Proof.
  intros text. destruct X13_cursor_follows_parsed as (H1 & _ & _ & _ & H5).
  eexists. split; [vm_compute; reflexivity|]. split; [|vm_compute; reflexivity].
  apply (H5 string Fixtures.throw_message 10%nat text
           (use Fixtures.any_char (new_Parser None))).
  - by intros msg s.
  - repeat constructor. apply any_char_sync.
  - apply H1.
  - vm_compute. reflexivity.
Defined.

End MiddlewareFacts.

(** ** Running the middleware *)

Module RunFacts.
Import Snapdragon JsFacts StringFacts MiddlewareFacts.

Section Engine.
Context (thrown : Type) (error : string → State → thrown * State).







End Engine.







End RunFacts.

(** ** What [render] appends *)

Module RenderFacts.
Import Renderer JsFacts RendererSpec.

Section Engine.
Context (thrown : Type) (error : string → State → thrown * State).
Context (renderers : gmap string (render_fn thrown)).

Lemma mapVisit_from_leaves out visit all rest i buf s :
  (∀ n j s', n ∈ rest → visit n all j s' = Normal (out n) s') →
  mapVisit_from thrown visit all rest i buf s
  = Normal (buf +:+ joined out rest) s.
Proof.
  revert i buf. induction rest as [|n rest IH]; intros i buf Hv; simpl.
  - by rewrite append_empty_r.
  - rewrite Hv by left. rewrite IH by (intros; apply Hv; by right).
    by rewrite append_assoc.
Qed.

Lemma visit_leaf out depth n ns i s (fn : render_fn thrown) :
  renderers !! n_type n = Some fn → leaf out fn →
  visit thrown error renderers (S depth) n ns i s = Normal (out n) s.
Proof.
  intros Hfn Hl. rewrite (visit_registered _ _ _ _ _ _ _ _ fn Hfn).
  by rewrite Hl.
Qed.

Lemma mapVisit_leaves out depth ns s :
  (∀ n, n ∈ ns → ∃ fn : render_fn thrown, renderers !! n_type n = Some fn ∧ leaf out fn) →
  mapVisit thrown error renderers (S depth) (Some ns) s
  = Normal (joined out ns) (set_rendered (rendered s +:+ joined out ns) s).
Proof.
  intros H. unfold mapVisit, mapVisit_with.
  rewrite (mapVisit_from_leaves out).
  - done.
  - intros n j s' Hn. destruct (H n Hn) as (fn & Hfn & Hl). by eapply visit_leaf.
Qed.

Lemma mapVisit_nil depth s :
  mapVisit thrown error renderers depth (Some []) s = Normal "" s.
Proof.
  unfold mapVisit, mapVisit_with. simpl. f_equal.
  destruct s. unfold set_rendered. simpl. by rewrite append_empty_r.
Qed.

End Engine.

(** X16: rendering a list of nodes whose render functions return a value
    computed from the node and leave the instance alone, as
    [function(node) { return this.emit(node.val) }] does.  [mapVisit]
    returns the values joined as strings in the order of the nodes and
    appends the same text to [rendered]; [render] of a root with these
    children does the same and records the tree and its errors;
    [rendered] is never reset, so a second [render] on the same instance
    appends to the text of the first.  For an empty list [mapVisit]
    returns the empty string and changes nothing, at any depth and
    whatever is registered. *)
Theorem X16_render_joins_leaves
    (thrown : Type) (error : string → State → thrown * State)
    (renderers : gmap string (render_fn thrown)) (out : Node → jsv) :
  (∀ depth ns s,
     (∀ n, n ∈ ns →
        ∃ fn : render_fn thrown, renderers !! n_type n = Some fn ∧ leaf out fn) →
     mapVisit thrown error renderers (S depth) (Some ns) s
     = Normal (joined out ns) (set_rendered (rendered s +:+ joined out ns) s))
  ∧ (∀ depth type val ns errs s,
       (∀ n, n ∈ ns →
          ∃ fn : render_fn thrown, renderers !! n_type n = Some fn ∧ leaf out fn) →
       render thrown error renderers (S depth) (mkNode type val (Some ns)) errs s
       = Normal tt (set_rendered (rendered s +:+ joined out ns)
                      (set_ast (mkNode type val (Some ns)) errs s)))
  ∧ (∀ depth t1 v1 ns1 e1 t2 v2 ns2 e2 s,
       (∀ n, n ∈ ns1 ++ ns2 →
          ∃ fn : render_fn thrown, renderers !! n_type n = Some fn ∧ leaf out fn) →
       ∃ s1 s2,
         render thrown error renderers (S depth) (mkNode t1 v1 (Some ns1)) e1 s
         = Normal tt s1
         ∧ render thrown error renderers (S depth) (mkNode t2 v2 (Some ns2)) e2 s1
           = Normal tt s2
         ∧ rendered s2 = rendered s +:+ joined out ns1 +:+ joined out ns2)
  ∧ (∀ depth s, mapVisit thrown error renderers depth (Some []) s = Normal "" s).
Proof.
  split; [|split; [|split]].
  - intros depth ns s H. by apply mapVisit_leaves.
  - intros depth type val ns errs s H. unfold render. cbn [n_nodes].
    by rewrite (mapVisit_leaves _ _ _ out) by done.
  - intros depth t1 v1 ns1 e1 t2 v2 ns2 e2 s H. do 2 eexists.
    unfold render. cbn [n_nodes].
    rewrite (mapVisit_leaves _ _ _ out)
      by (intros n Hn; apply H, elem_of_app; by left).
    split; [done|].
    rewrite (mapVisit_leaves _ _ _ out)
      by (intros n Hn; apply H, elem_of_app; by right).
    split; [done|]. simpl. by rewrite append_assoc.
  - intros depth s. apply mapVisit_nil.
Qed.

Lemma leaf_emit_val {thrown} :
  leaf (thrown := thrown) (λ n, of_val (n_val n)) emit_val.
Proof. intros this node nodes i s He. unfold emit_val. by rewrite He. Qed.

(** X16 on an example: the tokens of ["a"] in the demo grammar, rendered
    twice. *)
Lemma X16_render_joins_leaves_witness :
  let ns := [mkNode "bos" (Some "") None; mkNode "text" (Some "a") None;
             mkNode "eos" (Some "") None] in
  ∃ s1 s2,
    render string Fixtures.throw_message Fixtures.verbatim 1
      (mkNode "root" None (Some ns)) [] new_Renderer = Normal tt s1
    ∧ render string Fixtures.throw_message Fixtures.verbatim 1
        (mkNode "root" None (Some ns)) [] s1 = Normal tt s2
    ∧ rendered s2 = "aa".
Proof.
  intros ns.
  destruct (X16_render_joins_leaves string Fixtures.throw_message Fixtures.verbatim
              (λ n, of_val (n_val n))) as (_ & _ & H3 & _).
  apply (H3 0%nat "root" None ns [] "root" None ns [] new_Renderer).
  intros n Hn. exists emit_val. split; [|apply leaf_emit_val].
  repeat (apply elem_of_cons in Hn as [->|Hn]; [vm_compute; reflexivity|]).
  by apply elem_of_nil in Hn.
Defined.

Section Visiting.
Context (thrown : Type) (error : string → State → thrown * State).

Lemma verbatim_visit_token type :
  Fixtures.is_container type = false → Fixtures.is_token type = true →
  (Fixtures.verbatim_visit (thrown := thrown)) !! type = Some emit_val.
Proof.
  intros _ H. apply bool_decide_eq_true in H.
  repeat (apply elem_of_cons in H as [->|H]; [vm_compute; reflexivity|]).
  by apply elem_of_nil in H.
Qed.

Lemma verbatim_visit_container type :
  Fixtures.is_container type = true →
  (Fixtures.verbatim_visit (thrown := thrown)) !! type = Some visit_children.
Proof.
  intros H. apply bool_decide_eq_true in H.
  repeat (apply elem_of_cons in H as [->|H]; [vm_compute; reflexivity|]).
  by apply elem_of_nil in H.
Qed.

(** The loop over the children, given that [visit] returns the text of
    each and leaves the instance as it is. *)
Lemma mapVisit_from_plain visit all rest i buf s :
  (∀ n j s', n ∈ rest →
     ∃ v, visit n all j s' = Normal v s' ∧ to_str v = Fixtures.text n) →
  mapVisit_from thrown visit all rest i buf s
  = Normal (buf +:+ Fixtures.text_list rest) s.
Proof.
  revert i buf. induction rest as [|n rest IH]; intros i buf Hv; simpl.
  - by rewrite append_empty_r.
  - destruct (Hv n i s) as (v & -> & Hstr); [by left|].
    rewrite IH by (intros; apply Hv; by right).
    by rewrite Hstr, append_assoc.
Qed.

(** [visit] with the renderers of [verbatim_visit] returns the text of the
    tree and leaves the instance as it is. *)
Lemma visit_plain depth n ns i s :
  Fixtures.kinds_ok n = true → (Fixtures.need n ≤ depth)%nat →
  ∃ v, visit thrown error Fixtures.verbatim_visit depth n ns i s = Normal v s
       ∧ to_str v = Fixtures.text n.
Proof.
  revert n ns i s. induction depth as [|depth IH]; intros n ns i s Hk Hd.
  { destruct n as [type val [l|]]; simpl in Hd; lia. }
  destruct n as [type val nodes].
  destruct (Fixtures.is_container type) eqn:Hc.
  - rewrite (visit_registered thrown error Fixtures.verbatim_visit depth
               (mkNode type val nodes) ns i s visit_children
               (verbatim_visit_container _ Hc)).
    unfold visit_children. cbn [this_visit n_nodes].
    simpl in Hk. rewrite Hc in Hk.
    destruct nodes as [l|]; [|done].
    rewrite text_container by done. rewrite need_container in Hd.
    rewrite mapVisit_from_plain.
    { by exists (VStr (Fixtures.text_list l)). }
    intros n j s' Hn. apply IH.
    + by eapply forallb_elem_of.
    + pose proof (need_elem _ _ Hn). lia.
  - simpl in Hk. rewrite Hc in Hk.
    rewrite (visit_registered thrown error Fixtures.verbatim_visit depth
               (mkNode type val nodes) ns i s emit_val
               (verbatim_visit_token _ Hc Hk)).
    eexists. split; [reflexivity|].
    simpl. rewrite Hc. apply to_str_of_val.
Qed.

Lemma extra_flat l :
  forallb (λ n, negb (Fixtures.is_container (n_type n))) l = true →
  Fixtures.extra_list l = "".
Proof.
  induction l as [|[type val nodes] l IH]; simpl; [done|].
  intros [Hc Hl]%andb_true_iff. apply negb_true_iff in Hc.
  rewrite Hc. simpl. by apply IH.
Qed.

End Visiting.

(** X17: what [render] appends to [rendered] for any tree of the kinds of
    the demo grammar in which every container has [nodes], given enough
    depth.  The text of such a tree is what its tokens give, in order: the
    [val] of a token, and ["undefined"] for a token without [val].  With
    containers that render their children by [mapVisit], [render] appends
    the text of every container below the root followed by the text of
    the whole tree, because every call of [mapVisit] appends to
    [rendered]; with containers that visit their children one by one it
    appends the text of the tree, once.  The two agree when no child of
    the root is a container.  On a container without [nodes] both kinds
    of render function throw a [TypeError]. *)
Theorem X17_render_of_nested_trees
    (thrown : Type) (error : string → State → thrown * State) :
  (∀ depth type val l errs s,
     forallb Fixtures.kinds_ok l = true → (Fixtures.need_list l < depth)%nat →
     render thrown error Fixtures.verbatim depth (mkNode type val (Some l)) errs s
     = Normal tt
         (set_rendered (rendered s +:+ Fixtures.extra_list l +:+ Fixtures.text_list l)
            (set_ast (mkNode type val (Some l)) errs s)))
  ∧ (∀ depth type val l errs s,
       forallb Fixtures.kinds_ok l = true → (Fixtures.need_list l < depth)%nat →
       render thrown error Fixtures.verbatim_visit depth (mkNode type val (Some l)) errs s
       = Normal tt
           (set_rendered (rendered s +:+ Fixtures.text_list l)
              (set_ast (mkNode type val (Some l)) errs s)))
  ∧ (∀ l, forallb (λ n, negb (Fixtures.is_container (n_type n))) l = true →
       Fixtures.extra_list l = "")
  ∧ (∀ depth type val ns i s,
       Fixtures.is_container type = true →
       visit thrown error Fixtures.verbatim (S depth) (mkNode type val None) ns i s
       = Thrown RuntimeTypeError s
       ∧ visit thrown error Fixtures.verbatim_visit (S depth) (mkNode type val None) ns i s
         = Thrown RuntimeTypeError s).
Proof.
  split; [|split; [|split]].
  - intros depth type val l errs s Hk Hd. unfold render. cbn [n_nodes].
    by rewrite mapVisit_text.
  - intros depth type val l errs s Hk Hd. unfold render. cbn [n_nodes].
    unfold mapVisit, mapVisit_with.
    rewrite mapVisit_from_plain; [done|].
    intros n j s' Hn. apply visit_plain.
    + by eapply forallb_elem_of.
    + pose proof (need_elem _ _ Hn). lia.
  - apply extra_flat.
  - intros depth type val ns i s Hc. split.
    + by rewrite (visit_registered thrown error Fixtures.verbatim depth
                    (mkNode type val None) ns i s map_children
                    (verbatim_container _ _ Hc)).
    + by rewrite (visit_registered thrown error Fixtures.verbatim_visit depth
                    (mkNode type val None) ns i s visit_children
                    (verbatim_visit_container _ _ Hc)).
Qed.

(** X17 on an example: the tree of ["(a)"]. *)
Lemma X17_render_of_nested_trees_witness :
  let l := [mkNode "bos" (Some "") None;
            mkNode "paren" None
              (Some [mkNode "paren.open" (Some "(") None;
                     mkNode "text" (Some "a") None;
                     mkNode "paren.close" (Some ")") None]);
            mkNode "eos" (Some "") None] in
  rendered (state_of (render string Fixtures.throw_message Fixtures.verbatim 3
                        (mkNode "root" None (Some l)) [] new_Renderer)) = "(a)(a)"
  ∧ rendered (state_of (render string Fixtures.throw_message Fixtures.verbatim_visit 3
                          (mkNode "root" None (Some l)) [] new_Renderer)) = "(a)".
Proof.
  intros l.
  destruct (X17_render_of_nested_trees string Fixtures.throw_message) as (H1 & H2 & _).
  split.
  - rewrite (H1 3%nat "root" None l [] new_Renderer); [reflexivity..|].
    vm_compute. lia.
  - rewrite (H2 3%nat "root" None l [] new_Renderer); [reflexivity..|].
    vm_compute. lia.
Defined.

End RenderFacts.

(** ** Grammars without pairs: from the input to the rendered text *)

Module FlatFacts.
Import Extglob JsFacts ExtglobFacts StoreFacts HandlerFacts DepthFacts NodeFacts CursorFacts.

Lemma vals_app ns ms : vals (ns ++ ms) = vals ns +:+ vals ms.
Proof.
  induction ns as [|n ns IH]; [done|]. simpl. by rewrite IH, append_assoc.
Qed.

Lemma flat_prev R text p : flat R text p → prev p = Some (ast p).
Proof. intros (Hs & Hn & _). unfold prev. by rewrite Hs, Hn. Qed.

(** Appending a leaf to the children of the root. *)
Lemma flat_attach R text p q node :
  flat R text p →
  stack q = [] → nodes q = nodes p → ast q = ast p →
  (∀ root l, store p !! ast p = Some root → n_nodes root = Some l →
     store q = <[ast p := with_nodes (l ++ [length (store p)]) root]>
                 (store p ++ [node])) →
  n_nodes node = None → R (n_type node) →
  flat R (text +:+ show (n_val node)) q.
Proof.
  intros (Hs & Hn & root & cs & ns & Hr & Hcs & Hall & Hv) Hsq Hnq Haq Hst Hnode HR.
  specialize (Hst root cs Hr Hcs).
  assert (ast p < length (store p))%nat as Hlt by (by eapply lookup_lt_Some).
  split; [done|]. split; [congruence|].
  exists (with_nodes (cs ++ [length (store p)]) root), (cs ++ [length (store p)]),
    (ns ++ [node]).
  rewrite Haq, Hst. split.
  { apply list_lookup_insert_eq. rewrite length_app. simpl. lia. }
  split; [done|]. split.
  - apply Forall2_app.
    + eapply Forall2_impl; [exact Hall|]. intros c n (Hc & Hnn & HRn).
      split; [|done].
      assert (c ≠ ast p) by (intros ->; congruence).
      rewrite list_lookup_insert_ne by done.
      rewrite lookup_app_l by (by eapply lookup_lt_Some). done.
    + constructor; [|constructor]. split; [|done].
      rewrite list_lookup_insert_ne by lia. by apply list_lookup_middle.
  - rewrite vals_app, Hv. simpl. by rewrite append_empty_r.
Qed.

Lemma flat_capture_fn R type regex p a p' :
  R type → flat R (parsed p) p → capture_fn type regex p = Normal a p' →
  flat R (parsed p') p'.
Proof.
  intros HR Hf H. apply capture_fn_inv in H as [[_ ->]|H]; [done|].
  destruct H as (m & t & n & l & _ & _ & Hp & _ & Ht & Hl & _ & ->).
  rewrite (flat_prev _ _ _ Hf) in Hp. injection Hp as <-.
  apply (flat_attach R (parsed p) p _ (capture_node type m p (Some (ast p))));
    try done.
  - by destruct Hf.
  - intros root l' Hr Hl'. simpl. congruence.
Qed.

Lemma flat_next_from R ts p a p' :
  captures_only R p → flat R (parsed p) p → next_from ts p = Normal a p' →
  flat R (parsed p') p'.
Proof.
  revert p. induction ts as [|t ts IH]; intros p Hc Hf; simpl.
  - by intros [= _ <-].
  - intros H. apply next_from_cons_inv in H as [(fn & v & q & E & Hq & H)|[_ H]];
      [|by eapply IH].
    destruct (Hc _ _ E) as (type & regex & -> & HR). simpl in Hq.
    apply IH in H; [done| |by eapply flat_capture_fn].
    unfold captures_only.
    by rewrite (PassFacts.call_parsers (CaptureFn type regex) _ _ _ Hq).
Qed.

Lemma flat_parse_loop R fuel p a p' :
  captures_only R p → flat R (parsed p) p →
  parse_loop fuel p = Some (Normal a p') → flat R (parsed p') p'.
Proof.
  revert p. induction fuel as [|fuel IH]; intros p Hc Hf; simpl.
  - destruct (negb _); [|done]. by intros [= _ <-].
  - destruct (negb _); [by intros [= _ <-]|].
    destruct (next p) as [[] q|] eqn:En; [|done].
    destruct (_ && _); [done|]. apply IH.
    + unfold captures_only. unfold next in En. rewrite bind_gets in En.
      by rewrite (PassFacts.next_from_parsers _ _ _ _ En).
    + revert En. unfold next. rewrite bind_gets. by apply flat_next_from.
Qed.

Lemma flat_eos R text p a p' :
  R "eos" → flat R text p → input p = "" → eos p = Normal a p' →
  flat R (text +:+ append_or_empty p) p'.
Proof.
  intros HR Hf Hin H.
  apply eos_inv in H as (t & n & l & Hp & Ht & Hl & _ & ->); [|done].
  rewrite (flat_prev _ _ _ Hf) in Hp. injection Hp as <-.
  apply (flat_attach R text p _ (eos_literal p)); try done.
  - by destruct Hf.
  - intros root l' Hr Hl'. simpl. congruence.
Qed.

Lemma flat_new R o : R "bos" → flat R "" (new_Parser o).
Proof.
  intros HR. split; [done|]. split; [done|].
  exists (with_nodes [0%nat] (blank "root")), [0%nat],
    [with_position {| start_column := 1; end_column := 1 |} None
       (with_val "" (blank "bos"))].
  repeat split; try done. constructor; [|constructor]. by repeat split.
Qed.

Lemma flat_orig R text str p : flat R text p → flat R text (set_input str (set_orig (Some str) p)).
Proof. done. Qed.

Lemma flat_parse R fuel str p a p' :
  R "eos" → captures_only R p → flat R (parsed p) p →
  parse fuel str p = Some (Normal a p') →
  flat R (parsed p' +:+ append_or_empty p) p'.
Proof.
  intros HR Hc Hf H. apply parse_inv in H as (p2 & Hl & He).
  pose proof (parse_loop_progress _ _ _ _ Hl) as [[F _ _ _ _] Hin].
  apply flat_parse_loop with (R := R) in Hl; [|done..].
  apply parse_end_inv in He as (v & He & _).
  pose proof (eos_built _ _ _ He) as [_ _ P' _ _].
  rewrite P'. destruct F as [_ _ _ _ _ _ _ _ _ Fa]. simpl in Fa.
  replace (append_or_empty p) with (append_or_empty p2)
    by (unfold append_or_empty; by rewrite Fa).
  by eapply flat_eos.
Qed.

Lemma captures_keeps caps p :
  store (captures caps p) = store p ∧ stack (captures caps p) = stack p
  ∧ nodes (captures caps p) = nodes p ∧ ast (captures caps p) = ast p
  ∧ parsed (captures caps p) = parsed p ∧ append (captures caps p) = append p.
Proof.
  revert p. induction caps as [|c caps IH]; intros p; [done|].
  simpl. destruct (IH (capture c.1 c.2 p)) as (?&?&?&?&?&?). by repeat split.
Qed.

Lemma captures_flat R text caps p : flat R text p → flat R text (captures caps p).
Proof.
  destruct (captures_keeps caps p) as (Hst & Hsk & Hn & Ha & _).
  unfold flat. by rewrite Hst, Hsk, Hn, Ha.
Qed.

Lemma captures_captures_only (R : string → Prop) caps p :
  Forall (λ c, R c.1) caps → captures_only R p → captures_only R (captures caps p).
Proof.
  intros Hcaps. revert p. induction Hcaps as [|c caps Hc _ IH]; intros p Hp; [done|].
  simpl. apply IH. intros t fn. unfold capture. simpl.
  rewrite lookup_insert_Some. intros [[_ <-]|[_ H]]; [eauto|by eapply Hp].
Qed.

Lemma captures_anchored caps p :
  Forall (λ c, anchored c.2) caps → anchored_table p →
  anchored_table (captures caps p).
Proof.
  intros Hcaps. revert p. induction Hcaps as [|c caps Hc _ IH]; intros p Hp; [done|].
  simpl. apply IH. unfold capture. by apply anchored_table_set.
Qed.

Lemma to_tree_leaves R fuel st cs ns :
  Forall2 (token_at R st) cs ns →
  mapM (Pipeline.to_tree (S fuel) st) cs = Some (Pipeline.leaf_of <$> ns).
Proof.
  intros H. apply mapM_Some. apply Forall2_fmap_r.
  eapply Forall2_impl; [exact H|]. intros c n (Hc & Hn & _).
  simpl. rewrite Hc. simpl. by rewrite Hn.
Qed.

Lemma flat_two R text p root c cs :
  flat R text p → store p !! ast p = Some root → n_nodes root = Some (c :: cs) →
  (2 ≤ length (store p))%nat.
Proof.
  intros (_ & _ & root' & cs' & ns & Hr & Hcs & Hall & _) Hr' Hcs'.
  assert (root' = root) as -> by congruence.
  assert (cs' = c :: cs) as -> by congruence.
  apply Forall2_cons_inv_l in Hall as (n & ns' & (Hc & Hn & _) & _ & _).
  assert (c ≠ ast p) by (intros ->; congruence).
  apply lookup_lt_Some in Hc, Hr. lia.
Qed.

Lemma flat_tree R text p :
  flat R text p →
  ∃ root ns,
    Pipeline.ast_tree p
    = Some (Renderer.mkNode (n_type root) (n_val root) (Some (Pipeline.leaf_of <$> ns)))
    ∧ vals ns = text ∧ Forall (λ n, R (n_type n)) ns.
Proof.
  intros Hf. pose proof Hf as (_ & _ & root & cs & ns & Hr & Hcs & Hall & Hv).
  exists root, ns. split; [|split; [done|]].
  - unfold Pipeline.ast_tree.
    destruct (length (store p)) as [|[|f]] eqn:El.
    + apply lookup_lt_Some in Hr. lia.
    + destruct cs as [|c cs].
      * apply Forall2_nil_inv_l in Hall as ->. simpl. rewrite Hr. simpl.
        by rewrite Hcs.
      * pose proof (flat_two _ _ _ _ _ _ Hf Hr Hcs). lia.
    + change (Pipeline.to_tree (S (S f)) (store p) (ast p))
        with (n ← store p !! ast p;
              match n_nodes n with
              | None => Some (Renderer.mkNode (n_type n) (n_val n) None)
              | Some cs =>
                  ts ← mapM (Pipeline.to_tree (S f) (store p)) cs;
                  Some (Renderer.mkNode (n_type n) (n_val n) (Some ts))
              end).
      rewrite Hr. cbn [mbind option_bind]. rewrite Hcs.
      by rewrite (to_tree_leaves R f _ _ ns Hall).
  - clear -Hall. induction Hall as [|c n cs ns (_ & _ & HR) _ IH]; by constructor.
Qed.

Lemma joined_vals ns :
  Renderer.joined (λ t, of_val (Renderer.n_val t)) (Pipeline.leaf_of <$> ns) = vals ns.
Proof.
  induction ns as [|n ns IH]; [done|]. simpl.
  rewrite RendererSpec.to_str_of_val. f_equal. exact IH.
Qed.

(** X18: the round trip for grammars without pairs.  For a new parser
    with any list of [capture] rules whose regular expressions match at
    the start of the input only, and renderers that emit the [val] of the
    [bos] and [eos] nodes and of the nodes of every captured kind: whenever
    [parse] returns, [render] of the syntax tree appends exactly the input
    to [rendered]. *)
Theorem X18_flat_round_trip
    (thrown : Type) (error : string → Renderer.State → thrown * Renderer.State)
    (renderers : gmap string (Renderer.render_fn thrown))
    o caps fuel str a p' :
  Forall (λ c, anchored c.2) caps →
  renderers !! "bos" = Some Renderer.emit_val →
  renderers !! "eos" = Some Renderer.emit_val →
  Forall (λ c, renderers !! c.1 = Some Renderer.emit_val) caps →
  parse fuel str (captures caps (new_Parser o)) = Some (Normal a p') →
  ∃ tree,
    Pipeline.ast_tree p' = Some tree
    ∧ ∀ depth errs s,
        Renderer.render thrown error renderers (S depth) tree errs s
        = Renderer.Normal tt
            (Renderer.set_rendered (Renderer.rendered s +:+ str)
               (Renderer.set_ast tree errs s)).
Proof.
  intros Hanch Hbos Heos Hcaps Hparse.
  set (R := λ k : string, renderers !! k = Some (Renderer.emit_val (thrown := thrown))).
  set (p := captures caps (new_Parser o)) in *.
  destruct (captures_keeps caps (new_Parser o)) as (_ & _ & _ & _ & Hpd & Hap).
  fold p in Hpd, Hap. simpl in Hpd, Hap.
  assert (flat R (parsed p) p) as Hf.
  { rewrite Hpd. apply captures_flat. by apply flat_new. }
  assert (captures_only R p) as Hco.
  { apply captures_captures_only; [done|]. intros t fn. simpl. by rewrite lookup_empty. }
  assert (anchored_table p) as Hat.
  { apply captures_anchored; [done|]. apply anchored_table_new. }
  pose proof (flat_parse R _ _ _ _ _ Heos Hco Hf Hparse) as Hf'.
  apply parse_taken in Hparse as (Hp' & _ & _); [|done].
  rewrite Hp', Hpd in Hf'. unfold append_or_empty in Hf'. rewrite Hap in Hf'.
  simpl in Hf'. rewrite append_empty_r in Hf'.
  apply flat_tree in Hf' as (root & ns & Htree & Hv & HR).
  eexists. split; [exact Htree|]. intros depth errs s.
  unfold Renderer.render. cbn [Renderer.n_nodes].
  rewrite (RenderFacts.mapVisit_leaves thrown error renderers
             (λ t, of_val (Renderer.n_val t))).
  - by rewrite joined_vals, Hv.
  - intros t Ht. apply list_elem_of_fmap in Ht as (n & -> & Hn).
    rewrite Forall_forall in HR. exists Renderer.emit_val. split.
    + apply (HR n Hn).
    + apply RenderFacts.leaf_emit_val.
Qed.

(** X18 on an example: a grammar with the text capture only, the input
    ["ab"] and the renderers of the demo grammar. *)
Lemma X18_flat_round_trip_witness :
  let caps := [("text", Fixtures.re_class_plus Fixtures.is_text)] in
  ∃ tree,
    Pipeline.ast_tree
      (state_of (default (Normal 0%nat (new_Parser (Fixtures.opts false false)))
                   (parse 5 "ab" (captures caps (new_Parser (Fixtures.opts false false))))))
    = Some tree
    ∧ ∀ depth errs s,
        Renderer.render string Fixtures.throw_message Fixtures.verbatim (S depth)
          tree errs s
        = Renderer.Normal tt
            (Renderer.set_rendered (Renderer.rendered s +:+ "ab")
               (Renderer.set_ast tree errs s)).
Proof.
  intros caps.
  apply (X18_flat_round_trip string Fixtures.throw_message Fixtures.verbatim
           (Fixtures.opts false false) caps 5%nat "ab" 1%nat).
  - repeat constructor. apply re_class_plus_anchored.
  - reflexivity.
  - reflexivity.
  - repeat constructor.
  - vm_compute. reflexivity.
Defined.

End FlatFacts.

(** ** Where the nodes stand in the input *)

Module SpanFacts.
Import Extglob JsFacts StringFacts ExtglobFacts StoreFacts HandlerFacts CursorFacts NodeFacts.

Lemma covers_attach Q from st news t n l k :
  stable Q → covers Q from st → Forall (Q (st ++ news)) news →
  (st ++ news) !! t = Some n → n_nodes n = Some l →
  covers Q from (<[t := with_nodes (l ++ [k]) n]> (st ++ news)).
Proof.
  intros (Happ & Hins & Hwith) Hc Hnew Ht Hl i ni Hi Hlook.
  assert (∀ j nj, (from ≤ j)%nat → (st ++ news) !! j = Some nj → Q (st ++ news) nj) as Hall.
  { intros j nj Hj Hlj. destruct (decide (j < length st)%nat) as [Hlt|Hge].
    - rewrite lookup_app_l in Hlj by done. apply Happ. by eapply Hc.
    - rewrite lookup_app_r in Hlj by lia.
      rewrite Forall_forall in Hnew. apply Hnew. by eapply list_elem_of_lookup_2. }
  apply Hins; [done|].
  destruct (decide (i = t)) as [->|Hne].
  - rewrite list_lookup_insert_eq in Hlook by (by eapply lookup_lt_Some).
    injection Hlook as <-. apply Hwith; [done|]. by eapply Hall.
  - rewrite list_lookup_insert_ne in Hlook by done. by eapply Hall.
Qed.

Lemma text_of_app st news n v : text_of st n = Some v → text_of (st ++ news) n = Some v.
Proof.
  unfold text_of. destruct (n_val n); [done|].
  destruct (n_nodes n) as [[|o l]|]; try done.
  destruct (st !! o) as [x|] eqn:E; [|done].
  by rewrite (lookup_app_l_Some _ _ _ _ E).
Qed.

Lemma text_of_insert st t n0 l n :
  st !! t = Some n0 → text_of (<[t := with_nodes l n0]> st) n = text_of st n.
Proof.
  intros Ht. unfold text_of. destruct (n_val n); [done|].
  destruct (n_nodes n) as [[|o l']|]; try done.
  destruct (decide (o = t)) as [->|Hne].
  - rewrite list_lookup_insert_eq by (by eapply lookup_lt_Some). by rewrite Ht.
  - by rewrite list_lookup_insert_ne.
Qed.

Lemma text_of_with_nodes st n l k v :
  n_nodes n = Some l → text_of st n = Some v →
  text_of st (with_nodes (l ++ [k]) n) = Some v.
Proof.
  unfold text_of. simpl. intros ->. destruct (n_val n); [done|].
  by destruct l.
Qed.

Lemma sliced_stable text : stable (sliced text).
Proof.
  split; [|split].
  - intros st news n H post Hp. destruct (H _ Hp) as (pre & v & Hv & E & Hq).
    exists pre, v. split; [by apply text_of_app|done].
  - intros st t n0 l n Ht H post Hp. destruct (H _ Hp) as (pre & v & Hv & E & Hq).
    exists pre, v. split; [by rewrite text_of_insert|done].
  - intros st n l k Hl H post Hp. destruct (H _ Hp) as (pre & v & Hv & E & Hq).
    exists pre, v. split; [by apply text_of_with_nodes|done].
Qed.

Lemma located_stable text : stable (λ _, located text).
Proof. by repeat split. Qed.

(** The part of the loop and of [parse] that is common to the
    invariants below. *)
Lemma next_from_keeps (J : Parser → Prop) ts p a p' :
  (∀ fn q b q', anchored (handler_regex fn) → call fn q = Normal b q' → J q → J q') →
  anchored_table p → next_from ts p = Normal a p' → J p → J p'.
Proof.
  intros Hcall. revert p. induction ts as [|t ts IH]; intros p Ht; simpl.
  - by intros [= _ <-].
  - intros H HJ. apply next_from_cons_inv in H as [(fn & v & q & E & Hc & H)|[_ H]];
      [|by eapply IH].
    eapply IH; [|exact H|].
    + eapply anchored_table_frame; [|exact Ht].
      apply call_effect in Hc as [F _ _ _ _]. by destruct F.
    + eapply Hcall; [|exact Hc|done]. by eapply Ht.
Qed.

Lemma parse_loop_keeps (J : Parser → Prop) fuel p a p' :
  (∀ fn q b q', anchored (handler_regex fn) → call fn q = Normal b q' → J q → J q') →
  anchored_table p → parse_loop fuel p = Some (Normal a p') → J p → J p'.
Proof.
  intros Hcall. revert p. induction fuel as [|fuel IH]; intros p Ht; simpl.
  - destruct (negb _); [|done]. by intros [= _ <-].
  - destruct (negb _); [by intros [= _ <-]|].
    destruct (next p) as [[] q|] eqn:En; [|done].
    destruct (_ && _); [done|]. intros H HJ.
    pose proof (next_progress _ _ _ En) as [F _ _ _ _].
    eapply IH; [|exact H|].
    + eapply anchored_table_frame; [|exact Ht]. by destruct F.
    + revert En HJ. unfold next. rewrite bind_gets. by apply next_from_keeps.
Qed.

Lemma parse_keeps (J : Parser → Prop) fuel str p a p' :
  (∀ fn q b q', anchored (handler_regex fn) → call fn q = Normal b q' → J q → J q') →
  (∀ q v q', input q = "" → eos q = Normal v q' → J q → J q') →
  anchored_table p → parse fuel str p = Some (Normal a p') →
  J (set_input str (set_orig (Some str) p)) → J p'.
Proof.
  intros Hcall Heos Ht H HJ. apply parse_inv in H as (p2 & Hl & He).
  pose proof (parse_loop_progress _ _ _ _ Hl) as [_ Hin].
  apply parse_end_inv in He as (v & He & _).
  eapply Heos; [exact Hin|exact He|].
  eapply parse_loop_keeps; [exact Hcall| |exact Hl|exact HJ]. done.
Qed.

Lemma matched_text regex s m :
  anchored regex → regex s = Some m →
  ∃ r, s = m0 m +:+ r ∧ substr s (String.length (m0 m)) = r.
Proof.
  intros Ha Hm. destruct (Ha _ _ Hm) as [r Hr]. exists r. split; [done|].
  by rewrite Hr, substr_app.
Qed.

Lemma slicing_call text from fn p a p' :
  anchored (handler_regex fn) → call fn p = Normal a p' →
  slicing text from p → slicing text from p'.
Proof.
  intros Ha H [Ht Hc]. destruct fn as [type regex|type regex|type regex]; simpl in Ha, H.
  - apply capture_fn_inv in H as [[_ ->]|H]; [done|].
    destruct H as (m & t & n & l & Hm & _ & _ & _ & Hn & Hl & _ & ->).
    destruct (matched_text _ _ _ Ha Hm) as (r & Hr & Hs).
    split; simpl.
    + by rewrite Hs, <- Ht, Hr, append_assoc.
    + apply covers_attach; [apply sliced_stable|done| |by rewrite lookup_app_l by (by eapply lookup_lt_Some)|done].
      apply Forall_singleton. intros post [= <-].
      exists (parsed p), (m0 m). split; [done|].
      split; [by rewrite Hs, <- Ht, Hr|by intros q [= <-]].
  - apply pair_open_fn_inv in H as [[_ ->]|H]; [done|].
    destruct H as (m & t & n & l & ls & Hm & _ & _ & _ & Hn & Hl & _ & ->).
    destruct (matched_text _ _ _ Ha Hm) as (r & Hr & Hs).
    split; simpl.
    + by rewrite Hs, <- Ht, Hr, append_assoc.
    + apply covers_attach; [apply sliced_stable|done| |done|done].
      apply Forall_cons. split; [by intros post|]. apply Forall_singleton.
      intros post [= <-]. exists (parsed p), (m0 m). split.
      { unfold text_of. simpl. by rewrite list_lookup_middle. }
      split; [by rewrite Hs, <- Ht, Hr|by intros q [= <-]].
  - apply pair_close_fn_inv in H as [[_ ->]|H]; [done|].
    destruct H as (m & ls & o & n & l & Hm & _ & _ & Hn & Hl & _ & ->).
    destruct (matched_text _ _ _ Ha Hm) as (r & Hr & Hs).
    split; simpl.
    + by rewrite Hs, <- Ht, Hr, append_assoc.
    + apply covers_attach; [apply sliced_stable|done| |by rewrite lookup_app_l by (by eapply lookup_lt_Some)|done].
      apply Forall_singleton. intros post [= <-].
      exists (parsed p), (m0 m). split; [done|].
      split; [by rewrite Hs, <- Ht, Hr|by intros q].
Qed.

Lemma slicing_eos text from p v p' :
  input p = "" → eos p = Normal v p' → slicing text from p → slicing text from p'.
Proof.
  intros Hin H [Ht Hc]. apply eos_inv in H as (t & n & l & _ & Hn & Hl & _ & ->); [|done].
  split; [done|]. simpl.
  apply covers_attach; [apply sliced_stable|done| |by rewrite lookup_app_l by (by eapply lookup_lt_Some)|done].
  apply Forall_singleton. by intros post.
Qed.

Lemma covers_start Q st : covers Q (length st) st.
Proof. intros i n Hi Hl. apply lookup_lt_Some in Hl. lia. Qed.

(** X19: the nodes of a parse split its input.  With handlers whose
    regular expressions match at the start of the input only, every node
    that a call of [parse] makes and that records [rest] splits the text
    parsed so far followed by the input of this call: that text is the
    node's [parsed] (where it records one), then its [val] (for a
    container, the [val] of its open token), then its [rest]. *)
Theorem X19_nodes_split_the_input fuel str p a p' :
  anchored_table p →
  parse fuel str p = Some (Normal a p') →
  ∀ i n, (length (store p) ≤ i)%nat → store p' !! i = Some n →
    sliced (parsed p +:+ str) (store p') n.
Proof.
  intros Ht H.
  apply (parse_keeps (slicing (parsed p +:+ str) (length (store p)))) in H;
    [by destruct H| | |done|].
  - intros fn q b q'. apply slicing_call.
  - intros q v q'. apply slicing_eos.
  - split; [done|]. apply covers_start.
Qed.

(** X19 on an example: the nodes of [parse("a(b)")]. *)
Lemma X19_nodes_split_the_input_witness :
  ∃ a p', parse 10 "a(b)" (Fixtures.demo false false) = Some (Normal a p')
    ∧ ∀ i n, (2 ≤ i)%nat → store p' !! i = Some n → sliced "a(b)" (store p') n.
Proof.
  do 2 eexists. split; [vm_compute; reflexivity|].
  eapply (X19_nodes_split_the_input 10%nat "a(b)" (Fixtures.demo false false));
    [apply demo_anchored|vm_compute; reflexivity].
Defined.

Lemma located_more text str n : located text n → located (text +:+ str) n.
Proof.
  intros H pos v Hp Hv. destruct (H _ _ Hp Hv) as (pre & post & -> & Hs & He).
  exists pre, (post +:+ str). by rewrite !append_assoc.
Qed.

Lemma located_at_cursor p m nd :
  in_step p → n_position nd = Some (span m p) → n_val nd = Some (m0 m) →
  located (parsed p +:+ m0 m) nd.
Proof.
  intros Hs Hpos Hval pos v. rewrite Hpos, Hval. intros [= <-] [= <-].
  exists (parsed p), "". simpl. split; [by rewrite append_empty_r|]. by split.
Qed.

Lemma located_attach text st news t n l k :
  (∀ i ni, st !! i = Some ni → located text ni) →
  Forall (located text) news →
  (st ++ news) !! t = Some n → n_nodes n = Some l →
  ∀ i ni, <[t := with_nodes (l ++ [k]) n]> (st ++ news) !! i = Some ni →
    located text ni.
Proof.
  intros Hc Hnew Ht Hl i ni Hi.
  refine (covers_attach (λ _, located _) 0 _ _ _ _ _ _ (located_stable _) _ Hnew Ht Hl
            i ni _ Hi); [|lia].
  intros j nj _ Hj. by eapply Hc.
Qed.

Lemma well_located_call fn : rel (keeps well_located) (call fn).
Proof.
  intros p a p' H Hw. pose proof Hw as (Hs & Hap & Hc).
  assert (∀ m q, parsed q = parsed p +:+ m0 m →
            column q = (column p + Z.of_nat (String.length (m0 m)))%Z → in_step q) as Hstep.
  { intros m q Hp Hq. unfold in_step in *. rewrite Hp, Hq, string_length_app. lia. }
  destruct fn as [type regex|type regex|type regex]; simpl in H.
  - apply capture_fn_inv in H as [[_ ->]|H]; [done|].
    destruct H as (m & t & n & l & Hm & _ & _ & _ & Hn & Hl & _ & ->).
    split; [by apply (Hstep m)|]. split; [done|]. simpl.
    apply located_attach; [intros i ni Hi; apply located_more; by eapply Hc| |by rewrite lookup_app_l by (by eapply lookup_lt_Some)|done].
    apply Forall_singleton. by apply located_at_cursor.
  - apply pair_open_fn_inv in H as [[_ ->]|H]; [done|].
    destruct H as (m & t & n & l & ls & Hm & _ & _ & _ & Hn & Hl & _ & ->).
    split; [by apply (Hstep m)|]. split; [done|]. simpl.
    apply located_attach; [intros i ni Hi; apply located_more; by eapply Hc| |done|done].
    apply Forall_cons. split; [by apply located_at_cursor|].
    apply Forall_singleton. by intros pos v.
  - apply pair_close_fn_inv in H as [[_ ->]|H]; [done|].
    destruct H as (m & ls & o & n & l & Hm & _ & _ & Hn & Hl & _ & ->).
    split; [by apply (Hstep m)|]. split; [done|]. simpl.
    apply located_attach; [intros i ni Hi; apply located_more; by eapply Hc| |by rewrite lookup_app_l by (by eapply lookup_lt_Some)|done].
    apply Forall_singleton. by apply located_at_cursor.
Qed.

Lemma well_located_next_from ts : rel (keeps well_located) (next_from ts).
Proof.
  induction ts as [|t ts IH]; simpl.
  - apply rel_ret; apply _.
  - apply rel_bind; [apply _..|apply rel_gets; apply _|].
    intros [fn|[len [v|]|]|]; [|exact IH|apply rel_throw..].
    apply rel_bind; [apply _..|apply well_located_call|done].
Qed.

Lemma well_located_parse_loop fuel p a p' :
  parse_loop fuel p = Some (Normal a p') → well_located p → well_located p'.
Proof.
  revert p. induction fuel as [|fuel IH]; intros p; simpl.
  - destruct (negb _); [|done]. by intros [= _ <-].
  - destruct (negb _); [by intros [= _ <-]|].
    destruct (next p) as [[] q|] eqn:En; [|done].
    destruct (_ && _); [done|]. intros H Hb. eapply IH; [exact H|].
    revert En Hb. unfold next. rewrite bind_gets. apply well_located_next_from.
Qed.

Lemma well_located_eos p v p' :
  eos p = Normal v p' → well_located p → well_located p'.
Proof.
  intros H Hw. unfold eos in H. rewrite !bind_gets in H.
  destruct (truthy (input p)) eqn:E; [by injection H as _ <-|].
  apply truthy_false in E.
  assert (eos p = Normal v p') as H'.
  { unfold eos. by rewrite !bind_gets, E. }
  clear H. pose proof Hw as (Hs & Hap & Hc).
  apply eos_inv in H' as (t & n & l & _ & Hn & Hl & _ & ->); [|done].
  split; [done|]. split; [done|]. simpl.
  apply located_attach; [done| |by rewrite lookup_app_l by (by eapply lookup_lt_Some)|done].
  apply Forall_singleton. intros pos v'. simpl. unfold append_or_empty. rewrite Hap.
  intros [= <-] [= <-]. exists (parsed p), "". simpl.
  split; [by rewrite append_empty_r|]. split; [exact Hs|lia].
Qed.

Lemma well_located_new o : well_located (new_Parser o).
Proof.
  split; [done|]. split; [done|]. intros i n Hi pos v Hp Hv. simpl in Hi.
  destruct i as [|[|i]]; simpl in Hi; [| |done]; injection Hi as <-; [|done].
  injection Hp as <-. injection Hv as <-. exists "", "". by repeat split.
Qed.

Lemma well_located_parse fuel str p a p' :
  parse fuel str p = Some (Normal a p') → well_located p → well_located p'.
Proof.
  intros H Hb. apply parse_inv in H as (p2 & Hl & He).
  apply parse_end_inv in He as (v & He & _).
  eapply well_located_eos; [exact He|]. eapply well_located_parse_loop; [exact Hl|]. done.
Qed.

Lemma anchored_table_register regs p :
  Forall (λ r, anchored (handler_regex r.2)) regs → anchored_table p →
  anchored_table (register regs p).
Proof.
  intros H. revert p. induction H as [|[t fn] regs Hr _ IH]; intros p Hp; [done|].
  simpl. apply IH. by apply anchored_table_set.
Qed.

Lemma well_located_register regs p : well_located p → well_located (register regs p).
Proof. revert p. induction regs as [|r regs IH]; intros p Hp; [done|]. simpl. by apply IH. Qed.

(** X20: spans locate [val]s.  On an instance whose [append] is not set,
    the span of every node with a [val] is where the [val] stands in
    [parsed]: the [val] follows the first [start - 1] characters, and
    [end] is [start] plus its length.  This holds on a new instance and
    is kept by registering handlers, by every handler call that returns
    and by every call of [parse] that returns.  On a new instance with
    handlers that match at the start of the input only, the spans after
    [parse(str)] locate the [val]s in [str]. *)
Theorem X20_spans_locate_vals :
  (∀ o, well_located (new_Parser o))
  ∧ (∀ type fn p, well_located p → well_located (set type fn p))
  ∧ (∀ fn p a p', call fn p = Normal a p' → well_located p → well_located p')
  ∧ (∀ fuel str p a p',
       parse fuel str p = Some (Normal a p') → well_located p → well_located p')
  ∧ (∀ o regs fuel str a p',
       Forall (λ r, anchored (handler_regex r.2)) regs →
       parse fuel str (register regs (new_Parser o)) = Some (Normal a p') →
       ∀ i n, store p' !! i = Some n → located str n).
Proof.
  split; [apply well_located_new|]. split; [done|]. split.
  { intros fn p a p' H. by apply well_located_call in H. }
  split; [apply well_located_parse|].
  intros o regs fuel str a p' Ha H i n Hi.
  pose proof (well_located_parse _ _ _ _ _ H
                (well_located_register _ _ (well_located_new o))) as (_ & _ & Hc).
  apply parse_taken in H as (Hp & _).
  2:{ apply anchored_table_register; [done|]. apply anchored_table_new. }
  specialize (Hc _ _ Hi). rewrite Hp in Hc.
  destruct (register_keeps regs (new_Parser o)) as (_&_&_&_&_&_&_&_&_&E).
  simpl in E. by rewrite E in Hc.
Qed.

(** X20 on an example: the spans after [parse("a(b)")]. *)
Lemma X20_spans_locate_vals_witness :
  ∃ a p', parse 10 "a(b)" (Fixtures.demo false false) = Some (Normal a p')
    ∧ ∀ i n, store p' !! i = Some n → located "a(b)" n.
Proof.
  destruct X20_spans_locate_vals as (_ & _ & _ & _ & H).
  do 2 eexists. split; [vm_compute; reflexivity|].
  eapply (H (Fixtures.opts false false)
           [("paren.open", PairOpenFn "paren" (Fixtures.re_lit "("));
            ("paren.close", PairCloseFn "paren" (Fixtures.re_lit ")"));
            ("brace.open", PairOpenFn "brace" (Fixtures.re_lit "{"));
            ("brace.close", PairCloseFn "brace" (Fixtures.re_lit "}"));
            ("text", CaptureFn "text" (Fixtures.re_class_plus Fixtures.is_text))]
           10%nat "a(b)").
  - repeat constructor; simpl;
      auto using re_lit_anchored, re_class_plus_anchored.
  - vm_compute. reflexivity.
Defined.

End SpanFacts.
